(** * FluentLM pipeline engine: a shallow embedding of [FluentLM/pipeline.py]

    The development models the [Context] store, the four [Step] variants,
    the [networkx] directed graph a [Pipeline] is built on, and the two
    execution modes of [Pipeline.execute], and proves properties of them. *)

From stdpp Require Import gmap strings list fin_maps functions pretty.
From Stdlib Require Import Ascii ZArith Lia.

Local Open Scope string_scope.
Local Open Scope list_scope.
Local Open Scope nat_scope.

(** ** Python values *)

(** The values that travel through a pipeline: [None], strings and
    integers.  All three are hashable, so they also serve as the keys of
    dataset records. *)
Inductive value : Type :=
  | VNone
  | VStr (s : string)
  | VInt (z : Z).

#[global] Instance value_eq_dec : EqDecision value.
Proof. solve_decision. Defined.

Definition value_encode (v : value) : option (string + Z) :=
  match v with
  | VNone => None
  | VStr s => Some (inl s)
  | VInt z => Some (inr z)
  end.

Definition value_decode (o : option (string + Z)) : value :=
  match o with
  | None => VNone
  | Some (inl s) => VStr s
  | Some (inr z) => VInt z
  end.

#[global] Instance value_countable : Countable value.
Proof.
  apply (inj_countable' value_encode value_decode).
  intros []; reflexivity.
Defined.

(** [x is None] *)
Definition is_None (v : value) : bool :=
  match v with VNone => true | _ => false end.

(** [str(v)], as [str.format] renders a value with an empty format spec. *)
Definition py_str (v : value) : string :=
  match v with
  | VNone => "None"
  | VStr s => s
  | VInt z => pretty z
  end.

(** Truthiness of an optional string attribute such as [input_key]:
    [None] and the empty string are falsy. *)
Definition truthy (k : option string) : bool :=
  match k with
  | Some (String _ _) => true
  | _ => false
  end.

(** ** Exceptions and outcomes *)

Inductive exn : Type :=
  | KeyError (k : value)          (* a failed dict lookup, with the key *)
  | IndexError (msg : string)
  | ValueError (msg : string)
  | TypeError (msg : string)
  | NetworkXUnfeasible            (* raised by nx.topological_sort *)
  | RuntimeError (msg : string)
  | Exception (msg : string).     (* raised by a user function or a model call *)

(** What a Python call yields: a value or a raised exception. *)
Definition result (A : Type) : Type := A + exn.

(** What a run of the model yields; [Unfinished] means that a loop bound
    of the model was reached before the Python loop ended. *)
Inductive outcome (A : Type) : Type :=
  | Ok (a : A)
  | Raise (e : exn)
  | Unfinished.
Arguments Ok {A} a.
Arguments Raise {A} e.
Arguments Unfinished {A}.

(** ** Context (pipeline.py, lines 8-31) *)

Abbreviation Ctx := (gmap string value).

(** [Context.__init__]: [self.context = initial_context or {}] *)
Definition Context_init (initial_context : option Ctx) : Ctx :=
  match initial_context with
  | Some c => c
  | None => ∅
  end.

(** [self.context[key] = value] *)
Definition Context_add (key : string) (v : value) (c : Ctx) : Ctx :=
  <[key := v]> c.

(** [self.context.get(key)]: the stored value, or [None] when absent. *)
Definition Context_get (key : string) (c : Ctx) : value :=
  match c !! key with
  | Some v => v
  | None => VNone
  end.

(** [del self.context[key]] *)
Definition Context_remove (key : string) (c : Ctx) : result Ctx :=
  match c !! key with
  | Some _ => inl (delete key c)
  | None => inr (KeyError (VStr key))
  end.

(** [self.context.clear()] *)
Definition Context_clear (c : Ctx) : Ctx := ∅.

(** [Context.update]; the [KeyError] it raises carries a message. *)
Definition Context_update (key : string) (new_value : value) (c : Ctx)
  : result Ctx :=
  if bool_decide (is_Some (c !! key))
  then inl (<[key := new_value]> c)
  else inr (KeyError (VStr ("Key " +:+ key +:+ " not in context."))).

(** ** The state-and-exception monad of the model

    A Python method mutates objects and may raise; the mutations made
    before an exception is raised stay visible, so the state is returned
    with every outcome. *)

Definition M (S A : Type) : Type := S -> outcome A * S.

#[global] Instance M_ret {S} : MRet (M S) := fun A a s => (Ok a, s).

#[global] Instance M_bind {S} : MBind (M S) := fun A B k m s =>
  match m s with
  | (Ok a, s') => k a s'
  | (Raise e, s') => (Raise e, s')
  | (Unfinished, s') => (Unfinished, s')
  end.

Definition raise {S A} (e : exn) : M S A := fun s => (Raise e, s).

Definition unfinished {S A} : M S A := fun s => (Unfinished, s).

Definition gets {S A} (f : S -> A) : M S A := fun s => (Ok (f s), s).

Definition modify {S} (f : S -> S) : M S unit := fun s => (Ok tt, f s).

(** A Python-level result, raised again when it is an exception. *)
Definition lift {S A} (r : result A) : M S A :=
  match r with
  | inl a => mret a
  | inr e => raise e
  end.

(** [for x in xs: body(x)] *)
Fixpoint for_each {S A} (xs : list A) (body : A -> M S unit) : M S unit :=
  match xs with
  | [] => mret tt
  | x :: xs' => body x ;; for_each xs' body
  end.

(** ** Templates and dataset records *)

(** A format string as [str.format] reads it: literal text and
    replacement fields.  A [Field] is a replacement field given by its
    field name, without conversion and without format specification; a
    template that [str.format] refuses as malformed has no
    representation.  The model reads the names that [plain_name] accepts
    as [str.format] does; a name with an attribute or an index part, or
    with characters outside ASCII, is outside the model. *)
Inductive piece : Type :=
  | Lit (text : string)
  | Field (name : string).

(** The characters of a field name the model covers: ASCII, and neither
    [.] nor [[], which start an attribute or an index, nor one of
    [! : { }], which end a field name or are refused in it. *)
Definition plain_char (a : ascii) : bool :=
  let n := nat_of_ascii a in
  ((n <? 128) && negb (n =? 46) && negb (n =? 91) && negb (n =? 33)
   && negb (n =? 58) && negb (n =? 123) && negb (n =? 125))%nat.

Fixpoint plain_name (s : string) : bool :=
  match s with
  | EmptyString => true
  | String a s' => plain_char a && plain_name s'
  end.

(** A dataset record: a mapping from hashable keys to values. *)
Abbreviation record := (gmap value value).

(** [item[k]] on a record *)
Definition getitem (item : record) (k : value) : result value :=
  match item !! k with
  | Some v => inl v
  | None => inr (KeyError k)
  end.

(** The dataset handed to a [DatasetStep]: a sized, re-iterable sequence
    (a list), or a one-shot iterable without [__len__] (a generator),
    given by the records it still has to yield. *)
Inductive dataset : Type :=
  | Sequence (items : list record)
  | Generator (items : list record).

Definition dataset_items (d : dataset) : list record :=
  match d with
  | Sequence items => items
  | Generator items => items
  end.

(** [len(dataset)] *)
Definition len (d : dataset) : result nat :=
  match d with
  | Sequence items => inl (length items)
  | Generator _ => inr (TypeError "object of type 'generator' has no len()")
  end.

(** What a step's [execute] returns: a value (possibly [None]) or, for a
    [DatasetStep], the record it fetched. *)
Inductive retval : Type :=
  | RVal (v : value)
  | RRecord (item : record).

(** [x is None] on a returned object *)
Definition ret_is_None (r : retval) : bool :=
  match r with
  | RVal VNone => true
  | _ => false
  end.

(** ** Step objects (pipeline.py, lines 33-132) *)

Record PromptStep : Type := mkPromptStep {
  p_input_key : option string;
  p_output_key : option string;
  template : list piece;
  variables : gmap string value
}.

Record ModelStep : Type := mkModelStep {
  m_input_key : option string;
  m_output_key : option string;
  provider : option string;
  model_name : option string;
  client : option string;
  prompt_step : option PromptStep
}.

Record ApplyStep : Type := mkApplyStep {
  a_input_key : option string;
  a_output_key : option string;
  func : value -> result value
}.

Record DatasetStep : Type := mkDatasetStep {
  d_input_key : option string;
  d_output_key : option string;
  d_dataset : dataset;
  target : option string;
  target_type : option string;
  _iterator : option (list record)
}.

Inductive Step : Type :=
  | Prompt (s : PromptStep)
  | Model (s : ModelStep)
  | Apply (s : ApplyStep)
  | Source (s : DatasetStep).

(** The attributes of the [Step] base class, shared by every subclass. *)
Class StepLike (T : Type) : Type := {
  input_key : T -> option string;
  output_key : T -> option string;
  set_input_key : option string -> T -> T;
  set_output_key : option string -> T -> T
}.

#[global] Instance PromptStep_like : StepLike PromptStep := {|
  input_key := p_input_key;
  output_key := p_output_key;
  set_input_key k s :=
    mkPromptStep k (p_output_key s) (template s) (variables s);
  set_output_key k s :=
    mkPromptStep (p_input_key s) k (template s) (variables s)
|}.

#[global] Instance ModelStep_like : StepLike ModelStep := {|
  input_key := m_input_key;
  output_key := m_output_key;
  set_input_key k s :=
    mkModelStep k (m_output_key s) (provider s) (model_name s) (client s)
      (prompt_step s);
  set_output_key k s :=
    mkModelStep (m_input_key s) k (provider s) (model_name s) (client s)
      (prompt_step s)
|}.

#[global] Instance ApplyStep_like : StepLike ApplyStep := {|
  input_key := a_input_key;
  output_key := a_output_key;
  set_input_key k s := mkApplyStep k (a_output_key s) (func s);
  set_output_key k s := mkApplyStep (a_input_key s) k (func s)
|}.

#[global] Instance DatasetStep_like : StepLike DatasetStep := {|
  input_key := d_input_key;
  output_key := d_output_key;
  set_input_key k s :=
    mkDatasetStep k (d_output_key s) (d_dataset s) (target s)
      (target_type s) (_iterator s);
  set_output_key k s :=
    mkDatasetStep (d_input_key s) k (d_dataset s) (target s)
      (target_type s) (_iterator s)
|}.

#[global] Instance Step_like : StepLike Step := {|
  input_key s :=
    match s with
    | Prompt p => input_key p
    | Model m => input_key m
    | Apply a => input_key a
    | Source d => input_key d
    end;
  output_key s :=
    match s with
    | Prompt p => output_key p
    | Model m => output_key m
    | Apply a => output_key a
    | Source d => output_key d
    end;
  set_input_key k s :=
    match s with
    | Prompt p => Prompt (set_input_key k p)
    | Model m => Model (set_input_key k m)
    | Apply a => Apply (set_input_key k a)
    | Source d => Source (set_input_key k d)
    end;
  set_output_key k s :=
    match s with
    | Prompt p => Prompt (set_output_key k p)
    | Model m => Model (set_output_key k m)
    | Apply a => Apply (set_output_key k a)
    | Source d => Source (set_output_key k d)
    end
|}.

(** ** The directed graph ([networkx.DiGraph])

    Nodes are step objects, compared by identity: a node is the address
    of a step in the object store.  Nodes and edges are kept in insertion
    order, the order in which [networkx] iterates over them. *)

Record DiGraph : Type := mkDiGraph {
  nodes : list nat;
  edges : list (nat * nat)
}.

Definition empty_graph : DiGraph := mkDiGraph [] [].

(** [G.add_node(n)] *)
Definition add_node (n : nat) (g : DiGraph) : DiGraph :=
  if bool_decide (n ∈ nodes g) then g
  else mkDiGraph (nodes g ++ [n]) (edges g).

(** [G.add_edge(u, v)]: missing endpoints are added as nodes. *)
Definition add_edge (u v : nat) (g : DiGraph) : DiGraph :=
  let g' := add_node v (add_node u g) in
  if bool_decide ((u, v) ∈ edges g') then g'
  else mkDiGraph (nodes g') (edges g' ++ [(u, v)]).

(** [G.successors(u)], also [G.neighbors(u)] and [G[u]] *)
Definition successors (g : DiGraph) (u : nat) : list nat :=
  (filter (fun e => e.1 = u) (edges g)).*2.

(** [G.predecessors(v)] *)
Definition predecessors (g : DiGraph) (v : nat) : list nat :=
  (filter (fun e => e.2 = v) (edges g)).*1.

Definition in_degree (g : DiGraph) (v : nat) : nat :=
  length (predecessors g v).

(** *** [nx.topological_sort]

    Kahn's algorithm, generation by generation, as [networkx] (2.6 and
    later) runs it in [topological_generations]. *)

(** [{v: d for v, d in G.in_degree() if d > 0}] *)
Definition indegree_map (g : DiGraph) : gmap nat Z :=
  list_to_map
    (omap (fun v => if bool_decide (0 < in_degree g v)
                    then Some (v, Z.of_nat (in_degree g v)) else None)
          (nodes g)).

(** [[v for v, d in G.in_degree() if d == 0]] *)
Definition zero_indegree (g : DiGraph) : list nat :=
  filter (fun v => in_degree g v = 0) (nodes g).

(** The body of [for child in G.neighbors(node)]: decrement the child's
    in-degree; a child that reaches zero joins the next generation. *)
Definition relax (st : gmap nat Z * list nat) (child : nat)
  : result (gmap nat Z * list nat) :=
  match st.1 !! child with
  | None => inr (RuntimeError "Graph changed during iteration")
  | Some d =>
      if bool_decide (d - 1 = 0)%Z
      then inl (delete child st.1, st.2 ++ [child])
      else inl (<[child := (d - 1)%Z]> st.1, st.2)
  end.

Fixpoint relax_all (st : gmap nat Z * list nat) (children : list nat)
  : result (gmap nat Z * list nat) :=
  match children with
  | [] => inl st
  | c :: cs =>
      match relax st c with
      | inl st' => relax_all st' cs
      | inr e => inr e
      end
  end.

(** [for node in this_generation: for child in G.neighbors(node): ...] *)
Fixpoint process_generation (g : DiGraph) (st : gmap nat Z * list nat)
    (this_generation : list nat) : result (gmap nat Z * list nat) :=
  match this_generation with
  | [] => inl st
  | node :: rest =>
      match relax_all st (successors g node) with
      | inl st' => process_generation g st' rest
      | inr e => inr e
      end
  end.

(** [while zero_indegree: ...], then the final cycle check.  [yielded]
    collects the generations already produced. *)
Fixpoint generations (fuel : nat) (g : DiGraph) (indegree : gmap nat Z)
    (zero : list nat) (yielded : list nat) : outcome (list nat) :=
  match zero with
  | [] =>
      if bool_decide (indegree = ∅) then Ok yielded
      else Raise NetworkXUnfeasible
  | _ :: _ =>
      match fuel with
      | 0 => Unfinished
      | S fuel' =>
          match process_generation g (indegree, []) zero with
          | inl (indegree', zero') =>
              generations fuel' g indegree' zero' (yielded ++ zero)
          | inr e => Raise e
          end
      end
  end.

(** [list(nx.topological_sort(G))]; there are at most as many
    generations as nodes. *)
Definition topological_sort (g : DiGraph) : outcome (list nat) :=
  generations (length (nodes g)) g (indegree_map g) (zero_indegree g) [].

(** *** [nx.dfs_preorder_nodes]

    The nodes reachable from the source, each when it is first met, the
    successors of a node taken in the order of its adjacency. *)

(** Depth-first visit of [v]; [seen] holds the nodes visited so far, most
    recent first.  The recursion is never deeper than the number of
    nodes. *)
Fixpoint dfs_visit (fuel : nat) (g : DiGraph) (v : nat) (seen : list nat)
  : list nat :=
  match fuel with
  | 0 => seen
  | S fuel' =>
      if bool_decide (v ∈ seen) then seen
      else foldl (fun acc c => dfs_visit fuel' g c acc) (v :: seen)
                 (successors g v)
  end.

Definition dfs_preorder_nodes (g : DiGraph) (source : nat) : list nat :=
  rev (dfs_visit (S (length (nodes g))) g source []).

(** A graph as [add_node] and [add_edge] keep it: no node and no edge is
    listed twice, and every edge joins two nodes. *)
Record graph_wf (g : DiGraph) : Prop := {
  wf_nodes : NoDup (nodes g);
  wf_edges : NoDup (edges g);
  wf_ends : ∀ u v, (u, v) ∈ edges g → u ∈ nodes g ∧ v ∈ nodes g
}.

(** There is an edge from [u] to [v]. *)
Definition edge (g : DiGraph) (u v : nat) : Prop := (u, v) ∈ edges g.

(** Some node reaches itself along one or more edges. *)
Definition has_cycle (g : DiGraph) : Prop := ∃ v, tc (edge g) v v.

(** ** The surroundings of the engine *)

(** What the engine calls outside [pipeline.py]:
    [helpers.generate_random_string], as the sequence of strings it
    returns, and [CallerFacade.call_model], as the answer to the n-th
    call with the given provider, model name, client and prompt. *)
Record Env : Type := mkEnv {
  generate_random_string : nat -> string;
  call_model :
    nat -> option string -> option string -> option string -> value ->
    result value
}.

(** The state a method of an object of class [T] works on: the object,
    the [Context] it was handed, and how often the random generator and
    the model capability have been used. *)
Record Frame (T : Type) : Type := mkFrame {
  self : T;
  ctx : Ctx;
  rnd : nat;
  calls : nat
}.
Arguments mkFrame {T} self ctx rnd calls.
Arguments self {T} f.
Arguments ctx {T} f.
Arguments rnd {T} f.
Arguments calls {T} f.

Definition set_self {T} (f : T -> T) : M (Frame T) unit :=
  modify (fun fr => mkFrame (f (self fr)) (ctx fr) (rnd fr) (calls fr)).

(** [context.add(key, v)] *)
Definition ctx_add {T} (key : string) (v : value) : M (Frame T) unit :=
  modify (fun fr =>
    mkFrame (self fr) (Context_add key v (ctx fr)) (rnd fr) (calls fr)).

(** [context.get(key)] *)
Definition ctx_get {T} (key : string) : M (Frame T) value :=
  gets (fun fr => Context_get key (ctx fr)).

(** Run a method of an object [u] held by the current object. *)
Definition within {T U A} (u : U) (put : U -> T -> T) (m : M (Frame U) A)
  : M (Frame T) A :=
  fun fr =>
    let (r, fr') := m (mkFrame u (ctx fr) (rnd fr) (calls fr)) in
    (r, mkFrame (put (self fr') (self fr)) (ctx fr') (rnd fr') (calls fr')).

(** [item[key]] where [key] is an optional string attribute *)
Definition key_value (k : option string) : value :=
  match k with
  | Some s => VStr s
  | None => VNone
  end.

(** [re.findall(r'\{(\w+)\}', prompt)], read off the fields of the
    template: the names made of word characters.  A name the expression
    finds in the text outside a field (between doubled braces) only adds
    a default that [format] never looks up.  The word characters are
    those of ASCII; the expression also takes the letters and digits of
    other scripts, so a field name with such characters is outside the
    model (see [plain_name]). *)
Definition is_word_char (a : ascii) : bool :=
  let n := nat_of_ascii a in
  ((48 <=? n) && (n <=? 57) || (65 <=? n) && (n <=? 90)
   || (97 <=? n) && (n <=? 122) || (n =? 95))%nat.

Fixpoint is_word (s : string) : bool :=
  match s with
  | EmptyString => true
  | String a s' => is_word_char a && is_word s'
  end.

Definition _extract_variables (prompt : list piece) : list string :=
  omap (fun p =>
          match p with
          | Field (String a s) =>
              if is_word (String a s) then Some (String a s) else None
          | _ => None
          end) prompt.

(** [PromptStep.__init__] *)
Definition PromptStep_init (template : list piece)
    (variables : option (gmap string value))
    (input_key output_key : option string) : PromptStep :=
  let variables :=
    match variables with
    | Some vars => vars
    | None =>
        list_to_map ((fun var => (var, VNone)) <$> _extract_variables template)
    end in
  mkPromptStep input_key output_key template variables.

(** The replacement fields of [str.format].  A field name that is empty
    or made of decimal digits is positional: it stands for an index into
    the positional arguments.  Any other name is looked up among the
    keyword arguments. *)
Definition is_digit (a : ascii) : bool :=
  let n := nat_of_ascii a in ((48 <=? n) && (n <=? 57))%nat.

Fixpoint is_number (s : string) : bool :=
  match s with
  | EmptyString => true
  | String a s' => is_digit a && is_number s'
  end.

(** The index a name made of digits stands for, read from the left.  *)
Fixpoint index_from (acc : Z) (s : string) : Z :=
  match s with
  | EmptyString => acc
  | String a s' => index_from (acc * 10 + Z.of_nat (nat_of_ascii a - 48)) s'
  end.

(** [PY_SSIZE_T_MAX] of a 64-bit build *)
Definition PY_SSIZE_T_MAX : Z := 9223372036854775807.

(** The value of the field [name] when [str.format] is called with no
    positional arguments and with [vars] as keyword arguments.  A
    positional field finds no argument ([IndexError]), unless its index
    is too large to be read at all ([ValueError]); an automatically
    numbered field [{}] stands for index 0. *)
Definition get_field (name : string) (vars : gmap string value)
  : result value :=
  if is_number name then
    if bool_decide (index_from 0 name ≤ PY_SSIZE_T_MAX)%Z then
      inr (IndexError
             ("Replacement index " +:+ pretty (index_from 0 name)
              +:+ " out of range for positional args tuple"))
    else inr (ValueError "Too many decimal digits in format string")
  else
    match vars !! name with
    | None => inr (KeyError (VStr name))
    | Some v => inl v
    end.

(** [str.format] with [vars] unpacked as keyword arguments: the fields
    are filled in from left to right, and the first that fails ends the
    call. *)
Fixpoint format (template : list piece) (vars : gmap string value)
  : result string :=
  match template with
  | [] => inl EmptyString
  | Lit text :: rest =>
      match format rest vars with
      | inl s => inl (text +:+ s)
      | inr e => inr e
      end
  | Field name :: rest =>
      match get_field name vars with
      | inr e => inr e
      | inl v =>
          match format rest vars with
          | inl s => inl (py_str v +:+ s)
          | inr e => inr e
          end
      end
  end.

(** [next(self._iterator)]: the next record, or [None] for
    [StopIteration].  The iterator of a generator is the generator
    itself, so what it yields is gone from the dataset too. *)
Definition next_item : M (Frame DatasetStep) (option record) :=
  fun fr =>
    let s := self fr in
    match _iterator s with
    | Some (item :: rest) =>
        let dataset' :=
          match d_dataset s with
          | Sequence items => Sequence items
          | Generator _ => Generator rest
          end in
        (Ok (Some item),
         mkFrame (mkDatasetStep (d_input_key s) (d_output_key s) dataset'
                    (target s) (target_type s) (Some rest))
                 (ctx fr) (rnd fr) (calls fr))
    | _ => (Ok None, fr)
    end.

(** [DatasetStep._ensure_iterator] *)
Definition _ensure_iterator : M (Frame DatasetStep) unit :=
  set_self (fun s =>
    match _iterator s with
    | None =>
        mkDatasetStep (d_input_key s) (d_output_key s) (d_dataset s)
          (target s) (target_type s) (Some (dataset_items (d_dataset s)))
    | Some _ => s
    end).

(** [self._iterator = None] *)
Definition reset_iterator : M (Frame DatasetStep) unit :=
  set_self (fun s =>
    mkDatasetStep (d_input_key s) (d_output_key s) (d_dataset s)
      (target s) (target_type s) None).

Section Engine.

Variable E : Env.

(** [helpers.generate_random_string()] *)
Definition random_string {T} : M (Frame T) string :=
  fun fr =>
    (Ok (generate_random_string E (rnd fr)),
     mkFrame (self fr) (ctx fr) (S (rnd fr)) (calls fr)).

(** [Step.get_input_key] *)
Definition get_input_key {T} `{StepLike T} : M (Frame T) string :=
  s ← gets self;
  match input_key s with
  | Some (String a k) => mret (String a k)
  | _ =>
      k ← random_string;
      set_self (set_input_key (Some k)) ;;
      mret k
  end.

(** [Step.get_output_key] *)
Definition get_output_key {T} `{StepLike T} : M (Frame T) string :=
  s ← gets self;
  match output_key s with
  | Some (String a k) => mret (String a k)
  | _ =>
      k ← random_string;
      set_self (set_output_key (Some k)) ;;
      mret k
  end.

(** [PromptStep.execute] (lines 63-67) *)
Definition PromptStep_execute : M (Frame PromptStep) string :=
  s ← gets self;
  context ← gets ctx;
  let combined_vars := context ∪ variables s in
  formatted_prompt ← lift (format (template s) combined_vars);
  key ← get_output_key;
  ctx_add key (VStr formatted_prompt) ;;
  mret formatted_prompt.

(** [CallerFacade.call_model(provider, model_name, client, input_text)] *)
Definition invoke_model (s : ModelStep) (input_text : value)
  : M (Frame ModelStep) value :=
  fun fr =>
    let r := call_model E (calls fr) (provider s) (model_name s) (client s)
               input_text in
    lift r (mkFrame (self fr) (ctx fr) (rnd fr) (S (calls fr))).

(** [ModelStep.execute] (lines 77-85) *)
Definition ModelStep_execute : M (Frame ModelStep) value :=
  s ← gets self;
  input_text ←
    match prompt_step s with
    | Some p =>
        text ← within p
          (fun p' m =>
             mkModelStep (m_input_key m) (m_output_key m) (provider m)
               (model_name m) (client m) (Some p'))
          PromptStep_execute;
        mret (VStr text)
    | None =>
        key ← get_input_key;
        ctx_get key
    end;
  result ← invoke_model s input_text;
  key ← get_output_key;
  ctx_add key result ;;
  mret result.

(** [ApplyStep.execute] (lines 92-96) *)
Definition ApplyStep_execute : M (Frame ApplyStep) value :=
  key ← get_input_key;
  input_value ← ctx_get key;
  s ← gets self;
  result ← lift (func s input_value);
  key ← get_output_key;
  ctx_add key result ;;
  mret result.

(** The [target] block of [DatasetStep.execute] (lines 117-124) *)
Definition store_target (s : DatasetStep) (item : record)
  : M (Frame DatasetStep) unit :=
  match target s with
  | Some (String a t) =>
      let target := String a t in
      if bool_decide (target_type s = Some "indirect") then
        target_selection ← lift (getitem item (VStr target));
        v ← lift (getitem item target_selection);
        ctx_add target v
      else if bool_decide (target_type s = Some "direct") then
        v ← lift (getitem item (VStr target));
        ctx_add target v
      else
        raise (ValueError
                 ("Invalid target_type of "
                  +:+ py_str (key_value (target_type s))
                  +:+ ". Must be one of 'indirect' or 'direct'."))
  | _ => mret tt
  end.

(** The [input_key] and [output_key] blocks (lines 125-128): both store
    [item[self.input_key]]. *)
Definition store_keys (s : DatasetStep) (item : record)
  : M (Frame DatasetStep) unit :=
  match input_key s with
  | Some (String a k) =>
      v ← lift (getitem item (key_value (input_key s)));
      ctx_add (String a k) v
  | _ => mret tt
  end ;;
  match output_key s with
  | Some (String a k) =>
      v ← lift (getitem item (key_value (input_key s)));
      ctx_add (String a k) v
  | _ => mret tt
  end.

(** [DatasetStep.execute] (lines 112-132).  Only [StopIteration] is
    caught; it can only come from [next]. *)
Definition DatasetStep_execute : M (Frame DatasetStep) retval :=
  _ensure_iterator ;;
  fetched ← next_item;
  match fetched with
  | Some item =>
      s ← gets self;
      store_target s item ;;
      store_keys s item ;;
      mret (RRecord item)
  | None =>
      reset_iterator ;;
      mret (RVal VNone)
  end.

(** [step.execute(context)], dispatched on the class of the step *)
Definition Step_execute : M (Frame Step) retval :=
  s ← gets self;
  match s with
  | Prompt p =>
      text ← within p (fun p' _ => Prompt p') PromptStep_execute;
      mret (RVal (VStr text))
  | Model m =>
      v ← within m (fun m' _ => Model m') ModelStep_execute;
      mret (RVal v)
  | Apply a =>
      v ← within a (fun a' _ => Apply a') ApplyStep_execute;
      mret (RVal v)
  | Source d => within d (fun d' _ => Source d') DatasetStep_execute
  end.

End Engine.

(** ** Pipeline (pipeline.py, lines 134-196) *)

(** What [Pipeline.execute] returns: the list of per-record results, or
    the single value read back from the [Context]. *)
Inductive output : Type :=
  | OList (results : list value)
  | OValue (v : value).

(** The objects a run works on: the store of step objects, the
    attributes of the [Pipeline], the progress bar (its total and its
    count, once one was opened), and the use made of the surroundings. *)
Record State : Type := mkState {
  steps : nat -> Step;
  allocated : nat;
  graph : DiGraph;
  context : Ctx;
  previous_step : option nat;
  pbar : option (nat * nat);
  rnd_used : nat;
  calls_made : nat
}.

(** [Pipeline.__init__], in a store of step objects *)
Definition Pipeline_init (store : nat -> Step) (allocated : nat) : State :=
  mkState store allocated empty_graph ∅ None None 0 0.

Definition set_graph (f : DiGraph -> DiGraph) (st : State) : State :=
  mkState (steps st) (allocated st) (f (graph st)) (context st)
    (previous_step st) (pbar st) (rnd_used st) (calls_made st).

Definition set_context (f : Ctx -> Ctx) (st : State) : State :=
  mkState (steps st) (allocated st) (graph st) (f (context st))
    (previous_step st) (pbar st) (rnd_used st) (calls_made st).

Definition set_previous_step (p : option nat) (st : State) : State :=
  mkState (steps st) (allocated st) (graph st) (context st) p (pbar st)
    (rnd_used st) (calls_made st).

Definition set_pbar (f : option (nat * nat) -> option (nat * nat))
    (st : State) : State :=
  mkState (steps st) (allocated st) (graph st) (context st)
    (previous_step st) (f (pbar st)) (rnd_used st) (calls_made st).

(** Call a method of the step object at address [n], handing it
    [self.context]. *)
Definition on_step {A} (n : nat) (m : M (Frame Step) A) : M State A :=
  fun st =>
    let (r, fr) :=
      m (mkFrame (steps st n) (context st) (rnd_used st) (calls_made st)) in
    (r, mkState (<[n := self fr]> (steps st)) (allocated st) (graph st)
          (ctx fr) (previous_step st) (pbar st) (rnd fr) (calls fr)).

(** A new step object; its address is returned. *)
Definition new_step (s : Step) : M State nat :=
  fun st =>
    (Ok (allocated st),
     mkState (<[allocated st := s]> (steps st)) (S (allocated st)) (graph st)
       (context st) (previous_step st) (pbar st) (rnd_used st)
       (calls_made st)).

(** [Pipeline.add_step] (lines 143-147) *)
Definition Pipeline_add_step (step : nat) : M State unit :=
  modify (set_graph (add_node step)) ;;
  prev ← gets previous_step;
  match prev with
  | Some p => modify (set_graph (add_edge p step))
  | None => mret tt
  end ;;
  modify (set_previous_step (Some step)).

(** The records a [DatasetStep] has still to yield. *)
Definition remaining (d : DatasetStep) : list record :=
  match _iterator d with
  | Some rest => rest
  | None => dataset_items (d_dataset d)
  end.

Section Executor.

Variable E : Env.

(** The loop of [Pipeline._execute_step] (lines 187-190): the output of
    every predecessor is put under the input key of the step. *)
Definition wire_inputs (step : nat) : M State unit :=
  g ← gets graph;
  for_each (predecessors g step) (fun pred =>
    key ← on_step pred (get_output_key E);
    input_data ← gets (fun st => Context_get key (context st));
    key ← on_step step (get_input_key E);
    modify (set_context (Context_add key input_data))).

(** [Pipeline._execute_step] (lines 186-191) *)
Definition _execute_step (step : nat) : M State unit :=
  wire_inputs step ;;
  on_step step (Step_execute E) ;;
  mret tt.

(** [self.context.get(self.previous_step.get_output_key())] when there is
    a previous step *)
Definition read_result : M State (option value) :=
  prev ← gets previous_step;
  match prev with
  | Some p =>
      key ← on_step p (get_output_key E);
      v ← gets (fun st => Context_get key (context st));
      mret (Some v)
  | None => mret None
  end.

(** [Pipeline._execute_from] (lines 178-184); without a previous step the
    method returns [None]. *)
Definition _execute_from (start_step : nat) : M State value :=
  g ← gets graph;
  for_each (dfs_preorder_nodes g start_step) (fun step =>
    if bool_decide (step ≠ start_step) then _execute_step step
    else mret tt) ;;
  r ← read_result;
  mret (default VNone r).

(** The [while True] loop of dataset-replay mode (lines 160-169) *)
Fixpoint replay (fuel : nat) (first_step : nat) (results : list value)
  : M State (list value) :=
  match fuel with
  | 0 => unfinished
  | S fuel' =>
      item ← on_step first_step (Step_execute E);
      if ret_is_None item then mret results
      else
        sub_result ← _execute_from first_step;
        let results :=
          if is_None sub_result then results
          else results ++ [sub_result] in
        modify (set_context Context_clear) ;;
        modify (set_pbar (fmap (fun p => (p.1, S p.2)))) ;;
        replay fuel' first_step results
  end.

(** Single-pass mode (lines 172-176) *)
Definition single_pass (steps : list nat) : M State output :=
  for_each steps _execute_step ;;
  r ← read_result;
  match r with
  | Some v => mret (OValue v)
  | None => mret (OList [])
  end.

(** [Pipeline.execute] (lines 149-176).  The replay loop runs once per
    record left in the dataset, and once more to find it exhausted. *)
Definition Pipeline_execute (initial_context : option Ctx) : M State output :=
  modify (set_context (fun _ => Context_init initial_context)) ;;
  g ← gets graph;
  steps_ ← (fun st => (topological_sort g, st));
  first_step ← gets (fun st => (fun n => (n, steps st n)) <$> head steps_);
  match first_step with
  | Some (first, Source d) =>
      total ← lift (len (d_dataset d));
      modify (set_pbar (fun _ => Some (total, 0))) ;;
      results ← replay (S (length (remaining d))) first [];
      mret (OList results)
  | _ => single_pass steps_
  end.

End Executor.

(** ** PipelineBuilder (pipeline.py, lines 198-221) *)

(** [ModelStep.__init__]: an inline prompt becomes a [PromptStep] of its
    own unless it is the empty string. *)
Definition ModelStep_init (provider model_name : option string)
    (prompt : option (list piece)) (client input_key output_key : option string)
  : ModelStep :=
  let is_empty p :=
    forallb (fun x => match x with Lit EmptyString => true | _ => false end) p in
  let prompt_step :=
    match prompt with
    | Some p =>
        if is_empty p then None else Some (PromptStep_init p None None None)
    | None => None
    end in
  mkModelStep input_key output_key provider model_name client prompt_step.

(** [DatasetStep.__init__] *)
Definition DatasetStep_init (dataset : dataset)
    (input_key output_key target target_type : option string) : DatasetStep :=
  mkDatasetStep input_key output_key dataset target target_type None.

(** [PipelineBuilder._add_step] on a newly made step *)
Definition Builder_add_step (s : Step) : M State unit :=
  n ← new_step s;
  Pipeline_add_step n.

Definition using_dataset (dataset : dataset)
    (input_key output_key target target_type : option string) : M State unit :=
  Builder_add_step
    (Source (DatasetStep_init dataset input_key output_key target target_type)).

Definition with_prompt (template : list piece)
    (variables : option (gmap string value))
    (input_key output_key : option string) : M State unit :=
  Builder_add_step
    (Prompt (PromptStep_init template variables input_key output_key)).

Definition builder_call_model (provider model_name : option string)
    (prompt : option (list piece)) (client input_key output_key : option string)
  : M State unit :=
  Builder_add_step
    (Model (ModelStep_init provider model_name prompt client input_key
              output_key)).

Definition builder_apply (func : value -> result value)
    (input_key output_key : option string) : M State unit :=
  Builder_add_step (Apply (mkApplyStep input_key output_key func)).

(** A call of one of the step-adding methods of a [PipelineBuilder],
    with its arguments. *)
Inductive builder_call : Type :=
  | UsingDataset (dataset : dataset)
      (input_key output_key target target_type : option string)
  | WithPrompt (template : list piece) (variables : option (gmap string value))
      (input_key output_key : option string)
  | CallModel (provider model_name : option string)
      (prompt : option (list piece)) (client input_key output_key : option string)
  | ApplyFunc (func : value -> result value)
      (input_key output_key : option string).

(** The step object the call makes. *)
Definition made (c : builder_call) : Step :=
  match c with
  | UsingDataset ds ik ok tg ty => Source (DatasetStep_init ds ik ok tg ty)
  | WithPrompt t vars ik ok => Prompt (PromptStep_init t vars ik ok)
  | CallModel pr mn p cl ik ok => Model (ModelStep_init pr mn p cl ik ok)
  | ApplyFunc f ik ok => Apply (mkApplyStep ik ok f)
  end.

Definition builder_run (c : builder_call) : M State unit :=
  match c with
  | UsingDataset ds ik ok tg ty => using_dataset ds ik ok tg ty
  | WithPrompt t vars ik ok => with_prompt t vars ik ok
  | CallModel pr mn p cl ik ok => builder_call_model pr mn p cl ik ok
  | ApplyFunc f ik ok => builder_apply f ik ok
  end.

(** [PipelineBuilder().m1(...).m2(...) ... .build()]: the calls made on
    a new builder, in order. *)
Definition build (calls : list builder_call) : M State unit :=
  for_each calls builder_run.

(** ** What the spec says a Template step produces *)

(** The value a placeholder resolves to: the one in the Context, else
    the declared default. *)
Definition resolve (c : Ctx) (defaults : gmap string value) (name : string)
  : option value :=
  match c !! name with
  | Some v => Some v
  | None => defaults !! name
  end.

(** The text a value is shown as in a formatted string: [None] as the
    word [None], a string as it is, an integer in decimal. *)
Definition shown (v : value) : string :=
  match v with
  | VNone => "None"
  | VStr s => s
  | VInt z => pretty z
  end.

(** The template with every placeholder replaced by the text of the
    value it resolves to. *)
Definition substitute (c : Ctx) (defaults : gmap string value)
    (template : list piece) : string :=
  foldr (fun p text =>
           match p with
           | Lit s => s +:+ text
           | Field name =>
               match resolve c defaults name with
               | Some v => shown v +:+ text
               | None => text
               end
           end) EmptyString template.

(** ** Auxiliary notions used in the statements *)

(** The step after it has handed out a record, [rest] being left. *)
Definition advanced (s : DatasetStep) (rest : list record) : DatasetStep :=
  mkDatasetStep (d_input_key s) (d_output_key s)
    match d_dataset s with
    | Sequence items => Sequence items
    | Generator _ => Generator rest
    end
    (target s) (target_type s) (Some rest).

(** A Source step with target [t], handed [item], stores [v] under
    [t], and the key blocks (lines 125-128) run on the Context so left.
    When [t] is neither the input key nor the output key of the step, a
    run that returns leaves [v] under [t], and the Context is the old
    one with that entry, changed further at most under the two keys;
    with neither key set the step returns the record and leaves exactly
    that Context.  When [t] is also the input key or the output key, a
    run that returns leaves under [t] what the key blocks store: the
    field of the record named by the input key.  The step returns
    whenever the record has that field. *)
Definition target_stored (s : DatasetStep) (item : record)
    (rest : list record) (c : Ctx) (r n : nat) (t : string) (v : value)
  : Prop :=
  DatasetStep_execute (mkFrame s c r n)
  = (store_keys (advanced s rest) item ;; mret (RRecord item))
      (mkFrame (advanced s rest) (<[t := v]> c) r n)
  ∧ (input_key s ≠ Some t → output_key s ≠ Some t →
     ∀ ret fr,
       DatasetStep_execute (mkFrame s c r n) = (Ok ret, fr) →
       ret = RRecord item ∧ ctx fr !! t = Some v
       ∧ ∀ k, input_key s ≠ Some k → output_key s ≠ Some k →
              ctx fr !! k = <[t := v]> c !! k)
  ∧ (truthy (input_key s) = false → truthy (output_key s) = false →
     DatasetStep_execute (mkFrame s c r n)
     = (Ok (RRecord item), mkFrame (advanced s rest) (<[t := v]> c) r n))
  ∧ (input_key s = Some t ∨ output_key s = Some t →
     ∀ ret fr,
       DatasetStep_execute (mkFrame s c r n) = (Ok ret, fr) →
       ctx fr !! t = item !! key_value (input_key s))
  ∧ (is_Some (item !! key_value (input_key s)) →
     ∃ fr, DatasetStep_execute (mkFrame s c r n) = (Ok (RRecord item), fr)).

(** ** Sample surroundings, steps and pipelines *)

(** Surroundings whose random strings are [k0], [k1], ... and whose model
    echoes the prompt. *)
Definition sample_env : Env :=
  mkEnv (fun n => "k" +:+ pretty n) (fun _ _ _ _ prompt => inl prompt).

Definition upper_char (a : ascii) : ascii :=
  let n := nat_of_ascii a in
  if ((97 <=? n) && (n <=? 122))%nat then ascii_of_nat (n - 32) else a.

Fixpoint upper (s : string) : string :=
  match s with
  | EmptyString => EmptyString
  | String a s' => String (upper_char a) (upper s')
  end.

(** [lambda s: s.upper()] *)
Definition uppercase (v : value) : result value :=
  match v with
  | VStr s => inl (VStr (upper s))
  | _ => inr (Exception "AttributeError: no attribute 'upper'")
  end.

(** [lambda s: s.upper() if s == "a" else None] *)
Definition uppercase_a_only (v : value) : result value :=
  match v with
  | VStr "a" => inl (VStr "A")
  | _ => inl VNone
  end.

Definition identity_step : Step :=
  Apply (mkApplyStep None None (fun v => inl v)).

Definition empty_store : nat -> Step := fun _ => identity_step.

(** The state a chain of builder calls leaves behind. *)
Definition built (calls : M State unit) : State :=
  (calls (Pipeline_init empty_store 0)).2.

(** [[{"q": "a"}, {"q": "b"}]] *)
Definition qa_records : list record :=
  [ {[ VStr "q" := VStr "a" ]}; {[ VStr "q" := VStr "b" ]} ].

(** [{"route": "dest", "dest": 42}] *)
Definition route_record : record :=
  <[ VStr "route" := VStr "dest" ]> {[ VStr "dest" := VInt 42 ]}.

(** A Context holding [a -> 1], and one holding [name -> Ada]. *)
Definition one_entry : Ctx := {[ "a" := VInt 1 ]}.

Definition ada : Ctx := {[ "name" := VStr "Ada" ]}.

(** [PromptStep("Hello {name}", output_key="greeting")], and the same
    step given an empty variable map. *)
Definition hello : list piece := [Lit "Hello "; Field "name"].

Definition hello_step : PromptStep :=
  PromptStep_init hello None None (Some "greeting").

Definition hello_step_bare : PromptStep :=
  PromptStep_init hello (Some ∅) None (Some "greeting").

(** A Context holding [name -> 7]. *)
Definition seven : Ctx := {[ "name" := VInt 7 ]}.

(** [PromptStep("x={0}", variables={"0": "zero"}, output_key="out")] *)
Definition numbered_step : PromptStep :=
  PromptStep_init [Lit "x="; Field "0"] (Some {[ "0" := VStr "zero" ]}) None
    (Some "out").

(** [DatasetStep([{"route": "dest", "dest": 42}], target="route",
    target_type="indirect")] and its direct twin. *)
Definition route_indirect : DatasetStep :=
  DatasetStep_init (Sequence [route_record]) None None (Some "route")
    (Some "indirect").

Definition route_direct : DatasetStep :=
  DatasetStep_init (Sequence [route_record]) None None (Some "route")
    (Some "direct").

(** The same source with [target_type] left unset, and one that also
    sets an output key but no input key. *)
Definition route_untyped : DatasetStep :=
  DatasetStep_init (Sequence [route_record]) None None (Some "route") None.

Definition route_untyped_out : DatasetStep :=
  DatasetStep_init (Sequence [route_record]) None (Some "out") (Some "route")
    None.

(** The indirect source with [input_key="route"], the target itself,
    and with [input_key="dest"]. *)
Definition route_keyed : DatasetStep :=
  DatasetStep_init (Sequence [route_record]) (Some "route") None
    (Some "route") (Some "indirect").

Definition route_dest_keyed : DatasetStep :=
  DatasetStep_init (Sequence [route_record]) (Some "dest") None
    (Some "route") (Some "indirect").

(** [DatasetStep([{"route": "dest", "dest": 42}], output_key="out")] *)
Definition source_out_only : DatasetStep :=
  DatasetStep_init (Sequence [route_record]) None (Some "out") None None.

(** [PipelineBuilder().with_prompt("Hello {name}", output_key="greeting")] *)
Definition hello_pipeline : State :=
  built (with_prompt hello None None (Some "greeting")).

(** [using_dataset(records, input_key="q", output_key="q")] followed by
    [apply(func, input_key="q", output_key="out")] *)
Definition qa_pipeline (records : dataset) (func : value -> result value)
  : State :=
  built (using_dataset records (Some "q") (Some "q") None None ;;
         builder_apply func (Some "q") (Some "out")).

(** Steps [A] and [B] added as [A], [B], [A]: the edges are [A -> B] and
    [B -> A]. *)
Definition cyclic_pipeline : State :=
  built (a ← new_step identity_step;
         b ← new_step identity_step;
         Pipeline_add_step a ;;
         Pipeline_add_step b ;;
         Pipeline_add_step a).

(** The pipeline of the spec's scenario, upper-casing every record; the
    same pipeline with a function that returns [None] for every record
    but [a]; and one whose second record holds a number, on which
    upper-casing raises. *)
Definition qa_upper : State := qa_pipeline (Sequence qa_records) uppercase.

Definition qa_filtering : State :=
  qa_pipeline (Sequence qa_records) uppercase_a_only.

Definition mixed_records : list record :=
  [ {[ VStr "q" := VStr "a" ]}; {[ VStr "q" := VInt 5 ]} ].

Definition qa_mixed : State := qa_pipeline (Sequence mixed_records) uppercase.

(** The Source step these pipelines start with. *)
Definition qa_source (records : list record) : DatasetStep :=
  DatasetStep_init (Sequence records) (Some "q") (Some "q") None None.

(** [with_prompt("Hello {name}", variables={}, output_key="greeting")] *)
Definition bare_pipeline : State :=
  built (with_prompt hello (Some ∅) None (Some "greeting")).

(** [using_dataset(records, target="q", target_type="direct")] followed
    by [apply(func, input_key="text", output_key="out")]: the Source step
    is given no input and no output key. *)
Definition target_only_pipeline : State :=
  built (using_dataset (Sequence qa_records) None None (Some "q")
           (Some "direct") ;;
         builder_apply (fun v => inl v) (Some "text") (Some "out")).

(** The scenario's pipeline over the single record [{"q": 5}]. *)
Definition qa_number : State :=
  qa_pipeline (Sequence [ {[ VStr "q" := VInt 5 ]} ]) uppercase.

(** The scenario's pipeline over [[{"q": 5}, {"q": "b"}]], as a first
    run leaves it: upper-casing raised on the first record, and the
    cursor of the Source step stands at the second. *)
Definition number_first : list record :=
  [ {[ VStr "q" := VInt 5 ]}; {[ VStr "q" := VStr "b" ]} ].

Definition qa_aborted : State :=
  (Pipeline_execute sample_env None
     (qa_pipeline (Sequence number_first) uppercase)).2.

(** ** Notions used in the proofs *)

Ltac unfold_monad :=
  unfold mbind, M_bind, mret, M_ret, gets, modify, lift, raise, set_self,
    ctx_add, ctx_get, random_string in *.

(** The key that [get_output_key] (or [get_input_key]) returns for the
    attribute [k] in a frame that has drawn [r] random strings. *)
Definition key_in (E : Env) (k : option string) (r : nat) : string :=
  match k with
  | Some (String a s) => String a s
  | _ => generate_random_string E r
  end.

(** The cursor of a Source step: its dataset and its iterator. *)
Definition cursor (s : Step) : option (dataset * option (list record)) :=
  match s with
  | Source d => Some (d_dataset d, _iterator d)
  | _ => None
  end.

(** [st'] has the graph, the tail and the progress bar of [st], and the
    step at [first], if one is named, has kept its cursor. *)
Record settled (first : option nat) (st st' : State) : Prop := {
  settled_graph : graph st' = graph st;
  settled_previous : previous_step st' = previous_step st;
  settled_pbar : pbar st' = pbar st;
  settled_cursor :
    ∀ f, first = Some f → cursor (steps st' f) = cursor (steps st f)
}.

(** A computation that, whatever its outcome, leaves the state settled. *)
Definition settles {A} (first : option nat) (m : M State A) : Prop :=
  ∀ st, settled first st (m st).2.


(** The predecessors of [v] that are not among the nodes [done]. *)
Definition pending_preds (g : DiGraph) (done : list nat) (v : nat) : nat :=
  length (filter (fun u => u ∉ done) (predecessors g v)).

(** The in-degree map [m] records the counts [k]: no entry at zero. *)
Definition counts_ok (k : nat -> nat) (m : gmap nat Z) : Prop :=
  ∀ v, m !! v = if decide (k v = 0) then None else Some (Z.of_nat (k v)).

Definition on_cycle (g : DiGraph) (v : nat) : Prop := tc (edge g) v v.

(** The invariant of Kahn's algorithm: [done] are the nodes already
    handled, [pending] the nodes found to have no unhandled predecessor
    and waiting their turn, [m] the in-degree map. *)
Record kahn_inv (g : DiGraph) (done pending : list nat) (m : gmap nat Z)
  : Prop := {
  kahn_counts : counts_ok (pending_preds g done) m;
  kahn_nodup : NoDup (done ++ pending);
  kahn_seen :
    ∀ v, v ∈ done ++ pending ↔ v ∈ nodes g ∧ pending_preds g done v = 0;
  kahn_acyclic : ∀ v, v ∈ done ++ pending → ¬ on_cycle g v
}.

(** A computation that never stops short of its end. *)
Definition finishes {S A} (m : M S A) : Prop :=
  ∀ s, (m s).1 ≠ Unfinished.

(** The end of an iteration of the replay loop (lines 167-169): the
    Context is cleared and the progress bar moves on. *)
Definition after_pass (st : State) : State :=
  set_pbar (fmap (fun p => (p.1, S p.2))) (set_context Context_clear st).

(** The start of the replay loop: a fresh Context and a progress bar. *)
Definition replay_start (ic : option Ctx) (total : nat) (st : State) : State :=
  set_pbar (fun _ => Some (total, 0))
    (set_context (fun _ => Context_init ic) st).

(** What is noted of one pass of the replay loop: the Context the pass
    started from, the record the Source step handed out, and the result
    of the sub-traversal. *)
Record pass : Type := mkPass {
  pass_context : Ctx;
  pass_record : record;
  pass_result : value
}.

(** [passes E first st trace st']: from [st], the replay loop completes
    the passes of [trace], one after the other, and stands at [st']
    before the next call of the Source step. *)
Inductive passes (E : Env) (first : nat)
  : State -> list pass -> State -> Prop :=
  | passes_done st : passes E first st [] st
  | passes_next st st1 st2 st3 item sub trace :
      on_step first (Step_execute E) st = (Ok (RRecord item), st1) ->
      _execute_from E first st1 = (Ok sub, st2) ->
      passes E first (after_pass st2) trace st3 ->
      passes E first st (mkPass (context st) item sub :: trace) st3.

(** The next pass, started at [st], raises [e]: in the Source step, or in
    the sub-traversal. *)
Definition pass_raises (E : Env) (first : nat) (st : State) (e : exn)
    (st' : State) : Prop :=
  on_step first (Step_execute E) st = (Raise e, st')
  ∨ ∃ item st1,
      on_step first (Step_execute E) st = (Ok (RRecord item), st1)
      ∧ _execute_from E first st1 = (Raise e, st').

(** The results the replay loop keeps: those that are not [None]. *)
Definition kept (trace : list pass) : list value :=
  filter (fun v => is_None v = false) (pass_result <$> trace).

(** The nodes of the graph a depth-first search has not seen yet. *)
Definition unseen (g : DiGraph) (seen : list nat) : nat :=
  length (filter (fun v => v ∉ seen) (nodes g)).

(** ** Further notions: orders and chains *)

(** In [order], the source of every edge stands before its target. *)
Definition respects (g : DiGraph) (order : list nat) : Prop :=
  ∀ i v, order !! i = Some v →
         ∀ u, (u, v) ∈ edges g → ∃ j, j < i ∧ order !! j = Some u.

(** The edges [add_step] makes of steps added one after the other. *)
Fixpoint chain_edges (ns : list nat) : list (nat * nat) :=
  match ns with
  | a :: (b :: _) as rest => (a, b) :: chain_edges rest
  | _ => []
  end.

Definition chain_graph (ns : list nat) : DiGraph :=
  mkDiGraph ns (chain_edges ns).

(** The random strings are never empty, as those of
    [helpers.generate_random_string] with its default length. *)
Definition draws_keys (E : Env) : Prop :=
  ∀ n, generate_random_string E n ≠ EmptyString.

(** The count of random strings drawn once the attribute [k] was asked
    for in a frame that had drawn [r]. *)
Definition drawn (k : option string) (r : nat) : nat :=
  if truthy k then r else S r.

(** The object once its input key, or its output key, was asked for. *)
Definition keyed_in {T} `{StepLike T} (E : Env) (r : nat) (s : T) : T :=
  if truthy (input_key s) then s
  else set_input_key (Some (generate_random_string E r)) s.

Definition keyed_out {T} `{StepLike T} (E : Env) (r : nat) (s : T) : T :=
  if truthy (output_key s) then s
  else set_output_key (Some (generate_random_string E r)) s.

(** A field name that [str.format] looks up among the keyword arguments
    and that the expression of [_extract_variables] finds: word
    characters, not all of them digits. *)
Definition keyword_name (name : string) : bool :=
  is_word name && negb (is_number name).

(** The iterator of a generator is the generator itself: what the
    iterator has left is what the dataset has left. *)
Definition one_shot (s : DatasetStep) : Prop :=
  match d_dataset s, _iterator s with
  | Generator items, Some rest => items = rest
  | _, _ => True
  end.

(** A step that maps the one value under its input key to the value it
    writes under its output key: an [ApplyStep], or a [ModelStep]
    without a prompt. *)
Definition unary (s : Step) : bool :=
  match s with
  | Apply _ => true
  | Model m => match prompt_step m with None => true | Some _ => false end
  | _ => false
  end.

(** What a unary step makes of [v] when the model capability has been
    called [n] times, and the number of calls after it. *)
Definition step_apply (E : Env) (s : Step) (n : nat) (v : value)
  : result value * nat :=
  match s with
  | Apply a => (func a v, n)
  | Model m => (call_model E n (provider m) (model_name m) (client m) v, S n)
  | _ => (inl v, n)
  end.

(** The steps [ss] applied one after the other, each to the result of
    the one before, up to the first that raises. *)
Fixpoint run_steps (E : Env) (ss : list Step) (n : nat) (v : value)
  : result value * nat :=
  match ss with
  | [] => (inl v, n)
  | s :: ss' =>
      match step_apply E s n v with
      | (inl w, n') => run_steps E ss' n' w
      | (inr e, n') => (inr e, n')
      end
  end.

(** Where a run over a chain of unary steps stands after the step at
    [p]: the output key of that step is set and the Context holds [v]
    under it, the model capability has been called [n] times, and every
    step does the work it did in [st0]. *)
Record chain_inv (E : Env) (st0 st1 : State) (p : nat) (v : value) (n : nat)
  : Prop := {
  ci_graph : graph st1 = graph st0;
  ci_previous : previous_step st1 = previous_step st0;
  ci_key : ∃ ko, output_key (steps st1 p) = Some ko
                 ∧ truthy (Some ko) = true
                 ∧ Context_get ko (context st1) = v;
  ci_work : ∀ m, unary (steps st1 m) = unary (steps st0 m)
                 ∧ ∀ k w, step_apply E (steps st1 m) k w
                          = step_apply E (steps st0 m) k w;
  ci_calls : calls_made st1 = n
}.

(** The results of dataset-replay mode over a chain of unary steps
    [ss]: the field [ki] of every record is put through the steps, the
    results that are [None] are left out, and the first failure ends the
    run.  [n] counts the calls of the model capability. *)
Fixpoint replay_results (E : Env) (ss : list Step) (ki : string)
    (items : list record) (n : nat) : result (list value) :=
  match items with
  | [] => inl []
  | item :: items' =>
      match getitem item (VStr ki) with
      | inr e => inr e
      | inl v =>
          match run_steps E ss n v with
          | (inr e, _) => inr e
          | (inl w, n') =>
              match replay_results E ss ki items' n' with
              | inr e => inr e
              | inl ws => inl (if is_None w then ws else w :: ws)
              end
          end
      end
  end.

(** Where the replay loop stands between two records: the pipeline is
    as in [st0] and every step does the work it did there. *)
Record pass_inv (E : Env) (st0 st1 : State) : Prop := {
  pi_graph : graph st1 = graph st0;
  pi_previous : previous_step st1 = previous_step st0;
  pi_work : ∀ m, unary (steps st1 m) = unary (steps st0 m)
                 ∧ ∀ k w, step_apply E (steps st1 m) k w
                          = step_apply E (steps st0 m) k w
}.

(** ** The services behind a [ModelStep] (services/) *)

(** *** helpers.py *)

(** [string.ascii_letters] *)
Definition ascii_letters : string :=
  "abcdefghijklmnopqrstuvwxyzABCDEFGHIJKLMNOPQRSTUVWXYZ".

(** [secrets.choice(seq)]: the element at a random index below
    [len(seq)], the random number being [draw] reduced to that range;
    an empty sequence raises [IndexError]. *)
Definition secrets_choice (draw : nat) (seq : string) : result ascii :=
  match String.get (draw mod String.length seq) seq with
  | Some a => inl a
  | None => inr (Exception "IndexError: Cannot choose from an empty sequence")
  end.

(** [''.join(secrets.choice(characters) for _ in range(length))], the
    random numbers being [draws start], [draws (start + 1)], ... *)
Fixpoint join_choices (draws : nat -> nat) (start length : nat)
    (characters : string) : result string :=
  match length with
  | 0 => inl EmptyString
  | S length' =>
      match secrets_choice (draws start) characters with
      | inl a =>
          match join_choices draws (S start) length' characters with
          | inl s => inl (String a s)
          | inr e => inr e
          end
      | inr e => inr e
      end
  end.

(** [helpers.generate_random_string(length)] *)
Definition helpers_generate_random_string (draws : nat -> nat)
    (start length : nat) : result string :=
  join_choices draws start length ascii_letters.

(** The surroundings of the engine when its random strings are those of
    [helpers.generate_random_string()], with the default length of 10:
    the n-th string uses the ten random numbers from [10 * n] on. *)
Definition helpers_env (draws : nat -> nat)
    (model : nat -> option string -> option string -> option string ->
             value -> result value) : Env :=
  mkEnv (fun n =>
           match helpers_generate_random_string draws (10 * n) 10 with
           | inl s => s
           | inr _ => EmptyString
           end)
        model.

(** *** provider_manager.py *)

(** The attributes of a [Provider] that the caller reads.  Client
    objects and caller classes are given by their addresses. *)
Record Provider : Type := mkProvider {
  name : string;
  mappings : gmap string string;
  default_model : string;
  clients : gmap string nat;
  default_client : nat;
  model_caller : nat
}.

(** [ProviderManager.get_provider_by_name]: the first provider of that
    name, [None] without one. *)
Fixpoint get_provider_by_name (providers : list Provider)
    (provider_name : value) : option Provider :=
  match providers with
  | [] => None
  | provider :: rest =>
      if bool_decide (VStr (name provider) = provider_name) then Some provider
      else get_provider_by_name rest provider_name
  end.

(** [ProviderManager.get_default_provider], [default_provider] being the
    name the configuration holds. *)
Definition get_default_provider (providers : list Provider)
    (default_provider : value) : option Provider :=
  get_provider_by_name providers default_provider.

(** *** lm_caller.py *)

(** [arg in d] for a dictionary with string keys *)
Definition in_dict {A} (arg : value) (d : gmap string A) : bool :=
  match arg with
  | VStr s => bool_decide (is_Some (d !! s))
  | _ => false
  end.

(** [d[arg]] *)
Definition dict_getitem {A} (d : gmap string A) (arg : value) : result A :=
  match arg with
  | VStr s =>
      match d !! s with
      | Some a => inl a
      | None => inr (KeyError arg)
      end
  | _ => inr (KeyError arg)
  end.

(** Truthiness of a value *)
Definition value_truthy (v : value) : bool :=
  match v with
  | VNone => false
  | VStr s => negb (bool_decide (s = EmptyString))
  | VInt z => negb (bool_decide (z = 0%Z))
  end.

(** The local variables of [intelligent_parser] *)
Record parser_names : Type := mkNames {
  l_provider_name : value;
  l_client_name : value;
  l_model_name : value;
  l_prompt : value
}.

(** The body of [for arg in args] (lines 34-41) *)
Definition classify (providers : list Provider) (names : parser_names)
    (arg : value) : parser_names :=
  if existsb (fun provider => bool_decide (arg = VStr (name provider)))
       providers
  then mkNames arg (l_client_name names) (l_model_name names) (l_prompt names)
  else if existsb (fun provider => in_dict arg (mappings provider)) providers
  then mkNames (l_provider_name names) (l_client_name names) arg
         (l_prompt names)
  else if existsb (fun provider => in_dict arg (clients provider)) providers
  then mkNames (l_provider_name names) arg (l_model_name names)
         (l_prompt names)
  else mkNames (l_provider_name names) (l_client_name names)
         (l_model_name names) arg.

(** The condition of the second loop (line 44) *)
Definition matches (names : parser_names) (provider : Provider) : bool :=
  bool_decide (l_provider_name names = VStr (name provider))
  || in_dict (l_model_name names) (mappings provider)
  || in_dict (l_client_name names) (clients provider).

(** The keyword arguments handed to the caller *)
Record parsed_args : Type := mkParsed {
  arg_provider_name : string;
  arg_model_name : string;
  arg_client : nat;
  arg_prompt : value
}.

(** [LMCaller.intelligent_parser(args, kwargs)] (lines 25-57); the
    keyword arguments are not looked at. *)
Definition intelligent_parser (providers : list Provider)
    (default_provider : value) (args : list value)
  : result (nat * parsed_args) :=
  let current_provider := get_default_provider providers default_provider in
  let names :=
    foldl (classify providers)
      (mkNames VNone VNone VNone (VStr "Hello, my friend")) args in
  let current_provider :=
    foldl (fun current provider =>
             if matches names provider then Some provider else current)
      current_provider providers in
  match current_provider with
  | None => inr (ValueError "Could not determine provider.")
  | Some current_provider =>
      match
        (if value_truthy (l_model_name names)
         then dict_getitem (mappings current_provider) (l_model_name names)
         else inl (default_model current_provider))
      with
      | inr e => inr e
      | inl model =>
          match
            (if value_truthy (l_client_name names)
             then dict_getitem (clients current_provider)
                    (l_client_name names)
             else inl (default_client current_provider))
          with
          | inr e => inr e
          | inl client_ =>
              inl (model_caller current_provider,
                   mkParsed (name current_provider) model client_
                     (l_prompt names))
          end
      end
  end.

(** [CallerFacade.call_model(provider, model_name, client, input_text)]
    as a [ModelStep] calls it; [api] stands for the [call_model] of the
    caller classes, which send the prompt to the provider. *)
Definition CallerFacade_call_model (providers : list Provider)
    (default_provider : value)
    (api : nat -> parsed_args -> result value)
    (provider model_name client : option string) (input_text : value)
  : result value :=
  match intelligent_parser providers default_provider
          [key_value provider; key_value model_name; key_value client;
           input_text] with
  | inl (caller, kwargs) => api caller kwargs
  | inr e => inr e
  end.

(** *** configuration_manager.py *)

(** [str.lower] on the letters of the English alphabet *)
Definition lower_char (a : ascii) : ascii :=
  let n := nat_of_ascii a in
  if ((65 <=? n) && (n <=? 90))%nat then ascii_of_nat (n + 32) else a.

Fixpoint lower (s : string) : string :=
  match s with
  | EmptyString => EmptyString
  | String a s' => String (lower_char a) (lower s')
  end.

(** What [change_mapping] reads and writes of the class: the providers
    of the main configuration, and for every provider that has a
    configuration its [mappings] dictionary. *)
Record Config : Type := mkConfig {
  main_providers : list string;
  provider_configs : gmap string (gmap string string)
}.

Definition set_mappings (provider : string) (m : gmap string string)
    (cfg : Config) : Config :=
  mkConfig (main_providers cfg) (<[provider := m]> (provider_configs cfg)).

Definition valid_operations : list string := ["edit"; "add"; "delete"].

(** [del cls.provider_configs[provider]["mappings"][key]] inside
    [try ... except KeyError], which also catches the lookup of a
    provider without a configuration. *)
Definition delete_mapping (provider key : string) : M Config unit :=
  cfg ← gets provider_configs;
  match cfg !! provider with
  | Some m =>
      if bool_decide (is_Some (m !! key))
      then modify (set_mappings provider (delete key m))
      else raise (KeyError (VStr ("Friendly name " +:+ key +:+ " not found.")))
  | None =>
      raise (KeyError (VStr ("Friendly name " +:+ key +:+ " not found.")))
  end.

(** [ConfigurationManager.change_mapping], with the check of the
    [validate_provider] decorator (lines 76-82 and 134-153).
    [mappings_dict] and the keyword arguments are dictionaries, given by
    their items in order; [listing] is the text the message of the
    decorator shows for the list of providers. *)
Definition change_mapping (listing : string) (provider operation : string)
    (mappings_dict : option (list (string * string)))
    (kwargs : list (string * string)) : M Config unit :=
  known ← gets main_providers;
  if bool_decide (provider ∈ known) then
    let mappings_dict := default kwargs mappings_dict in
    match mappings_dict with
    | [] => raise (ValueError "No mappings provided to update.")
    | _ :: _ =>
        if bool_decide (lower operation ∈ valid_operations) then
          if bool_decide (operation = "edit" ∨ operation = "add") then
            cfg ← gets provider_configs;
            match cfg !! provider with
            | Some m =>
                modify (set_mappings provider
                          (foldl (fun m kv => <[kv.1 := kv.2]> m) m
                             mappings_dict))
            | None => raise (KeyError (VStr provider))
            end
          else if bool_decide (operation = "delete") then
            for_each mappings_dict.*1 (delete_mapping provider)
          else mret tt
        else
          raise (ValueError
                   ("Operation " +:+ operation
                    +:+ " is not recognized. Must be one of edit, add, delete."))
    end
  else
    raise (KeyError
             (VStr ("Invalid provider " +:+ provider
                    +:+ ". Provider must be one of: " +:+ listing))).

(** Every character of [s] satisfies [P]. *)
Fixpoint string_forall (P : ascii -> bool) (s : string) : bool :=
  match s with
  | EmptyString => true
  | String a s' => P a && string_forall P s'
  end.

(** An upper-case or lower-case letter of the English alphabet *)
Definition is_letter (a : ascii) : bool :=
  let n := nat_of_ascii a in
  ((65 <=? n) && (n <=? 90) || (97 <=? n) && (n <=? 122))%nat.

(** [arg] is the name of a provider, a friendly model name or the name
    of a client. *)
Definition recognised (providers : list Provider) (arg : value) : bool :=
  existsb (fun provider => bool_decide (arg = VStr (name provider))) providers
  || existsb (fun provider => in_dict arg (mappings provider)) providers
  || existsb (fun provider => in_dict arg (clients provider)) providers.

(** The names [intelligent_parser] reads off its arguments. *)
Definition names_of (providers : list Provider) (args : list value)
  : parser_names :=
  foldl (classify providers)
    (mkNames VNone VNone VNone (VStr "Hello, my friend")) args.

(** ** Further samples *)

(** [ApplyStep(lambda s: s.upper(), input_key="text", output_key="out")]
    and a Context holding [text -> hi]. *)
Definition shout : ApplyStep := mkApplyStep (Some "text") (Some "out") uppercase.

Definition hi_text : Ctx := {[ "text" := VStr "hi" ]}.

(** [ModelStep(prompt="Hello {name}", output_key="answer")] and
    [ModelStep(input_key="text", output_key="answer")] *)
Definition ask_model : ModelStep :=
  ModelStep_init None None (Some hello) None None (Some "answer").

Definition relay_model : ModelStep :=
  ModelStep_init None None None None (Some "text") (Some "answer").

(** [apply(lambda s: s.upper(), input_key="text")] followed by
    [call_model()] and [apply(lambda v: v)] *)
Definition shout_pipeline : State :=
  built (builder_apply uppercase (Some "text") None ;;
         builder_call_model None None None None None None ;;
         builder_apply (fun v => inl v) None None).

(** The calls that build the scenario's pipeline. *)
Definition qa_calls : list builder_call :=
  [UsingDataset (Sequence qa_records) (Some "q") (Some "q") None None;
   ApplyFunc uppercase (Some "q") (Some "out")].

(** Two providers, each with one friendly model name and its default
    client, and a caller that answers with the prompt it was sent. *)
Definition openai_provider : Provider :=
  mkProvider "openai" {[ "gpt" := "gpt-4o" ]} "gpt-4o-mini"
    {[ "openai_client" := 1 ]} 1 10.

Definition anthropic_provider : Provider :=
  mkProvider "anthropic" {[ "claude" := "claude-3-5-sonnet" ]}
    "claude-3-haiku" {[ "anthropic_client" := 2 ]} 2 20.

Definition echo_api (caller : nat) (kwargs : parsed_args) : result value :=
  inl (arg_prompt kwargs).

(** A configuration with the one provider [openai] and two friendly
    names. *)
Definition sample_config : Config :=
  mkConfig ["openai"]
    {[ "openai" := <[ "gpt" := "gpt-4o" ]> {[ "mini" := "gpt-4o-mini" ]} ]}.

(** * Properties *)

(** ** The Context store *)

Lemma Context_get_add (c : Ctx) (key : string) (v : value) :
  Context_get key (Context_add key v c) = v.
Proof. unfold Context_get, Context_add. by rewrite lookup_insert_eq. Qed.

Lemma Context_get_clear (c : Ctx) (key : string) :
  Context_get key (Context_clear c) = VNone.
Proof. unfold Context_get, Context_clear. by rewrite lookup_empty. Qed.

(** C3.  On every Context: [get] right after [add] returns the value
    added; [update] of an absent key fails with [KeyError], and of a
    present key replaces its value and nothing else; [remove] of an
    absent key fails with [KeyError]; after [clear], [get] returns the
    missing signal [None] for every key. *)
Theorem Context_contract (c : Ctx) (key : string) (v : value) :
  Context_get key (Context_add key v c) = v
  ∧ (c !! key = None →
     Context_update key v c
     = inr (KeyError (VStr ("Key " +:+ key +:+ " not in context.")))
     ∧ Context_remove key c = inr (KeyError (VStr key)))
  ∧ (is_Some (c !! key) →
     Context_update key v c = inl (<[key := v]> c)
     ∧ Context_get key (<[key := v]> c) = v
     ∧ ∀ k, k ≠ key → Context_get k (<[key := v]> c) = Context_get k c)
  ∧ (∀ k, Context_get k (Context_clear c) = VNone).
Proof.
  split; [apply Context_get_add|].
  split.
  { intros Habsent. unfold Context_update, Context_remove.
    rewrite Habsent. rewrite bool_decide_eq_false_2; [done|].
    by intros [? ?]. }
  split; [|intros k; apply Context_get_clear].
  intros Hpresent. unfold Context_update.
  rewrite bool_decide_eq_true_2 by done.
  split; [done|]. split; [apply Context_get_add|].
  intros k Hk. unfold Context_get. by rewrite lookup_insert_ne.
Qed.

(** The contract at work on a store holding one entry. *)
Lemma Context_contract_witness :
  (Context_update "b" (VInt 2) one_entry
   = inr (KeyError (VStr "Key b not in context."))
   ∧ Context_remove "b" one_entry = inr (KeyError (VStr "b")))
  ∧ Context_update "a" (VInt 2) one_entry = inl (<["a" := VInt 2]> one_entry).
Proof.
  split.
  - apply (Context_contract one_entry "b" (VInt 2)). reflexivity.
  - apply (Context_contract one_entry "a" (VInt 2)). exists (VInt 1).
    reflexivity.
Defined.

(** ** Steps *)

Lemma bind_run {S A B} (m : M S A) (k : A → M S B) (s : S) :
  (m ≫= k) s
  = match m s with
    | (Ok a, s') => k a s'
    | (Raise e, s') => (Raise e, s')
    | (Unfinished, s') => (Unfinished, s')
    end.
Proof. reflexivity. Qed.

Lemma lookup_combined (c : Ctx) (defaults : gmap string value) (name : string) :
  (c ∪ defaults) !! name = resolve c defaults name.
Proof.
  unfold resolve. rewrite lookup_union.
  by destruct (c !! name), (defaults !! name).
Qed.

Lemma py_str_shown (v : value) : py_str v = shown v.
Proof. by destruct v. Qed.

Lemma get_field_keyword (c : Ctx) (defaults : gmap string value)
    (name : string) :
  is_number name = false →
  get_field name (c ∪ defaults)
  = match resolve c defaults name with
    | Some v => inl v
    | None => inr (KeyError (VStr name))
    end.
Proof.
  intros Hn. unfold get_field. rewrite Hn, lookup_combined.
  by destruct (resolve c defaults name).
Qed.

Lemma get_field_positional (name : string) (vars : gmap string value) :
  is_number name = true →
  (∃ msg, get_field name vars = inr (IndexError msg))
  ∨ get_field name vars
    = inr (ValueError "Too many decimal digits in format string").
Proof.
  intros Hn. unfold get_field. rewrite Hn.
  case_bool_decide; [left; eauto|by right].
Qed.

Lemma format_resolved (c : Ctx) (defaults : gmap string value)
    (t : list piece) :
  (∀ name, Field name ∈ t →
           is_number name = false ∧ is_Some (resolve c defaults name)) →
  format t (c ∪ defaults) = inl (substitute c defaults t).
Proof.
  induction t as [|p t IH]; intros Hall; [done|].
  simpl. rewrite IH by (intros name Hin; apply Hall; by right).
  destruct p as [text|name]; [done|].
  destruct (Hall name) as [Hn [v Hv]]; [by left|].
  by rewrite get_field_keyword, Hv, py_str_shown.
Qed.

Lemma format_unresolved (c : Ctx) (defaults : gmap string value)
    (t : list piece) :
  (∀ name, Field name ∈ t → is_number name = false) →
  (∃ name, Field name ∈ t ∧ resolve c defaults name = None) →
  ∃ name, Field name ∈ t ∧ resolve c defaults name = None
          ∧ format t (c ∪ defaults) = inr (KeyError (VStr name)).
Proof.
  induction t as [|p t IH]; intros Hkw (name & Hin & Hnone).
  { by apply elem_of_nil in Hin. }
  assert (Hkw' : ∀ name, Field name ∈ t → is_number name = false).
  { intros m Hm. apply Hkw. by right. }
  destruct p as [text|name'].
  - apply elem_of_cons in Hin as [Heq|Hin]; [done|].
    destruct IH as (m & Hm & Hr & Hf); [done|eauto|].
    exists m. split; [by right|]. split; [done|]. simpl. by rewrite Hf.
  - assert (Hn : is_number name' = false) by (apply Hkw; by left).
    destruct (resolve c defaults name') as [v|] eqn:Hres.
    + apply elem_of_cons in Hin as [Heq|Hin]; [congruence|].
      destruct IH as (m & Hm & Hr & Hf); [done|eauto|].
      exists m. split; [by right|]. split; [done|].
      simpl. rewrite get_field_keyword, Hres by done. by rewrite Hf.
    + exists name'. split; [by left|]. split; [done|].
      simpl. by rewrite get_field_keyword, Hres.
Qed.

Lemma format_positional (c : Ctx) (defaults : gmap string value)
    (t : list piece) :
  (∃ name, Field name ∈ t ∧ is_number name = true) →
  ∃ e, format t (c ∪ defaults) = inr e
       ∧ ((∀ name, Field name ∈ t → is_number name = false →
                   is_Some (resolve c defaults name)) →
          (∃ msg, e = IndexError msg)
          ∨ e = ValueError "Too many decimal digits in format string").
Proof.
  induction t as [|p t IH]; intros (name & Hin & Hn).
  { by apply elem_of_nil in Hin. }
  destruct p as [text|name'].
  - apply elem_of_cons in Hin as [Heq|Hin]; [done|].
    destruct IH as (e & Hf & He); [eauto|].
    exists e. simpl. rewrite Hf. split; [done|].
    intros Hres. apply He. intros m Hm. apply Hres. by right.
  - simpl. destruct (is_number name') eqn:Hn'.
    + destruct (get_field_positional name' (c ∪ defaults) Hn')
        as [[msg Hg]|Hg]; rewrite Hg; eexists; (split; [done|]); eauto.
    + rewrite get_field_keyword by done.
      apply elem_of_cons in Hin as [Heq|Hin]; [congruence|].
      destruct IH as (e & Hf & He); [eauto|].
      destruct (resolve c defaults name') as [v|] eqn:Hres.
      * exists e. rewrite Hf. split; [done|].
        intros Hall. apply He. intros m Hm. apply Hall. by right.
      * eexists. split; [done|]. intros Hall.
        destruct (Hall name') as [v Hv]; [by left|done|congruence].
Qed.

(** C5, as the code has it.  The placeholders of a template are the
    replacement fields of [str.format]; the names read here are the plain
    ones.  When every placeholder is a keyword name, not empty and not
    made of digits alone, with a value in the Context or a declared
    default, the step returns the template with every placeholder
    substituted, the Context going before the defaults, and writes that
    string to the Context under its output key.  When no placeholder is
    positional and one has no value, the step fails with [KeyError] (the
    missing-variable error) for such a placeholder and leaves the
    Context and itself as they were.  A placeholder whose name is empty
    or made of digits is positional: the step then never succeeds and
    writes nothing, whatever is declared under that name, and when every
    keyword placeholder has a value the error is [IndexError], or
    [ValueError] for an index beyond the largest the platform reads. *)
Theorem PromptStep_execute_spec (E : Env) (s : PromptStep) (c : Ctx)
    (r n : nat) :
  (∀ name, Field name ∈ template s → plain_name name = true) →
  ((∀ name, Field name ∈ template s →
            is_number name = false
            ∧ is_Some (resolve c (variables s) name)) →
   let text := substitute c (variables s) (template s) in
   let key := key_in E (output_key s) r in
   ∃ fr, PromptStep_execute E (mkFrame s c r n) = (Ok text, fr)
         ∧ output_key (self fr) = Some key
         ∧ ctx fr = <[key := VStr text]> c)
  ∧ ((∀ name, Field name ∈ template s → is_number name = false) →
     (∃ name, Field name ∈ template s
              ∧ resolve c (variables s) name = None) →
     ∃ name, Field name ∈ template s ∧ resolve c (variables s) name = None ∧
       PromptStep_execute E (mkFrame s c r n)
       = (Raise (KeyError (VStr name)), mkFrame s c r n))
  ∧ ((∃ name, Field name ∈ template s ∧ is_number name = true) →
     ∃ e, PromptStep_execute E (mkFrame s c r n)
          = (Raise e, mkFrame s c r n)
          ∧ ((∀ name, Field name ∈ template s → is_number name = false →
                      is_Some (resolve c (variables s) name)) →
             (∃ msg, e = IndexError msg)
             ∨ e = ValueError "Too many decimal digits in format string")).
Proof.
  intros _. split_and!.
  - intros Hall text key.
    pose proof (format_resolved c (variables s) (template s) Hall) as Hf.
    unfold PromptStep_execute, get_output_key. unfold_monad. simpl.
    rewrite Hf. subst text key.
    destruct (p_output_key s) as [[|a k]|] eqn:Hk; simpl; rewrite ?Hk; simpl;
      eauto.
  - intros Hkw Hmissing.
    destruct (format_unresolved c (variables s) (template s) Hkw Hmissing)
      as (name & Hin & Hnone & Hf).
    exists name. split; [done|]. split; [done|].
    unfold PromptStep_execute. unfold_monad. simpl. by rewrite Hf.
  - intros Hpos.
    destruct (format_positional c (variables s) (template s) Hpos)
      as (e & Hf & He).
    exists e. split; [|done].
    unfold PromptStep_execute. unfold_monad. simpl. by rewrite Hf.
Qed.

(** Template [Hello {name}]: with [name -> Ada] in the Context it gives
    [Hello Ada], with [name -> 7] it gives [Hello 7], and with an empty
    Context and the default [None] it gives [Hello None]; with an
    explicit, empty variable map and an empty Context the step fails. *)
Lemma PromptStep_execute_spec_witness :
  (∃ fr, PromptStep_execute sample_env (mkFrame hello_step ada 0 0)
         = (Ok "Hello Ada", fr)
         ∧ output_key (self fr) = Some "greeting"
         ∧ ctx fr = <["greeting" := VStr "Hello Ada"]> ada)
  ∧ (∃ fr, PromptStep_execute sample_env (mkFrame hello_step seven 0 0)
           = (Ok "Hello 7", fr)
           ∧ output_key (self fr) = Some "greeting"
           ∧ ctx fr = <["greeting" := VStr "Hello 7"]> seven)
  ∧ (∃ fr, PromptStep_execute sample_env (mkFrame hello_step ∅ 0 0)
           = (Ok "Hello None", fr)
           ∧ output_key (self fr) = Some "greeting"
           ∧ ctx fr = <["greeting" := VStr "Hello None"]> ∅)
  ∧ (∃ name, Field name ∈ template hello_step_bare
       ∧ resolve ∅ (variables hello_step_bare) name = None
       ∧ PromptStep_execute sample_env (mkFrame hello_step_bare ∅ 0 0)
         = (Raise (KeyError (VStr name)), mkFrame hello_step_bare ∅ 0 0)).
Proof.
  assert (Hfield : ∀ name, Field name ∈ hello → name = "name").
  { intros name Hin. apply elem_of_cons in Hin as [Heq|Hin]; [done|].
    apply elem_of_cons in Hin as [Heq|Hin]; [|by apply elem_of_nil in Hin].
    by injection Heq. }
  assert (Hplain : ∀ name, Field name ∈ hello → plain_name name = true).
  { intros name Hin. by rewrite (Hfield name Hin). }
  assert (Hall : ∀ c v, resolve c (variables hello_step) "name" = Some v →
            ∀ name, Field name ∈ template hello_step →
              is_number name = false
              ∧ is_Some (resolve c (variables hello_step) name)).
  { intros c v Hv name Hin. rewrite (Hfield name Hin). split; [done|].
    by exists v. }
  split_and!.
  - exact (proj1 (PromptStep_execute_spec sample_env hello_step ada 0 0 Hplain)
             (Hall ada (VStr "Ada") eq_refl)).
  - exact (proj1 (PromptStep_execute_spec sample_env hello_step seven 0 0
                    Hplain) (Hall seven (VInt 7) eq_refl)).
  - exact (proj1 (PromptStep_execute_spec sample_env hello_step ∅ 0 0 Hplain)
             (Hall ∅ VNone eq_refl)).
  - apply (proj1 (proj2 (PromptStep_execute_spec sample_env hello_step_bare ∅
                           0 0 Hplain))).
    + intros name Hin. by rewrite (Hfield name Hin).
    + exists "name". split; [|reflexivity]. right. left.
Defined.

(** C5 as claimed does not hold.  Every placeholder of the template
    [x={0}] has a declared default, under which the claim has the step
    write [x=zero]; the code reads the name [0] as an index into the
    positional arguments, of which there are none, raises [IndexError]
    and writes nothing. *)
Lemma PromptStep_execute_spec_counterexample :
  (∀ name, Field name ∈ template numbered_step →
           plain_name name = true
           ∧ is_Some (resolve ∅ (variables numbered_step) name))
  ∧ substitute ∅ (variables numbered_step) (template numbered_step) = "x=zero"
  ∧ (∃ msg, PromptStep_execute sample_env (mkFrame numbered_step ∅ 0 0)
            = (Raise (IndexError msg), mkFrame numbered_step ∅ 0 0))
  ∧ ¬ (∃ text fr, PromptStep_execute sample_env (mkFrame numbered_step ∅ 0 0)
                  = (Ok text, fr)).
Proof.
  split_and!.
  - intros name Hin. apply elem_of_cons in Hin as [Heq|Hin]; [done|].
    apply elem_of_cons in Hin as [Heq|Hin]; [|by apply elem_of_nil in Hin].
    injection Heq as ->. split; [reflexivity|]. by eexists.
  - reflexivity.
  - eexists. vm_compute. reflexivity.
  - intros (text & fr & Hrun). vm_compute in Hrun. discriminate.
Qed.

(** *** The Source step *)

Lemma DatasetStep_execute_next (s : DatasetStep) (item : record)
    (rest : list record) (c : Ctx) (r n : nat) :
  remaining s = item :: rest →
  DatasetStep_execute (mkFrame s c r n)
  = (store_target (advanced s rest) item ;;
     store_keys (advanced s rest) item ;;
     mret (RRecord item)) (mkFrame (advanced s rest) c r n).
Proof.
  unfold remaining, DatasetStep_execute, _ensure_iterator, next_item.
  unfold_monad. intros Hrem. simpl.
  destruct (_iterator s) as [it|] eqn:Hit; simpl; rewrite ?Hit; subst;
    simpl; rewrite ?Hrem; done.
Qed.

Lemma DatasetStep_execute_exhausted (s : DatasetStep) (c : Ctx) (r n : nat) :
  remaining s = [] →
  DatasetStep_execute (mkFrame s c r n)
  = (Ok (RVal VNone),
     mkFrame (mkDatasetStep (d_input_key s) (d_output_key s) (d_dataset s)
                (target s) (target_type s) None) c r n).
Proof.
  unfold remaining, DatasetStep_execute, _ensure_iterator, next_item,
    reset_iterator.
  unfold_monad. intros Hrem. simpl.
  destruct (_iterator s) as [it|] eqn:Hit; simpl; rewrite ?Hit; subst;
    simpl; rewrite ?Hrem; done.
Qed.

(** What the key blocks (lines 125-128) leave in the Context: entries
    may only change under the step's own input and output key. *)
Lemma store_keys_elsewhere (s : DatasetStep) (item : record)
    (fr : Frame DatasetStep) (k : string) :
  input_key s ≠ Some k → output_key s ≠ Some k →
  ctx (store_keys s item fr).2 !! k = ctx fr !! k.
Proof.
  intros Hin Hout. unfold store_keys. unfold_monad. simpl in *.
  destruct (d_input_key s) as [[|a1 k1]|], (d_output_key s) as [[|a2 k2]|];
    simpl; try done;
    repeat (match goal with
            | |- context [getitem ?i ?x] => destruct (getitem i x); simpl
            end);
    unfold Context_add; simpl;
    rewrite ?lookup_insert_ne by congruence; done.
Qed.

Lemma store_keys_unset (s : DatasetStep) (item : record)
    (fr : Frame DatasetStep) :
  truthy (input_key s) = false → truthy (output_key s) = false →
  store_keys s item fr = (Ok tt, fr).
Proof.
  unfold store_keys. unfold_monad. simpl.
  by destruct (d_input_key s) as [[|a1 k1]|], (d_output_key s) as [[|a2 k2]|].
Qed.

Lemma store_keys_shared (s : DatasetStep) (item : record)
    (fr fr' : Frame DatasetStep) (t : string) :
  t ≠ EmptyString → input_key s = Some t ∨ output_key s = Some t →
  store_keys s item fr = (Ok tt, fr') →
  ctx fr' !! t = item !! key_value (input_key s).
Proof.
  intros Hne Hkey. unfold store_keys. unfold_monad. simpl in *.
  destruct t as [|a t']; [done|].
  destruct (d_input_key s) as [[|a1 k1]|] eqn:Hin,
           (d_output_key s) as [[|a2 k2]|] eqn:Hout;
    simpl; try (by destruct Hkey);
    unfold getitem;
    repeat (match goal with
            | |- context [item !! ?x] => destruct (item !! x) eqn:?; simpl
            end);
    try discriminate;
    intros [= <-]; simpl; unfold Context_add;
    destruct Hkey as [[= <- <-]|[= <- <-]];
    rewrite ?lookup_insert_eq; try done;
    destruct (decide (String a1 k1 = String a2 k2)) as [Heq|Hd];
    rewrite ?Heq, ?lookup_insert_eq; try done;
    by rewrite lookup_insert_ne, lookup_insert_eq.
Qed.

Lemma store_keys_found (s : DatasetStep) (item : record)
    (fr : Frame DatasetStep) :
  is_Some (item !! key_value (input_key s)) →
  ∃ fr', store_keys s item fr = (Ok tt, fr').
Proof.
  intros [v Hv]. unfold store_keys. unfold_monad. simpl in *.
  unfold getitem.
  destruct (d_input_key s) as [[|a1 k1]|], (d_output_key s) as [[|a2 k2]|];
    simpl in *; rewrite ?Hv; simpl; rewrite ?Hv; eauto.
Qed.

(** C4, as the code has it.  A Source step with [target] set, handed its
    next record: with [target_type] "direct" the target block stores
    [record[target]] in the Context under [target], and with "indirect"
    [record[record[target]]]; the key blocks run afterwards.  When
    [target] is neither the input key nor the output key of the step,
    the Context the step leaves maps [target] to that value and is
    otherwise the old one, touched further only under the two keys.
    When [target] is also the input key or the output key, the entry is
    overwritten with [record[input_key]].  With any other [target_type]
    the step fails with [ValueError] (the invalid-configuration error)
    and leaves the Context alone. *)
Theorem DatasetStep_target_spec (s : DatasetStep) (item : record)
    (rest : list record) (c : Ctx) (r n : nat) (t : string) :
  target s = Some t → t ≠ EmptyString → remaining s = item :: rest →
  (target_type s = Some "direct" →
   ∀ v, item !! VStr t = Some v → target_stored s item rest c r n t v)
  ∧ (target_type s = Some "indirect" →
     ∀ selection v,
       item !! VStr t = Some selection → item !! selection = Some v →
       target_stored s item rest c r n t v)
  ∧ (target_type s ≠ Some "direct" → target_type s ≠ Some "indirect" →
     ∃ msg, DatasetStep_execute (mkFrame s c r n)
            = (Raise (ValueError msg), mkFrame (advanced s rest) c r n)).
Proof.
  intros Ht Hne Hrem.
  assert (Hstores : ∀ v,
    store_target (advanced s rest) item (mkFrame (advanced s rest) c r n)
    = (Ok tt, mkFrame (advanced s rest) (<[t := v]> c) r n) →
    target_stored s item rest c r n t v).
  { intros v Hst.
    assert (Hrun : DatasetStep_execute (mkFrame s c r n)
              = (store_keys (advanced s rest) item ;; mret (RRecord item))
                  (mkFrame (advanced s rest) (<[t := v]> c) r n)).
    { rewrite (DatasetStep_execute_next s item rest c r n Hrem).
      by rewrite bind_run, Hst. }
    assert (Hret : ∀ ret fr,
              DatasetStep_execute (mkFrame s c r n) = (Ok ret, fr) →
              ret = RRecord item
              ∧ store_keys (advanced s rest) item
                  (mkFrame (advanced s rest) (<[t := v]> c) r n)
                = (Ok tt, fr)).
    { intros ret fr. rewrite Hrun, bind_run.
      destruct (store_keys _ _ _) as [[[]| |] fr1]; try done.
      unfold mret, M_ret. by intros [= <- <-]. }
    unfold target_stored. split; [done|]. split_and!.
    - intros Hin Hout ret fr Hok.
      destruct (Hret ret fr Hok) as [-> Hkeys]. split; [done|].
      assert (Hk : ∀ k, input_key s ≠ Some k → output_key s ≠ Some k →
                ctx fr !! k = <[t := v]> c !! k).
      { intros k Hik Hok'.
        pose proof (store_keys_elsewhere (advanced s rest) item
          (mkFrame (advanced s rest) (<[t := v]> c) r n) k Hik Hok') as Hk.
        by rewrite Hkeys in Hk. }
      split; [|done]. by rewrite Hk, lookup_insert_eq.
    - intros Hin Hout. rewrite Hrun, bind_run.
      by rewrite store_keys_unset.
    - intros Hkey ret fr Hok. destruct (Hret ret fr Hok) as [_ Hkeys].
      exact (store_keys_shared (advanced s rest) item _ fr t Hne Hkey Hkeys).
    - intros Hfound. rewrite Hrun, bind_run.
      destruct (store_keys_found (advanced s rest) item
                  (mkFrame (advanced s rest) (<[t := v]> c) r n) Hfound)
        as [fr' ->].
      by exists fr'. }
  destruct t as [|a t']; [done|].
  split; [|split].
  - intros Hty v Hv. apply Hstores.
    unfold store_target. simpl. rewrite Ht, Hty. unfold_monad. simpl.
    unfold getitem. by rewrite Hv.
  - intros Hty sel v Hsel Hv. apply Hstores.
    unfold store_target. simpl. rewrite Ht, Hty. unfold_monad. simpl.
    unfold getitem. rewrite Hsel. simpl. by rewrite Hv.
  - intros Hnd Hni. eexists.
    rewrite (DatasetStep_execute_next s item rest c r n Hrem).
    rewrite bind_run.
    unfold store_target. simpl. rewrite Ht.
    rewrite !bool_decide_eq_false_2 by done.
    unfold_monad. simpl. reflexivity.
Qed.

(** The scenario of the spec: record [{"route": "dest", "dest": 42}],
    [target="route"].  Indirectly the Context ends as [route -> 42],
    also when the step has the input key [dest]; directly it ends as
    [route -> "dest"], and without a [target_type] the step is
    rejected. *)
Lemma DatasetStep_target_spec_witness :
  (DatasetStep_execute (mkFrame route_indirect ∅ 0 0)
   = (Ok (RRecord route_record),
      mkFrame (advanced route_indirect []) {[ "route" := VInt 42 ]} 0 0))
  ∧ (∀ ret fr,
       DatasetStep_execute (mkFrame route_dest_keyed ∅ 0 0) = (Ok ret, fr) →
       ret = RRecord route_record ∧ ctx fr !! "route" = Some (VInt 42)
       ∧ ∀ k, input_key route_dest_keyed ≠ Some k →
              output_key route_dest_keyed ≠ Some k →
              ctx fr !! k = <["route" := VInt 42]> (∅ : Ctx) !! k)
  ∧ (∃ fr, DatasetStep_execute (mkFrame route_dest_keyed ∅ 0 0)
           = (Ok (RRecord route_record), fr))
  ∧ (DatasetStep_execute (mkFrame route_direct ∅ 0 0)
     = (Ok (RRecord route_record),
        mkFrame (advanced route_direct []) {[ "route" := VStr "dest" ]} 0 0))
  ∧ (∃ msg, DatasetStep_execute (mkFrame route_untyped ∅ 0 0)
            = (Raise (ValueError msg), mkFrame (advanced route_untyped []) ∅ 0 0)).
Proof.
  assert (Hne : "route" ≠ EmptyString) by discriminate.
  pose proof (proj1 (proj2 (DatasetStep_target_spec route_dest_keyed
                route_record [] ∅ 0 0 "route" eq_refl Hne eq_refl)) eq_refl
                (VStr "dest") (VInt 42) eq_refl eq_refl) as Hkeyed.
  split_and!.
  - exact (proj1 (proj2 (proj2 (proj1 (proj2 (DatasetStep_target_spec
             route_indirect route_record [] ∅ 0 0 "route" eq_refl Hne
             eq_refl)) eq_refl (VStr "dest") (VInt 42) eq_refl eq_refl)))
             eq_refl eq_refl).
  - apply (proj1 (proj2 Hkeyed)); discriminate.
  - apply (proj2 (proj2 (proj2 (proj2 Hkeyed)))). by eexists.
  - exact (proj1 (proj2 (proj2 (proj1 (DatasetStep_target_spec route_direct
             route_record [] ∅ 0 0 "route" eq_refl Hne eq_refl) eq_refl
             (VStr "dest") eq_refl))) eq_refl eq_refl).
  - refine (proj2 (proj2 (DatasetStep_target_spec route_untyped
              route_record [] ∅ 0 0 "route" eq_refl Hne eq_refl)) _ _);
      discriminate.
Defined.

(** C4 as claimed does not hold.  On the record of the spec, a Source
    step with [target="route"], [target_type="indirect"] and
    [input_key="route"] first stores 42 under [route], and the block of
    the input key then stores [record["route"]] there: the Context ends
    with [route -> "dest"], not with [route -> 42]. *)
Lemma DatasetStep_target_spec_counterexample :
  target route_keyed = Some "route"
  ∧ target_type route_keyed = Some "indirect"
  ∧ remaining route_keyed = [route_record]
  ∧ route_record !! VStr "route" = Some (VStr "dest")
  ∧ route_record !! VStr "dest" = Some (VInt 42)
  ∧ DatasetStep_execute (mkFrame route_keyed ∅ 0 0)
    = (Ok (RRecord route_record),
       mkFrame (advanced route_keyed []) {[ "route" := VStr "dest" ]} 0 0)
  ∧ ({[ "route" := VStr "dest" ]} : Ctx) !! "route" ≠ Some (VInt 42).
Proof.
  split_and!; try reflexivity.
  intros H. vm_compute in H. discriminate.
Qed.
(** C9, as the code has it.  A Source step with an output key but no
    input key, handed a record without a [None] key, never succeeds: the
    value for the output key is looked up in the record under the unset
    input key.  The error is [KeyError(None)] whenever the target block
    completes, in particular when no target is set.  When the target
    block fails, the error it raised is the error of the step:
    [ValueError] for a [target_type] that is neither "direct" nor
    "indirect", [KeyError] for a lookup of the target that fails. *)
Theorem DatasetStep_unset_input_key (s : DatasetStep) (item : record)
    (rest : list record) (c : Ctx) (r n : nat) :
  input_key s = None → truthy (output_key s) = true →
  remaining s = item :: rest → item !! VNone = None →
  (∃ e fr, DatasetStep_execute (mkFrame s c r n) = (Raise e, fr)
           ∧ (target s = None → e = KeyError VNone)
           ∧ ((store_target (advanced s rest) item
                 (mkFrame (advanced s rest) c r n)).1 = Ok tt →
              e = KeyError VNone))
  ∧ (∀ e fr,
       store_target (advanced s rest) item (mkFrame (advanced s rest) c r n)
       = (Raise e, fr) →
       DatasetStep_execute (mkFrame s c r n) = (Raise e, fr))
  ∧ (∀ t, target s = Some t → t ≠ EmptyString →
          target_type s ≠ Some "direct" → target_type s ≠ Some "indirect" →
          ∃ msg, DatasetStep_execute (mkFrame s c r n)
                 = (Raise (ValueError msg), mkFrame (advanced s rest) c r n))
  ∧ (∀ t, target s = Some t → t ≠ EmptyString →
          target_type s = Some "direct" ∨ target_type s = Some "indirect" →
          item !! VStr t = None →
          DatasetStep_execute (mkFrame s c r n)
          = (Raise (KeyError (VStr t)), mkFrame (advanced s rest) c r n))
  ∧ (∀ t selection,
       target s = Some t → t ≠ EmptyString →
       target_type s = Some "indirect" →
       item !! VStr t = Some selection → item !! selection = None →
       DatasetStep_execute (mkFrame s c r n)
       = (Raise (KeyError selection), mkFrame (advanced s rest) c r n)).
Proof.
  intros Hin Hout Hrem Hnone.
  rewrite (DatasetStep_execute_next s item rest c r n Hrem).
  assert (Hkeys : ∀ fr, store_keys (advanced s rest) item fr
                        = (Raise (KeyError VNone), fr)).
  { intros fr. unfold store_keys. unfold_monad. simpl in *. rewrite Hin.
    destruct (d_output_key s) as [[|a k]|]; try done.
    simpl. unfold getitem. by rewrite Hnone. }
  assert (Hraise : ∀ e fr,
    store_target (advanced s rest) item (mkFrame (advanced s rest) c r n)
    = (Raise e, fr) →
    (store_target (advanced s rest) item ;;
     store_keys (advanced s rest) item ;;
     mret (RRecord item)) (mkFrame (advanced s rest) c r n)
    = (Raise e, fr)).
  { intros e fr Hst. by rewrite bind_run, Hst. }
  split_and!.
  - rewrite bind_run.
    destruct (store_target (advanced s rest) item _) as [[[]|e|] fr] eqn:Hst.
    + rewrite bind_run, Hkeys. eauto.
    + exists e, fr. split; [done|]. split; [|done].
      intros Htarget. unfold store_target in Hst. simpl in Hst.
      rewrite Htarget in Hst. discriminate.
    + unfold store_target in Hst. unfold_monad. simpl in Hst.
      destruct (target s) as [[|a t]|]; try discriminate.
      repeat case_bool_decide;
        repeat (match type of Hst with
                | context [getitem ?i ?x] => destruct (getitem i x)
                end; simpl in Hst); discriminate.
  - exact Hraise.
  - intros t Ht Hne Hnd Hni. eexists. apply Hraise.
    destruct t as [|a t']; [done|].
    unfold store_target. simpl. rewrite Ht.
    rewrite !bool_decide_eq_false_2 by done. reflexivity.
  - intros t Ht Hne Hty Hmiss. apply Hraise.
    destruct t as [|a t']; [done|].
    unfold store_target. simpl. rewrite Ht.
    destruct Hty as [Hty|Hty]; rewrite Hty; unfold_monad; simpl;
      unfold getitem; by rewrite Hmiss.
  - intros t sel Ht Hne Hty Hsel Hmiss. apply Hraise.
    destruct t as [|a t']; [done|].
    unfold store_target. simpl. rewrite Ht, Hty. unfold_monad. simpl.
    unfold getitem. rewrite Hsel. simpl. by rewrite Hmiss.
Qed.

(** A source with only an output key fails on its record with
    [KeyError(None)]; with a target and no recognised [target_type] it
    fails with the [ValueError] of the target block. *)
Lemma DatasetStep_unset_input_key_witness :
  (∃ e fr, DatasetStep_execute (mkFrame source_out_only ∅ 0 0) = (Raise e, fr)
           ∧ (target source_out_only = None → e = KeyError VNone)
           ∧ ((store_target (advanced source_out_only []) route_record
                 (mkFrame (advanced source_out_only []) ∅ 0 0)).1 = Ok tt →
              e = KeyError VNone))
  ∧ (∃ msg, DatasetStep_execute (mkFrame route_untyped_out ∅ 0 0)
            = (Raise (ValueError msg),
               mkFrame (advanced route_untyped_out []) ∅ 0 0)).
Proof.
  split.
  - apply (DatasetStep_unset_input_key source_out_only route_record [] ∅ 0 0);
      reflexivity.
  - assert (Hne : "route" ≠ EmptyString) by discriminate.
    apply (proj1 (proj2 (proj2
             (DatasetStep_unset_input_key route_untyped_out route_record []
                ∅ 0 0 eq_refl eq_refl eq_refl eq_refl))) "route" eq_refl Hne);
      discriminate.
Defined.

(** C9 as claimed does not hold: a Source step with an output key, no
    input key, a target and no recognised [target_type] fails on its
    record with [ValueError], which is not a key-lookup error. *)
Lemma DatasetStep_unset_input_key_counterexample :
  input_key route_untyped_out = None
  ∧ output_key route_untyped_out = Some "out"
  ∧ remaining route_untyped_out = [route_record]
  ∧ route_record !! VNone = None
  ∧ (∃ msg, (DatasetStep_execute (mkFrame route_untyped_out ∅ 0 0)).1
            = Raise (ValueError msg))
  ∧ ¬ (∃ k, (DatasetStep_execute (mkFrame route_untyped_out ∅ 0 0)).1
            = Raise (KeyError k)).
Proof.
  repeat split; try reflexivity.
  - eexists. vm_compute. reflexivity.
  - intros [k Hk]. vm_compute in Hk. discriminate.
Qed.

(** ** What running steps leaves alone *)

Lemma settled_refl first st : settled first st st.
Proof. by split. Qed.

Lemma settled_trans first st1 st2 st3 :
  settled first st1 st2 → settled first st2 st3 → settled first st1 st3.
Proof.
  intros [Hg1 Hp1 Hb1 Hc1] [Hg2 Hp2 Hb2 Hc2]. split; [congruence..|].
  intros f Hf. by rewrite (Hc2 f Hf), (Hc1 f Hf).
Qed.

Lemma settles_ret {A} first (a : A) : settles first (mret a).
Proof. intros st. apply settled_refl. Qed.

Lemma settles_gets {A} first (f : State → A) : settles first (gets f).
Proof. intros st. apply settled_refl. Qed.

Lemma settles_bind {A B} first (m : M State A) (k : A → M State B) :
  settles first m → (∀ a, settles first (k a)) → settles first (m ≫= k).
Proof.
  intros Hm Hk st. rewrite bind_run. specialize (Hm st).
  destruct (m st) as [[a|e|] st1]; simpl in *; [|done..].
  eapply settled_trans; [done|]. apply Hk.
Qed.

Lemma settles_for_each {A} first (xs : list A) (body : A → M State unit) :
  (∀ x, x ∈ xs → settles first (body x)) → settles first (for_each xs body).
Proof.
  induction xs as [|x xs IH]; intros Hbody; simpl; [apply settles_ret|].
  apply settles_bind; [apply Hbody; by left|].
  intros _. apply IH. intros y Hy. apply Hbody. by right.
Qed.

Lemma settles_set_context first (f : Ctx → Ctx) :
  settles first (modify (set_context f)).
Proof. intros st. by split. Qed.

(** A method that leaves the cursor of its object alone may be called on
    any step. *)
Lemma settles_on_step {A} first (n : nat) (m : M (Frame Step) A) :
  (∀ fr, cursor (self (m fr).2) = cursor (self fr)) →
  settles first (on_step n m).
Proof.
  intros Hm st. unfold on_step.
  specialize (Hm (mkFrame (steps st n) (context st) (rnd_used st)
                    (calls_made st))).
  destruct (m _) as [r fr]. split; simpl; try done.
  intros f _. destruct (decide (n = f)) as [->|Hne].
  - by rewrite fn_lookup_insert.
  - by rewrite fn_lookup_insert_ne.
Qed.

(** Any method may be called on a step other than [first]. *)
Lemma settles_on_other {A} first (n : nat) (m : M (Frame Step) A) :
  first ≠ Some n → settles first (on_step n m).
Proof.
  intros Hne st. unfold on_step. destruct (m _) as [r fr].
  split; simpl; try done.
  intros f ->. rewrite fn_lookup_insert_ne; [done|congruence].
Qed.

Lemma get_output_key_cursor (E : Env) (fr : Frame Step) :
  cursor (self (get_output_key E fr).2) = cursor (self fr).
Proof.
  destruct fr as [s c r n].
  unfold get_output_key. unfold_monad. simpl.
  destruct s as [p|m|a|d]; simpl;
    match goal with |- context [match ?k with _ => _ end] =>
      destruct k as [[|? ?]|] end; done.
Qed.

Lemma get_input_key_cursor (E : Env) (fr : Frame Step) :
  cursor (self (get_input_key E fr).2) = cursor (self fr).
Proof.
  destruct fr as [s c r n].
  unfold get_input_key. unfold_monad. simpl.
  destruct s as [p|m|a|d]; simpl;
    match goal with |- context [match ?k with _ => _ end] =>
      destruct k as [[|? ?]|] end; done.
Qed.

Lemma settles_execute_step (E : Env) first (step : nat) :
  first ≠ Some step → settles first (_execute_step E step).
Proof.
  intros Hne. unfold _execute_step, wire_inputs.
  apply settles_bind.
  - apply settles_bind; [apply settles_gets|]. intros g.
    apply settles_for_each. intros pred _.
    apply settles_bind;
      [apply settles_on_step, get_output_key_cursor|]. intros key.
    apply settles_bind; [apply settles_gets|]. intros input_data.
    apply settles_bind;
      [apply settles_on_step, get_input_key_cursor|]. intros key'.
    apply settles_set_context.
  - intros _. apply settles_bind; [by apply settles_on_other|].
    intros _. apply settles_ret.
Qed.

Lemma settles_read_result (E : Env) first : settles first (read_result E).
Proof.
  unfold read_result.
  apply settles_bind; [apply settles_gets|]. intros [p|]; [|apply settles_ret].
  apply settles_bind; [apply settles_on_step, get_output_key_cursor|].
  intros key. apply settles_bind; [apply settles_gets|].
  intros v. apply settles_ret.
Qed.

Lemma settles_execute_from (E : Env) first :
  settles (Some first) (_execute_from E first).
Proof.
  unfold _execute_from.
  apply settles_bind; [apply settles_gets|]. intros g.
  apply settles_bind.
  - apply settles_for_each. intros step _.
    case_bool_decide; [apply settles_execute_step; congruence|apply settles_ret].
  - intros _. apply settles_bind; [apply settles_read_result|].
    intros r. apply settles_ret.
Qed.

(** ** Running a pipeline *)

Lemma topological_sort_no_nodes (g : DiGraph) :
  nodes g = [] → topological_sort g = Ok [].
Proof.
  intros Hn. unfold topological_sort, indegree_map, zero_indegree.
  by rewrite Hn.
Qed.

Lemma get_output_key_run {T} `{StepLike T} (E : Env) (s : T) (c : Ctx)
    (r n : nat) :
  get_output_key E (mkFrame s c r n)
  = if truthy (output_key s)
    then (Ok (key_in E (output_key s) r), mkFrame s c r n)
    else (Ok (key_in E (output_key s) r),
          mkFrame (set_output_key (Some (generate_random_string E r)) s) c
            (S r) n).
Proof.
  unfold get_output_key. rewrite bind_run. unfold gets at 1. cbn [self].
  by destruct (output_key s) as [[|a k]|].
Qed.

Lemma get_input_key_run {T} `{StepLike T} (E : Env) (s : T) (c : Ctx)
    (r n : nat) :
  get_input_key E (mkFrame s c r n)
  = if truthy (input_key s)
    then (Ok (key_in E (input_key s) r), mkFrame s c r n)
    else (Ok (key_in E (input_key s) r),
          mkFrame (set_input_key (Some (generate_random_string E r)) s) c
            (S r) n).
Proof.
  unfold get_input_key. rewrite bind_run. unfold gets at 1. cbn [self].
  by destruct (input_key s) as [[|a k]|].
Qed.

Lemma Step_output_key_set (k : option string) (s : Step) :
  output_key (set_output_key k s) = k.
Proof. by destruct s. Qed.

(** The key [get_output_key] returns is the output key of the step from
    then on. *)
Lemma get_output_key_spec (E : Env) (s : Step) (c : Ctx) (r n : nat) :
  ∃ key fr, get_output_key E (mkFrame s c r n) = (Ok key, fr)
            ∧ output_key (self fr) = Some key ∧ ctx fr = c.
Proof.
  rewrite get_output_key_run. unfold key_in.
  destruct (output_key s) as [[|a k]|] eqn:Hk; cbn [truthy];
    eexists _, _; (split; [reflexivity|]); cbn [self ctx];
    rewrite ?Step_output_key_set; done.
Qed.

Lemma read_result_some (E : Env) (st : State) (p : nat) :
  previous_step st = Some p →
  ∃ key st', read_result E st = (Ok (Some (Context_get key (context st'))), st')
             ∧ output_key (steps st' p) = Some key
             ∧ context st' = context st.
Proof.
  intros Hp. unfold read_result. rewrite bind_run. unfold gets at 1.
  rewrite Hp, bind_run. unfold on_step.
  destruct (get_output_key_spec E (steps st p) (context st) (rnd_used st)
              (calls_made st)) as (key & fr & -> & Hkey & Hctx).
  rewrite bind_run. unfold gets at 1. unfold mret, M_ret.
  eexists _, _. split; [reflexivity|]. cbn [steps context].
  by rewrite fn_lookup_insert.
Qed.

(** C10.  A pipeline without steps returns the empty list, whatever the
    initial context, and runs nothing.  A pipeline with a last step, run
    in single-pass mode, returns instead the single value that the
    Context holds under the output key of that step. *)
Theorem Pipeline_execute_empty (E : Env) (st : State) (ic : option Ctx) :
  (nodes (graph st) = [] → previous_step st = None →
   Pipeline_execute E ic st
   = (Ok (OList []), set_context (fun _ => Context_init ic) st))
  ∧ (∀ p order out st',
       previous_step st = Some p →
       topological_sort (graph st) = Ok order →
       (∀ first d, head order = Some first → steps st first ≠ Source d) →
       Pipeline_execute E ic st = (Ok out, st') →
       ∃ key, output_key (steps st' p) = Some key
              ∧ out = OValue (Context_get key (context st'))).
Proof.
  split.
  - intros Hn Hp. unfold Pipeline_execute. unfold_monad. simpl.
    rewrite (topological_sort_no_nodes _ Hn). simpl.
    unfold single_pass, read_result. unfold_monad. simpl. by rewrite Hp.
  - intros p order out st' Hp Hsort Hfirst.
    unfold Pipeline_execute. rewrite bind_run. unfold modify at 1.
    rewrite bind_run. unfold gets at 1. simpl graph.
    rewrite bind_run, Hsort, bind_run. unfold gets at 1. simpl steps.
    assert (Hsingle : single_pass E order
                        (set_context (fun _ => Context_init ic) st)
                      = (Ok out, st') →
            ∃ key, output_key (steps st' p) = Some key
                   ∧ out = OValue (Context_get key (context st'))).
    { unfold single_pass. rewrite bind_run.
      assert (Hsettle : settles None (for_each order (_execute_step E))).
      { apply settles_for_each. intros x _.
        by apply settles_execute_step. }
      specialize (Hsettle (set_context (fun _ => Context_init ic) st)).
      destruct (for_each order (_execute_step E) _) as [[[]|e|] st1] eqn:Hrun;
        [|done..].
      destruct Hsettle as [_ Hprev _ _]. simpl in Hprev.
      assert (Hp1 : previous_step st1 = Some p) by congruence.
      rewrite bind_run.
      destruct (read_result_some E st1 p Hp1) as (key & st2 & -> & Hkey & _).
      intros [= <- <-]. eauto. }
    destruct (head order) as [first|] eqn:Hhead; simpl; [|done].
    destruct (steps st first) as [x|x|x|x] eqn:Hs; try done.
    by destruct (Hfirst first x).
Qed.

(** The empty pipeline returns [[]]; the one-step pipeline
    [Hello {name}], run with [name -> Ada], returns the string stored
    under [greeting]. *)
Lemma Pipeline_execute_empty_witness :
  Pipeline_execute sample_env None (Pipeline_init empty_store 0)
  = (Ok (OList []),
     set_context (fun _ => Context_init None) (Pipeline_init empty_store 0))
  ∧ ∃ key,
      output_key
        (steps (Pipeline_execute sample_env (Some ada) hello_pipeline).2 0)
      = Some key
      ∧ OValue (VStr "Hello Ada")
        = OValue (Context_get key
                    (context
                       (Pipeline_execute sample_env (Some ada)
                          hello_pipeline).2)).
Proof.
  split.
  - apply (Pipeline_execute_empty sample_env (Pipeline_init empty_store 0)
             None); reflexivity.
  - apply (proj2 (Pipeline_execute_empty sample_env hello_pipeline (Some ada))
             0 [0]).
    + reflexivity.
    + vm_compute. reflexivity.
    + intros first d [= <-]. discriminate.
    + vm_compute. reflexivity.
Defined.

(** C2 fails on the code: a dataset without a length stops the run.
    When the first step is a Source over a generator, [execute] raises
    [TypeError] from [len], before any record is fetched and before any
    step runs. *)
Theorem Pipeline_execute_unsized (E : Env) (st : State) (ic : option Ctx)
    (first : nat) (order : list nat) (d : DatasetStep) (items : list record) :
  topological_sort (graph st) = Ok (first :: order) →
  steps st first = Source d →
  d_dataset d = Generator items →
  Pipeline_execute E ic st
  = (Raise (TypeError "object of type 'generator' has no len()"),
     set_context (fun _ => Context_init ic) st).
Proof.
  intros Hsort Hfirst Hgen. unfold Pipeline_execute.
  rewrite bind_run. unfold modify at 1.
  rewrite bind_run. unfold gets at 1. simpl graph.
  rewrite bind_run, Hsort, bind_run. unfold gets at 1. simpl.
  rewrite Hfirst, Hgen. reflexivity.
Qed.

(** A generator of two records, an input and an output key, an
    upper-casing step: the run fails at once. *)
Lemma Pipeline_execute_unsized_witness :
  Pipeline_execute sample_env None (qa_pipeline (Generator qa_records) uppercase)
  = (Raise (TypeError "object of type 'generator' has no len()"),
     set_context (fun _ => Context_init None)
       (qa_pipeline (Generator qa_records) uppercase)).
Proof.
  apply (Pipeline_execute_unsized sample_env _ None 0 [1]
           (DatasetStep_init (Generator qa_records) (Some "q") (Some "q")
              None None) qa_records); reflexivity.
Defined.

(** ** Topological sorting *)

(** *** Decrementing a map of counts *)

Lemma filter_ext_elem {A} (P Q : A → Prop) `{!∀ x, Decision (P x)}
    `{!∀ x, Decision (Q x)} (l : list A) :
  (∀ x, x ∈ l → P x ↔ Q x) → filter P l = filter Q l.
Proof.
  induction l as [|a l IH]; intros Heq; [done|].
  rewrite !filter_cons, IH by (intros x Hx; apply Heq; by right).
  apply decide_ext, Heq. by left.
Qed.

Lemma relax_counts (k : nat → nat) (m : gmap nat Z) (zero : list nat)
    (c : nat) :
  counts_ok k m → 0 < k c →
  ∃ m', relax (m, zero) c
        = inl (m', zero ++ (if decide (k c = 1) then [c] else []))
        ∧ counts_ok (fun v => if decide (v = c) then k v - 1 else k v) m'.
Proof.
  intros Hm Hc. unfold relax. cbn [fst snd]. rewrite (Hm c).
  destruct (decide (k c = 0)) as [|_]; [lia|].
  destruct (decide (k c = 1)) as [H1|H1].
  - rewrite bool_decide_eq_true_2 by lia. eexists. split; [done|].
    intros v. destruct (decide (v = c)) as [->|Hv].
    + rewrite lookup_delete_eq. destruct (decide _); [done|lia].
    + rewrite lookup_delete_ne by done. apply Hm.
  - rewrite bool_decide_eq_false_2 by lia. eexists. split.
    { by rewrite app_nil_r. }
    intros v. destruct (decide (v = c)) as [->|Hv].
    + rewrite lookup_insert_eq. destruct (decide _); [lia|].
      f_equal. lia.
    + rewrite lookup_insert_ne by done. apply Hm.
Qed.

Lemma counts_ok_ext (k k' : nat → nat) (m : gmap nat Z) :
  (∀ v, k v = k' v) → counts_ok k m → counts_ok k' m.
Proof. intros Heq Hm v. rewrite <- Heq. apply Hm. Qed.

Lemma relax_all_counts (k : nat → nat) (m : gmap nat Z) (zero cs : list nat) :
  NoDup cs → counts_ok k m → (∀ c, c ∈ cs → 0 < k c) →
  ∃ m', relax_all (m, zero) cs
        = inl (m', zero ++ filter (fun c => k c = 1) cs)
        ∧ counts_ok (fun v => k v - (if decide (v ∈ cs) then 1 else 0)) m'.
Proof.
  revert k m zero. induction cs as [|c cs IH]; intros k m zero Hnd Hm Hpos.
  { exists m. split; [by rewrite app_nil_r|].
    eapply counts_ok_ext; [|done]. intros v.
    destruct (decide (v ∈ [])) as [Hv|_]; [by apply elem_of_nil in Hv|lia]. }
  apply NoDup_cons in Hnd as [Hc Hnd].
  destruct (relax_counts k m zero c Hm) as (m1 & Hr & Hm1).
  { apply Hpos. by left. }
  destruct (IH _ m1 (zero ++ (if decide (k c = 1) then [c] else [])) Hnd Hm1)
    as (m2 & Hr2 & Hm2).
  { intros c' Hc'. destruct (decide (c' = c)) as [->|_]; [done|].
    apply Hpos. by right. }
  exists m2. split.
  - cbn [relax_all]. rewrite Hr, Hr2. f_equal. f_equal.
    rewrite <- app_assoc. f_equal. rewrite filter_cons.
    assert (Hsame : filter (fun c0 => (if decide (c0 = c) then k c0 - 1
                                       else k c0) = 1) cs
                    = filter (fun c0 => k c0 = 1) cs).
    { apply filter_ext_elem. intros c' Hc'.
      destruct (decide (c' = c)) as [->|_]; done. }
    rewrite Hsame. by destruct (decide (k c = 1)).
  - eapply counts_ok_ext; [|done]. intros v. cbn beta.
    destruct (decide (v = c)) as [->|Hv].
    + destruct (decide (c ∈ cs)); [done|].
      destruct (decide (c ∈ c :: cs)) as [_|Hn]; [lia|].
      exfalso. apply Hn. by left.
    + destruct (decide (v ∈ cs)) as [Hin|Hin];
        destruct (decide (v ∈ c :: cs)) as [Hin'|Hin']; try lia.
      * exfalso. apply Hin'. by right.
      * apply elem_of_cons in Hin' as [?|?]; done.
Qed.

(** *** Successors, predecessors and pending counts *)

Lemma elem_of_successors (g : DiGraph) (u v : nat) :
  v ∈ successors g u ↔ (u, v) ∈ edges g.
Proof.
  unfold successors. rewrite list_elem_of_fmap. split.
  - intros ([u' v'] & -> & Hin). apply list_elem_of_filter in Hin as [Heq Hin].
    simpl in *. by subst.
  - intros Hin. exists (u, v). split; [done|].
    by apply list_elem_of_filter.
Qed.

Lemma elem_of_predecessors (g : DiGraph) (u v : nat) :
  u ∈ predecessors g v ↔ (u, v) ∈ edges g.
Proof.
  unfold predecessors. rewrite list_elem_of_fmap. split.
  - intros ([u' v'] & -> & Hin). apply list_elem_of_filter in Hin as [Heq Hin].
    simpl in *. by subst.
  - intros Hin. exists (u, v). split; [done|].
    by apply list_elem_of_filter.
Qed.

Lemma NoDup_successors (g : DiGraph) (u : nat) :
  NoDup (edges g) → NoDup (successors g u).
Proof.
  intros Hnd. unfold successors. apply NoDup_fmap_2_strong.
  - intros [u1 v1] [u2 v2] H1 H2 Heq.
    apply list_elem_of_filter in H1 as [H1 _].
    apply list_elem_of_filter in H2 as [H2 _]. simpl in *. congruence.
  - by apply NoDup_filter.
Qed.

Lemma NoDup_predecessors (g : DiGraph) (v : nat) :
  NoDup (edges g) → NoDup (predecessors g v).
Proof.
  intros Hnd. unfold predecessors. apply NoDup_fmap_2_strong.
  - intros [u1 v1] [u2 v2] H1 H2 Heq.
    apply list_elem_of_filter in H1 as [H1 _].
    apply list_elem_of_filter in H2 as [H2 _]. simpl in *. congruence.
  - by apply NoDup_filter.
Qed.

Lemma pending_preds_zero (g : DiGraph) (done : list nat) (v : nat) :
  pending_preds g done v = 0 ↔ ∀ u, (u, v) ∈ edges g → u ∈ done.
Proof.
  unfold pending_preds. rewrite length_zero_iff_nil. split.
  - intros Hnil u Hu. apply elem_of_predecessors in Hu.
    destruct (decide (u ∈ done)) as [|Hn]; [done|].
    assert (u ∈ filter (fun u => u ∉ done) (predecessors g v)) as Hin
      by by apply list_elem_of_filter.
    rewrite Hnil in Hin. by apply elem_of_nil in Hin.
  - intros Hall. apply elem_of_nil_inv. intros u Hu.
    apply list_elem_of_filter in Hu as [Hn Hu].
    apply Hn, Hall. by apply elem_of_predecessors.
Qed.

Lemma pending_preds_positive (g : DiGraph) (done : list nat) (u v : nat) :
  (u, v) ∈ edges g → u ∉ done → 0 < pending_preds g done v.
Proof.
  intros He Hn. destruct (pending_preds g done v) eqn:Hk; [|lia].
  exfalso. apply Hn. by apply (proj1 (pending_preds_zero g done v) Hk).
Qed.

Lemma length_filter_snoc (done l : list nat) (x : nat) :
  NoDup l → x ∉ done →
  length (filter (fun u => u ∉ done ++ [x]) l)
  = length (filter (fun u => u ∉ done) l) - (if decide (x ∈ l) then 1 else 0).
Proof.
  intros Hnd Hx. induction l as [|a l IH]; [done|].
  apply NoDup_cons in Hnd as [Ha Hnd]. specialize (IH Hnd).
  rewrite !filter_cons.
  destruct (decide (a = x)) as [->|Hax].
  - destruct (decide (x ∉ done ++ [x])) as [Hn|_].
    { exfalso. apply Hn. apply elem_of_app. right. by left. }
    destruct (decide (x ∉ done)); [|done].
    destruct (decide (x ∈ x :: l)) as [_|Hn]; [|exfalso; apply Hn; by left].
    rewrite IH. destruct (decide (x ∈ l)); [done|]. simpl. lia.
  - assert (Hiff : a ∉ done ++ [x] ↔ a ∉ done).
    { rewrite elem_of_app, list_elem_of_singleton. tauto. }
    assert (Hin : x ∈ a :: l ↔ x ∈ l).
    { rewrite elem_of_cons. split; [intros [?|?]|]; by auto. }
    rewrite (decide_ext _ _ _ _ Hiff).
    destruct (decide (a ∉ done)); simpl; rewrite IH.
    + destruct (decide (x ∈ l)) as [Hl|Hl];
        destruct (decide (x ∈ a :: l)) as [Hl'|Hl']; try tauto; try lia.
      assert (0 < length (filter (fun u => u ∉ done) l)); [|lia].
      assert (x ∈ filter (fun u => u ∉ done) l) as Hf
        by by apply list_elem_of_filter.
      apply list_elem_of_lookup in Hf as [i Hi].
      apply lookup_lt_Some in Hi. lia.
    + destruct (decide (x ∈ l)) as [Hl|Hl];
        destruct (decide (x ∈ a :: l)) as [Hl'|Hl']; tauto.
Qed.

Lemma pending_preds_snoc (g : DiGraph) (done : list nat) (x v : nat) :
  NoDup (edges g) → x ∉ done →
  pending_preds g (done ++ [x]) v
  = pending_preds g done v - (if decide (v ∈ successors g x) then 1 else 0).
Proof.
  intros Hnd Hx. unfold pending_preds.
  rewrite length_filter_snoc by auto using NoDup_predecessors.
  assert (Hiff : x ∈ predecessors g v ↔ v ∈ successors g x)
    by by rewrite elem_of_predecessors, elem_of_successors.
  by rewrite (decide_ext _ _ _ _ Hiff).
Qed.

Lemma on_cycle_pred (g : DiGraph) (v : nat) :
  on_cycle g v → ∃ u, (u, v) ∈ edges g ∧ on_cycle g u.
Proof.
  unfold on_cycle. intros Hc.
  assert (Hlast : ∀ x y, tc (edge g) x y →
                         ∃ u, rtc (edge g) x u ∧ edge g u y).
  { intros x y H. induction H as [x y H|x y z H _ (u & Hu & Hl)].
    - exists x. split; [done|done].
    - exists u. split; [|done]. by eapply rtc_l. }
  destruct (Hlast v v Hc) as (u & Hvu & Huv).
  exists u. split; [done|].
  eapply tc_rtc_r; [by apply tc_once|done].
Qed.

(** *** The invariant of the algorithm *)

Lemma kahn_node (g : DiGraph) (done pend zero : list nat) (x : nat)
    (m : gmap nat Z) :
  graph_wf g → kahn_inv g done (x :: pend) m →
  ∃ m' new, relax_all (m, zero) (successors g x) = inl (m', zero ++ new)
            ∧ kahn_inv g (done ++ [x]) (pend ++ new) m'.
Proof.
  intros [Hnodes Hedges Hends] [Hcounts Hnd Hseen Hacyc].
  assert (Hx : x ∉ done).
  { apply NoDup_app in Hnd as (_ & Hdisj & _). intros Hin.
    apply (Hdisj x Hin). by left. }
  destruct (relax_all_counts (pending_preds g done) m zero (successors g x))
    as (m' & Hrun & Hcounts'); [by apply NoDup_successors|done| |].
  { intros c Hc. apply elem_of_successors in Hc.
    by eapply pending_preds_positive. }
  exists m', (filter (fun c => pending_preds g done c = 1) (successors g x)).
  split; [done|].
  assert (Hshape : ∀ new : list nat,
            (done ++ [x]) ++ pend ++ new = (done ++ x :: pend) ++ new).
  { intros new. by rewrite <- !app_assoc. }
  split.
  - eapply counts_ok_ext; [|done]. intros v. cbn beta.
    by rewrite pending_preds_snoc.
  - rewrite Hshape. apply NoDup_app. split; [done|]. split.
    + intros y Hy Hnew. apply list_elem_of_filter in Hnew as [H1 _].
      apply Hseen in Hy as [_ H0]. lia.
    + by apply NoDup_filter, NoDup_successors.
  - intros v. rewrite Hshape, elem_of_app, Hseen, list_elem_of_filter.
    rewrite pending_preds_snoc by done.
    destruct (decide (v ∈ successors g x)) as [Hin|Hin].
    + split.
      * intros [[? ?]|[? ?]]; (split; [|lia]); [done|].
        apply elem_of_successors in Hin. by apply (Hends x v).
      * intros [Hv H0].
        destruct (decide (pending_preds g done v = 0)); [by left|].
        right. split; [lia|done].
    + split.
      * intros [[? ?]|[? ?]]; [|done]. split; [done|lia].
      * intros [Hv H0]. left. split; [done|lia].
  - intros v. rewrite Hshape, elem_of_app. intros [Hv|Hv]; [by apply Hacyc|].
    apply list_elem_of_filter in Hv as [H1 Hv].
    intros Hcyc. apply on_cycle_pred in Hcyc as (u & Hu & Hcyc).
    assert (Hu' : u ∈ done ++ [x]).
    { apply (proj1 (pending_preds_zero g (done ++ [x]) v)); [|done].
      rewrite pending_preds_snoc by done.
      rewrite decide_True by done. lia. }
    apply (Hacyc u); [|done].
    apply elem_of_app in Hu' as [?|Hux]; apply elem_of_app; [by left|].
    right. apply list_elem_of_singleton in Hux as ->. by left.
Qed.

Lemma kahn_generation (g : DiGraph) (done this zero : list nat)
    (m : gmap nat Z) :
  graph_wf g → kahn_inv g done (this ++ zero) m →
  ∃ m' new, process_generation g (m, zero) this = inl (m', zero ++ new)
            ∧ kahn_inv g (done ++ this) (zero ++ new) m'.
Proof.
  intros Hwf. revert done zero m.
  induction this as [|x rest IH]; intros done zero m Hinv.
  { exists m, []. rewrite !app_nil_r. done. }
  destruct (kahn_node g done (rest ++ zero) zero x m Hwf Hinv)
    as (m1 & new1 & Hrun1 & Hinv1).
  rewrite <- app_assoc in Hinv1.
  destruct (IH _ _ _ Hinv1) as (m2 & new2 & Hrun2 & Hinv2).
  exists m2, (new1 ++ new2). cbn [process_generation].
  rewrite Hrun1, Hrun2. rewrite <- !app_assoc in *. done.
Qed.

Lemma indegree_map_lookup (g : DiGraph) (l : list nat) (v : nat) :
  (list_to_map
     (omap (fun v => if bool_decide (0 < in_degree g v)
                     then Some (v, Z.of_nat (in_degree g v)) else None) l)
   : gmap nat Z) !! v
  = if decide (v ∈ l ∧ in_degree g v ≠ 0)
    then Some (Z.of_nat (in_degree g v)) else None.
Proof.
  induction l as [|a l IH].
  { cbn [omap list_omap list_to_map foldr]. rewrite lookup_empty.
    destruct (decide _) as [[H _]|_]; [by apply elem_of_nil in H|done]. }
  cbn [omap list_omap]. fold (@omap list _ nat (nat * Z)).
  case_bool_decide as Ha.
  - cbn [list_to_map foldr]. fold (@list_to_map nat Z (gmap nat Z) _ _).
    destruct (decide (a = v)) as [->|Hne].
    + cbn. rewrite lookup_insert_eq.
      rewrite decide_True; [done|]. split; [by left|lia].
    + cbn. rewrite lookup_insert_ne by done. rewrite IH.
      apply decide_ext. rewrite elem_of_cons.
      split; [intros [? ?]; by auto|].
      intros [[?|?] ?]; [congruence|done].
  - rewrite IH. apply decide_ext. rewrite elem_of_cons.
    split; [intros [? ?]; by auto|]. intros [[->|?] ?]; [lia|done].
Qed.

Lemma pending_preds_nil (g : DiGraph) (v : nat) :
  pending_preds g [] v = in_degree g v.
Proof.
  unfold pending_preds, in_degree. f_equal.
  induction (predecessors g v) as [|a l IH]; [done|].
  rewrite filter_cons, decide_True; [by rewrite IH|].
  intros H. by apply elem_of_nil in H.
Qed.

Lemma kahn_init (g : DiGraph) :
  graph_wf g → kahn_inv g [] (zero_indegree g) (indegree_map g).
Proof.
  intros [Hnodes Hedges Hends]. split.
  - intros v. unfold indegree_map. rewrite indegree_map_lookup.
    rewrite pending_preds_nil.
    destruct (decide (in_degree g v = 0)) as [H0|H0].
    + rewrite decide_False; [done|]. by intros [_ ?].
    + rewrite decide_True; [done|]. split; [|done].
      unfold in_degree in H0.
      destruct (predecessors g v) as [|u l] eqn:Hp; [done|].
      assert (u ∈ predecessors g v) as Hu by (rewrite Hp; by left).
      apply elem_of_predecessors in Hu. by apply (Hends u v).
  - simpl. by apply NoDup_filter.
  - intros v. simpl. unfold zero_indegree.
    rewrite list_elem_of_filter, pending_preds_nil. tauto.
  - intros v. simpl. unfold zero_indegree. rewrite list_elem_of_filter.
    intros [H0 _] Hcyc. apply on_cycle_pred in Hcyc as (u & Hu & _).
    apply elem_of_predecessors in Hu. unfold in_degree in H0.
    destruct (predecessors g v); [by apply elem_of_nil in Hu|done].
Qed.

Lemma kahn_generations (fuel : nat) (g : DiGraph) (m : gmap nat Z)
    (zero yielded : list nat) :
  graph_wf g → kahn_inv g yielded zero m →
  (length (nodes g) ≤ length yielded + fuel)%nat →
  match generations fuel g m zero yielded with
  | Ok order =>
      ¬ has_cycle g ∧ NoDup order ∧ ∀ v, v ∈ order ↔ v ∈ nodes g
  | Raise e => e = NetworkXUnfeasible
  | Unfinished => False
  end.
Proof.
  intros Hwf. revert m zero yielded.
  induction fuel as [|fuel IH]; intros m zero yielded Hinv Hlen.
  - destruct zero as [|x zero].
    + simpl. case_bool_decide as Hm; [|done].
      destruct Hinv as [Hcounts Hnd Hseen Hacyc].
      rewrite app_nil_r in *.
      assert (Hall : ∀ v, v ∈ nodes g → v ∈ yielded).
      { intros v Hv. apply Hseen. split; [done|].
        specialize (Hcounts v). rewrite Hm, lookup_empty in Hcounts.
        by destruct (decide (pending_preds g yielded v = 0)). }
      split; [|split; [done|]].
      * intros [v Hv]. apply (Hacyc v); [|done]. apply Hall.
        apply on_cycle_pred in Hv as (u & Hu & _).
        by apply (wf_ends g Hwf u v).
      * intros v. split; [|by apply Hall]. intros Hv. by apply Hseen.
    + simpl. destruct Hinv as [_ Hnd Hseen _].
      assert (length (yielded ++ x :: zero) ≤ length (nodes g))%nat as Hle.
      { apply submseteq_length, NoDup_submseteq; [done|].
        intros v Hv. by apply Hseen. }
      rewrite length_app in Hle. simpl in Hle. lia.
  - destruct zero as [|x zero].
    + simpl. case_bool_decide as Hm; [|done].
      destruct Hinv as [Hcounts Hnd Hseen Hacyc].
      rewrite app_nil_r in *.
      assert (Hall : ∀ v, v ∈ nodes g → v ∈ yielded).
      { intros v Hv. apply Hseen. split; [done|].
        specialize (Hcounts v). rewrite Hm, lookup_empty in Hcounts.
        by destruct (decide (pending_preds g yielded v = 0)). }
      split; [|split; [done|]].
      * intros [v Hv]. apply (Hacyc v); [|done]. apply Hall.
        apply on_cycle_pred in Hv as (u & Hu & _).
        by apply (wf_ends g Hwf u v).
      * intros v. split; [|by apply Hall]. intros Hv. by apply Hseen.
    + cbn [generations].
      destruct (kahn_generation g yielded (x :: zero) [] m Hwf)
        as (m' & new & Hrun & Hinv'); [by rewrite app_nil_r|].
      rewrite Hrun. simpl app. apply IH; [done|].
      rewrite length_app. simpl. lia.
Qed.

(** [nx.topological_sort] always ends; on a graph with a cycle it raises
    [NetworkXUnfeasible], and any order it returns lists every node
    once. *)
Lemma topological_sort_spec (g : DiGraph) :
  graph_wf g →
  match topological_sort g with
  | Ok order =>
      ¬ has_cycle g ∧ NoDup order ∧ ∀ v, v ∈ order ↔ v ∈ nodes g
  | Raise e => e = NetworkXUnfeasible
  | Unfinished => False
  end.
Proof.
  intros Hwf. apply kahn_generations; [done|by apply kahn_init|simpl; lia].
Qed.

Lemma topological_sort_cycle (g : DiGraph) :
  graph_wf g → has_cycle g → topological_sort g = Raise NetworkXUnfeasible.
Proof.
  intros Hwf Hcyc. pose proof (topological_sort_spec g Hwf) as Hspec.
  destruct (topological_sort g) as [order|e|]; [|by subst|done].
  by destruct Hspec as [Hno _].
Qed.

(** *** Graphs built by [add_node] and [add_edge] are well formed *)

Lemma empty_graph_wf : graph_wf empty_graph.
Proof.
  split; simpl; [constructor..|].
  intros u v H. by apply elem_of_nil in H.
Qed.

Lemma add_node_wf (n : nat) (g : DiGraph) :
  graph_wf g → graph_wf (add_node n g).
Proof.
  intros [Hnodes Hedges Hends]. unfold add_node.
  case_bool_decide as Hn; [done|]. split; simpl; [|done|].
  - apply NoDup_app. split; [done|]. split; [|apply NoDup_singleton].
    intros x Hx Hx'. apply list_elem_of_singleton in Hx'. by subst.
  - intros u v He. destruct (Hends u v He).
    split; apply elem_of_app; by left.
Qed.

Lemma elem_of_add_node (n m : nat) (g : DiGraph) :
  m ∈ nodes (add_node n g) ↔ m = n ∨ m ∈ nodes g.
Proof.
  unfold add_node. case_bool_decide as Hn; simpl.
  - split; [by right|]. by intros [->|?].
  - rewrite elem_of_app, list_elem_of_singleton. tauto.
Qed.

Lemma add_edge_wf (u v : nat) (g : DiGraph) :
  graph_wf g → graph_wf (add_edge u v g).
Proof.
  intros Hwf. unfold add_edge.
  pose proof (add_node_wf v _ (add_node_wf u g Hwf)) as [Hnodes Hedges Hends].
  case_bool_decide as He; [done|]. split; simpl; [done| |].
  - apply NoDup_app. split; [done|]. split; [|apply NoDup_singleton].
    intros x Hx Hx'. apply list_elem_of_singleton in Hx'. by subst.
  - intros a b Hab. apply elem_of_app in Hab as [Hab|Hab]; [by apply Hends|].
    apply list_elem_of_singleton in Hab as [= -> ->].
    rewrite !elem_of_add_node. tauto.
Qed.

(** [Pipeline.add_step] keeps the graph well formed. *)
Lemma Pipeline_add_step_wf (step : nat) (st : State) :
  graph_wf (graph st) → graph_wf (graph (Pipeline_add_step step st).2).
Proof.
  intros Hwf. unfold Pipeline_add_step. unfold_monad. simpl.
  destruct (previous_step st); simpl; auto using add_node_wf, add_edge_wf.
Qed.

(** C6.  On a graph with a cycle [execute] ends by raising
    [NetworkXUnfeasible] (the graph error) from the topological sort: no
    step has run, and nothing but the fresh Context was changed. *)
Theorem Pipeline_execute_cycle (E : Env) (st : State) (ic : option Ctx) :
  graph_wf (graph st) → has_cycle (graph st) →
  Pipeline_execute E ic st
  = (Raise NetworkXUnfeasible, set_context (fun _ => Context_init ic) st).
Proof.
  intros Hwf Hcyc. unfold Pipeline_execute.
  rewrite bind_run. unfold modify at 1.
  rewrite bind_run. unfold gets at 1. simpl graph.
  by rewrite bind_run, (topological_sort_cycle _ Hwf Hcyc).
Qed.

Lemma cyclic_pipeline_wf : graph_wf (graph cyclic_pipeline).
Proof.
  replace (graph cyclic_pipeline) with (add_edge 1 0 (add_edge 0 1 empty_graph))
    by (vm_compute; reflexivity).
  apply add_edge_wf, add_edge_wf, empty_graph_wf.
Qed.

(** The pipeline with edges [A -> B] and [B -> A] is rejected. *)
Lemma Pipeline_execute_cycle_witness :
  Pipeline_execute sample_env None cyclic_pipeline
  = (Raise NetworkXUnfeasible,
     set_context (fun _ => Context_init None) cyclic_pipeline).
Proof.
  apply (Pipeline_execute_cycle sample_env cyclic_pipeline None).
  - apply cyclic_pipeline_wf.
  - exists 0. apply (tc_l _ 0 1 0).
    + vm_compute. apply list_elem_of_In. simpl. tauto.
    + apply tc_once. vm_compute. apply list_elem_of_In. simpl. tauto.
Defined.

(** ** Depth-first search *)

Lemma dfs_visit_extends (fuel : nat) (g : DiGraph) (v : nat)
    (seen : list nat) :
  ∃ new, dfs_visit fuel g v seen = new ++ seen.
Proof.
  revert v seen. induction fuel as [|fuel IH]; intros v seen.
  { by exists []. }
  simpl. case_bool_decide; [by exists []|].
  assert (Hfold : ∀ cs acc, ∃ new,
            foldl (fun acc c => dfs_visit fuel g c acc) acc cs = new ++ acc).
  { induction cs as [|c cs IHcs]; intros acc; [by exists []|].
    simpl. destruct (IH c acc) as [new1 ->].
    destruct (IHcs (new1 ++ acc)) as [new2 ->].
    exists (new2 ++ new1). by rewrite app_assoc. }
  destruct (Hfold (successors g v) (v :: seen)) as [new ->].
  exists (new ++ [v]). by rewrite <- app_assoc.
Qed.

Lemma unseen_mono (g : DiGraph) (seen new : list nat) :
  unseen g (new ++ seen) ≤ unseen g seen.
Proof.
  unfold unseen. induction (nodes g) as [|a l IH]; [done|].
  rewrite !filter_cons.
  destruct (decide (a ∉ new ++ seen)) as [Hn|Hn];
    destruct (decide (a ∉ seen)) as [Hs|Hs]; simpl; try lia.
  exfalso. apply Hs. intros Ha. apply Hn, elem_of_app. by right.
Qed.

Lemma unseen_cons (g : DiGraph) (seen : list nat) (v : nat) :
  v ∈ nodes g → v ∉ seen → unseen g (v :: seen) < unseen g seen.
Proof.
  intros Hv Hs. unfold unseen.
  induction (nodes g) as [|a l IH]; [by apply elem_of_nil in Hv|].
  rewrite !filter_cons.
  pose proof (unseen_mono (mkDiGraph l []) seen [v]) as Hmono.
  unfold unseen in Hmono. simpl in Hmono.
  destruct (decide (a = v)) as [->|Hne].
  - rewrite decide_False by (intros Hn; apply Hn; by left).
    rewrite decide_True by done. simpl. lia.
  - apply elem_of_cons in Hv as [?|Hv]; [congruence|].
    specialize (IH Hv).
    destruct (decide (a ∉ v :: seen)) as [Hn|Hn];
      destruct (decide (a ∉ seen)) as [Hs'|Hs']; simpl; try lia.
    exfalso. apply Hs'. intros Ha. apply Hn. by right.
Qed.

(** Fuel beyond the number of unseen nodes makes no difference. *)
Lemma dfs_visit_fuel (g : DiGraph) (fuel1 fuel2 : nat) (v : nat)
    (seen : list nat) :
  graph_wf g → v ∈ nodes g →
  unseen g seen < fuel1 → unseen g seen < fuel2 →
  dfs_visit fuel1 g v seen = dfs_visit fuel2 g v seen.
Proof.
  intros Hwf. revert fuel2 v seen.
  induction fuel1 as [|fuel1 IH]; intros fuel2 v seen Hv H1 H2; [lia|].
  destruct fuel2 as [|fuel2]; [lia|].
  simpl. case_bool_decide as Hseen; [done|].
  pose proof (unseen_cons g seen v Hv Hseen) as Hlt.
  assert (Hfold : ∀ cs acc,
            (∀ c, c ∈ cs → c ∈ nodes g) →
            unseen g acc < fuel1 → unseen g acc < fuel2 →
            foldl (fun acc c => dfs_visit fuel1 g c acc) acc cs
            = foldl (fun acc c => dfs_visit fuel2 g c acc) acc cs).
  { induction cs as [|c cs IHcs]; intros acc Hcs Ha1 Ha2; [done|].
    simpl. rewrite (IH fuel2 c acc) by (auto; apply Hcs; by left).
    destruct (dfs_visit_extends fuel2 g c acc) as [new ->].
    pose proof (unseen_mono g acc new).
    apply IHcs; [|lia..]. intros c' Hc'. apply Hcs. by right. }
  apply Hfold; [|lia..].
  intros c Hc. apply elem_of_successors in Hc.
  by apply (wf_ends g Hwf v c).
Qed.

Lemma unseen_nil (g : DiGraph) : unseen g [] = length (nodes g).
Proof.
  unfold unseen. generalize (nodes g) as l.
  induction l as [|a l IH]; [done|].
  rewrite filter_cons, decide_True; [simpl; by f_equal|].
  intros H. by apply elem_of_nil in H.
Qed.

(** The bound built into [dfs_preorder_nodes] is enough: any larger one
    gives the same traversal. *)
Lemma dfs_preorder_nodes_fuel (g : DiGraph) (source fuel : nat) :
  graph_wf g → source ∈ nodes g → length (nodes g) < fuel →
  dfs_preorder_nodes g source = rev (dfs_visit fuel g source []).
Proof.
  intros Hwf Hs Hfuel. unfold dfs_preorder_nodes. f_equal.
  apply dfs_visit_fuel; try done; rewrite unseen_nil; lia.
Qed.

(** The traversal visits no step twice. *)
Lemma dfs_visit_NoDup (fuel : nat) (g : DiGraph) (v : nat) (seen : list nat) :
  NoDup seen → NoDup (dfs_visit fuel g v seen).
Proof.
  revert v seen. induction fuel as [|fuel IH]; intros v seen Hnd; [done|].
  simpl. case_bool_decide as Hseen; [done|].
  assert (Hfold : ∀ cs acc, NoDup acc →
            NoDup (foldl (fun acc c => dfs_visit fuel g c acc) acc cs)).
  { induction cs as [|c cs IHcs]; intros acc Hacc; [done|].
    simpl. by apply IHcs, IH. }
  apply Hfold. by constructor.
Qed.

Lemma dfs_visit_keeps (fuel : nat) (g : DiGraph) (v : nat) (seen : list nat)
    (u : nat) :
  u ∈ seen → u ∈ dfs_visit fuel g v seen.
Proof.
  intros Hu. destruct (dfs_visit_extends fuel g v seen) as [new ->].
  apply elem_of_app. by right.
Qed.

(** What a visit with enough fuel adds to [seen]: the step itself, and
    only steps that are reachable from it, each with all its
    successors. *)
Lemma dfs_visit_closed (g : DiGraph) (fuel : nat) :
  graph_wf g →
  ∀ v seen,
    v ∈ nodes g → unseen g seen < fuel →
    v ∈ dfs_visit fuel g v seen
    ∧ ∀ u, u ∈ dfs_visit fuel g v seen → u ∉ seen →
           rtc (edge g) v u
           ∧ ∀ w, edge g u w → w ∈ dfs_visit fuel g v seen.
Proof.
  intros Hwf. induction fuel as [|fuel IH]; intros v seen Hv Hfuel; [lia|].
  simpl. case_bool_decide as Hseen; [by split|].
  pose proof (unseen_cons g seen v Hv Hseen) as Hlt.
  assert (Hfold : ∀ cs acc,
            (∀ c, c ∈ cs → edge g v c) → unseen g acc < fuel →
            let R := foldl (fun acc c => dfs_visit fuel g c acc) acc cs in
            (∀ u, u ∈ acc → u ∈ R)
            ∧ (∀ c, c ∈ cs → c ∈ R)
            ∧ ∀ u, u ∈ R → u ∉ acc →
                   rtc (edge g) v u ∧ ∀ w, edge g u w → w ∈ R).
  { induction cs as [|c cs IHcs]; intros acc Hcs Hacc R.
    { subst R. split; [done|]. split; [by intros c H%elem_of_nil|done]. }
    subst R. cbn [foldl].
    assert (Hvc : edge g v c) by (apply Hcs; by left).
    assert (Hc : c ∈ nodes g) by by apply (wf_ends g Hwf v c).
    destruct (IH c acc Hc Hacc) as [Hin Hnew].
    destruct (dfs_visit_extends fuel g c acc) as [new Hext].
    pose proof (unseen_mono g acc new) as Hmono. rewrite <- Hext in Hmono.
    destruct (IHcs (dfs_visit fuel g c acc)) as (Hkeep & Hall & Hrest);
      [intros c' Hc'; apply Hcs; by right|lia|].
    split_and!.
    - intros u Hu. by apply Hkeep, dfs_visit_keeps.
    - intros c' [->|Hc']%elem_of_cons; [by apply Hkeep|by apply Hall].
    - intros u Hu Hacc'.
      destruct (decide (u ∈ dfs_visit fuel g c acc)) as [Hu1|Hu1].
      + destruct (Hnew u Hu1 Hacc') as [Hreach Hsucc]. split.
        * by eapply rtc_l.
        * intros w Hw. by apply Hkeep, Hsucc.
      + by apply Hrest. }
  destruct (Hfold (successors g v) (v :: seen)) as (Hkeep & Hall & Hrest);
    [by intros c Hc%elem_of_successors|lia|].
  split; [apply Hkeep; by left|].
  intros u Hu Hus. destruct (decide (u = v)) as [->|Hne].
  - split; [done|]. intros w Hw. by apply Hall, elem_of_successors.
  - apply Hrest; [done|]. by intros [->|?]%elem_of_cons.
Qed.

(** [dfs_preorder_nodes] lists the steps that can be reached from the
    source, each once. *)
Lemma dfs_preorder_nodes_reach (g : DiGraph) (source : nat) :
  graph_wf g → source ∈ nodes g →
  NoDup (dfs_preorder_nodes g source)
  ∧ ∀ v, v ∈ dfs_preorder_nodes g source ↔ rtc (edge g) source v.
Proof.
  intros Hwf Hs. unfold dfs_preorder_nodes.
  destruct (dfs_visit_closed g (S (length (nodes g))) Hwf source [] Hs)
    as [Hin Hnew]; [rewrite unseen_nil; lia|].
  assert (Hnil : ∀ u : nat, u ∉ []) by (intros u H; by apply elem_of_nil in H).
  assert (Hrev : ∀ (l : list nat) v, v ∈ rev l ↔ v ∈ l).
  { intros l v. rewrite !list_elem_of_In. symmetry. apply in_rev. }
  split.
  - apply NoDup_ListNoDup, List.NoDup_rev, NoDup_ListNoDup.
    apply dfs_visit_NoDup. constructor.
  - intros v. rewrite Hrev. split.
    + intros Hv. by apply (Hnew v Hv).
    + intros Hreach.
      assert (Hclosed : ∀ x y, rtc (edge g) x y →
                x ∈ dfs_visit (S (length (nodes g))) g source [] →
                y ∈ dfs_visit (S (length (nodes g))) g source []).
      { intros x y Hxy. induction Hxy as [x|x y z Hxy _ IH]; [done|].
        intros Hx. apply IH. by apply (proj2 (Hnew x Hx (Hnil x)) y). }
      by apply (Hclosed source v).
Qed.

(** ** Steps always come to an end *)

Lemma finishes_ret {S A} (a : A) : finishes (mret a : M S A).
Proof. by intros s. Qed.

Lemma finishes_raise {S A} (e : exn) : finishes (raise e : M S A).
Proof. by intros s. Qed.

Lemma finishes_gets {S A} (f : S → A) : finishes (gets f).
Proof. by intros s. Qed.

Lemma finishes_modify {S} (f : S → S) : finishes (modify f).
Proof. by intros s. Qed.

Lemma finishes_lift {S A} (r : result A) : finishes (lift r : M S A).
Proof. by destruct r; intros s. Qed.

Lemma finishes_bind {S A B} (m : M S A) (k : A → M S B) :
  finishes m → (∀ a, finishes (k a)) → finishes (m ≫= k).
Proof.
  intros Hm Hk s. rewrite bind_run. specialize (Hm s).
  destruct (m s) as [[a|e|] s']; simpl in *; [apply Hk|done..].
Qed.

Lemma finishes_for_each {S A} (xs : list A) (body : A → M S unit) :
  (∀ x, finishes (body x)) → finishes (for_each xs body).
Proof.
  intros Hbody. induction xs as [|x xs IH]; simpl; [apply finishes_ret|].
  apply finishes_bind; [apply Hbody|]. by intros _.
Qed.

Lemma finishes_within {T U A} (u : U) (put : U → T → T) (m : M (Frame U) A) :
  finishes m → finishes (within u put m).
Proof.
  intros Hm fr. unfold within.
  specialize (Hm (mkFrame u (ctx fr) (rnd fr) (calls fr))).
  by destruct (m _).
Qed.

Lemma finishes_on_step {A} (n : nat) (m : M (Frame Step) A) :
  finishes m → finishes (on_step n m).
Proof.
  intros Hm st. unfold on_step.
  specialize (Hm (mkFrame (steps st n) (context st) (rnd_used st)
                    (calls_made st))).
  by destruct (m _).
Qed.

Lemma finishes_get_output_key {T} `{StepLike T} (E : Env) :
  finishes (get_output_key (T:=T) E).
Proof.
  intros [s c r n]. rewrite get_output_key_run. by destruct (truthy _).
Qed.

Lemma finishes_get_input_key {T} `{StepLike T} (E : Env) :
  finishes (get_input_key (T:=T) E).
Proof.
  intros [s c r n]. rewrite get_input_key_run. by destruct (truthy _).
Qed.

Ltac finishes_step :=
  first
    [ apply finishes_ret | apply finishes_raise | apply finishes_gets
    | apply finishes_modify | apply finishes_lift
    | apply finishes_get_output_key | apply finishes_get_input_key
    | apply finishes_bind; [|intros ?] ].

Lemma finishes_PromptStep_execute (E : Env) : finishes (PromptStep_execute E).
Proof. unfold PromptStep_execute, ctx_add. repeat finishes_step. Qed.

Lemma finishes_ModelStep_execute (E : Env) : finishes (ModelStep_execute E).
Proof.
  unfold ModelStep_execute, ctx_add, ctx_get.
  apply finishes_bind; [finishes_step|]. intros s.
  apply finishes_bind.
  - destruct (prompt_step s) as [p|]; repeat finishes_step.
    apply finishes_within, finishes_PromptStep_execute.
  - intros text. apply finishes_bind; [|intros ?; repeat finishes_step].
    intros fr. unfold invoke_model. by destruct (call_model _ _ _ _ _ _).
Qed.

Lemma finishes_ApplyStep_execute (E : Env) : finishes (ApplyStep_execute E).
Proof. unfold ApplyStep_execute, ctx_add, ctx_get. repeat finishes_step. Qed.

Lemma finishes_DatasetStep_execute : finishes DatasetStep_execute.
Proof.
  unfold DatasetStep_execute, _ensure_iterator, reset_iterator, set_self.
  apply finishes_bind; [finishes_step|]. intros _.
  apply finishes_bind.
  { intros fr. unfold next_item. by destruct (_iterator _) as [[|? ?]|]. }
  intros [item|]; [|repeat finishes_step].
  apply finishes_bind; [finishes_step|]. intros s.
  apply finishes_bind.
  { unfold store_target, ctx_add.
    destruct (target s) as [[|a t]|]; try finishes_step.
    repeat case_bool_decide; repeat finishes_step. }
  intros _. apply finishes_bind; [|intros _; finishes_step].
  unfold store_keys, ctx_add.
  apply finishes_bind; [|intros _].
  - destruct (input_key s) as [[|a k]|]; repeat finishes_step.
  - destruct (output_key s) as [[|a k]|]; repeat finishes_step.
Qed.

Lemma finishes_Step_execute (E : Env) : finishes (Step_execute E).
Proof.
  unfold Step_execute. apply finishes_bind; [finishes_step|].
  intros [p|m|a|d]; repeat finishes_step;
    apply finishes_within;
    auto using finishes_PromptStep_execute, finishes_ModelStep_execute,
      finishes_ApplyStep_execute, finishes_DatasetStep_execute.
Qed.

Lemma finishes_wire_inputs (E : Env) (step : nat) :
  finishes (wire_inputs E step).
Proof.
  unfold wire_inputs. apply finishes_bind; [finishes_step|]. intros g.
  apply finishes_for_each. intros pred.
  repeat (first [apply finishes_on_step | finishes_step]).
Qed.

Lemma finishes_execute_step (E : Env) (step : nat) :
  finishes (_execute_step E step).
Proof.
  unfold _execute_step.
  apply finishes_bind; [apply finishes_wire_inputs|]. intros _.
  apply finishes_bind; [|intros _; finishes_step].
  apply finishes_on_step, finishes_Step_execute.
Qed.

Lemma finishes_read_result (E : Env) : finishes (read_result E).
Proof.
  unfold read_result. apply finishes_bind; [finishes_step|].
  intros [p|]; repeat (first [apply finishes_on_step | finishes_step]).
Qed.

Lemma finishes_execute_from (E : Env) (start : nat) :
  finishes (_execute_from E start).
Proof.
  unfold _execute_from. apply finishes_bind; [finishes_step|]. intros g.
  apply finishes_bind; [|intros _].
  - apply finishes_for_each. intros step.
    case_bool_decide; [apply finishes_execute_step|finishes_step].
  - apply finishes_bind; [apply finishes_read_result|].
    intros r. finishes_step.
Qed.

(** ** The replay loop *)

Lemma store_target_self (s : DatasetStep) (item : record)
    (fr : Frame DatasetStep) :
  self (store_target s item fr).2 = self fr
  ∧ (store_target s item fr).1 ≠ Unfinished.
Proof.
  unfold store_target. unfold_monad.
  destruct (target s) as [[|a t]|]; simpl; try done.
  repeat case_bool_decide; simpl;
    repeat (match goal with
            | |- context [getitem ?i ?x] => destruct (getitem i x); simpl
            end); done.
Qed.

Lemma store_keys_self (s : DatasetStep) (item : record)
    (fr : Frame DatasetStep) :
  self (store_keys s item fr).2 = self fr
  ∧ (store_keys s item fr).1 ≠ Unfinished.
Proof.
  unfold store_keys. unfold_monad. simpl.
  destruct (d_input_key s) as [[|a1 k1]|], (d_output_key s) as [[|a2 k2]|];
    simpl; try done;
    repeat (match goal with
            | |- context [getitem ?i ?x] => destruct (getitem i x); simpl
            end); done.
Qed.

(** Calling [execute] on a Source step is calling
    [DatasetStep.execute] on it. *)
Lemma Step_execute_source (E : Env) (st : State) (first : nat)
    (d : DatasetStep) :
  steps st first = Source d →
  on_step first (Step_execute E) st
  = let (r, fr) := DatasetStep_execute
                     (mkFrame d (context st) (rnd_used st) (calls_made st)) in
    (r, mkState (<[first := Source (self fr)]> (steps st)) (allocated st)
          (graph st) (ctx fr) (previous_step st) (pbar st) (rnd fr)
          (calls fr)).
Proof.
  intros Hd. unfold on_step, Step_execute. rewrite bind_run.
  unfold gets at 1. cbn [self]. rewrite Hd. unfold within. cbn [self ctx rnd calls].
  by destruct (DatasetStep_execute _) as [r fr].
Qed.

(** An exhausted Source step returns [None]. *)
Lemma source_exhausted (E : Env) (st : State) (first : nat) (d : DatasetStep) :
  steps st first = Source d → remaining d = [] →
  ∃ st', on_step first (Step_execute E) st = (Ok (RVal VNone), st')
         ∧ pbar st' = pbar st ∧ context st' = context st.
Proof.
  intros Hd Hrem. rewrite (Step_execute_source E st first d Hd).
  rewrite (DatasetStep_execute_exhausted d _ _ _ Hrem). eauto.
Qed.

(** A Source step with a record left hands it out, or raises; either way
    the record is gone from its cursor. *)
Lemma source_next (E : Env) (st : State) (first : nat) (d : DatasetStep)
    (item : record) (rest : list record) :
  steps st first = Source d → remaining d = item :: rest →
  ∃ o st1 d1,
    on_step first (Step_execute E) st = (o, st1)
    ∧ (o = Ok (RRecord item) ∨ ∃ e, o = Raise e)
    ∧ steps st1 first = Source d1 ∧ remaining d1 = rest
    ∧ graph st1 = graph st ∧ previous_step st1 = previous_step st
    ∧ pbar st1 = pbar st.
Proof.
  intros Hd Hrem. rewrite (Step_execute_source E st first d Hd).
  rewrite (DatasetStep_execute_next d item rest _ _ _ Hrem).
  set (fr0 := mkFrame (advanced d rest) (context st) (rnd_used st)
                (calls_made st)).
  assert (Hdone : ∀ (o : outcome retval) (fr : Frame DatasetStep),
            self fr = advanced d rest →
            (o = Ok (RRecord item) ∨ ∃ e, o = Raise e) →
            ∃ o' st1 d1,
              (o, mkState (<[first := Source (self fr)]> (steps st))
                    (allocated st) (graph st) (ctx fr) (previous_step st)
                    (pbar st) (rnd fr) (calls fr)) = (o', st1)
              ∧ (o' = Ok (RRecord item) ∨ ∃ e, o' = Raise e)
              ∧ steps st1 first = Source d1 ∧ remaining d1 = rest
              ∧ graph st1 = graph st ∧ previous_step st1 = previous_step st
              ∧ pbar st1 = pbar st).
  { intros o fr Hself Ho. eexists _, _, _. split; [reflexivity|].
    split; [done|]. cbn [steps graph previous_step pbar].
    rewrite fn_lookup_insert, Hself. by repeat split. }
  rewrite bind_run.
  destruct (store_target_self (advanced d rest) item fr0) as [Hs1 Hf1].
  destruct (store_target (advanced d rest) item fr0) as [[[]|e|] fr1];
    cbn [fst snd] in Hs1, Hf1;
    [|apply Hdone; [by rewrite Hs1|by eauto]|done].
  rewrite bind_run.
  destruct (store_keys_self (advanced d rest) item fr1) as [Hs2 Hf2].
  destruct (store_keys (advanced d rest) item fr1) as [[[]|e|] fr2];
    cbn [fst snd] in Hs2, Hf2; [| |done].
  - apply Hdone; [by rewrite Hs2, Hs1|by left].
  - apply Hdone; [by rewrite Hs2, Hs1|by eauto].
Qed.

Lemma kept_cons (p : pass) (trace : list pass) (acc : list value) :
  (if is_None (pass_result p) then acc else acc ++ [pass_result p])
  ++ kept trace
  = acc ++ kept (p :: trace).
Proof.
  unfold kept. rewrite fmap_cons, filter_cons.
  destruct (is_None (pass_result p)) eqn:Hn.
  - by rewrite decide_False by done.
  - rewrite decide_True by done. by rewrite <- app_assoc.
Qed.

Lemma replay_step (E : Env) (fuel : nat) (first : nat) (acc : list value)
    (st st1 st2 : State) (item : record) (sub : value) :
  on_step first (Step_execute E) st = (Ok (RRecord item), st1) →
  _execute_from E first st1 = (Ok sub, st2) →
  replay E (S fuel) first acc st
  = replay E fuel first
      (if is_None sub then acc else acc ++ [sub]) (after_pass st2).
Proof.
  intros H1 H2. cbn [replay]. rewrite bind_run, H1. cbn [ret_is_None].
  rewrite bind_run, H2. reflexivity.
Qed.

(** The passes completed so far account for the progress of the loop. *)
Lemma replay_passes (E : Env) (first : nat) (st st' : State)
    (trace : list pass) :
  passes E first st trace st' →
  ∀ fuel acc,
    replay E (length trace + fuel) first acc st
    = replay E fuel first (acc ++ kept trace) st'.
Proof.
  induction 1 as [st|st st1 st2 st3 item sub trace H1 H2 _ IH];
    intros fuel acc.
  { unfold kept. simpl. by rewrite app_nil_r. }
  cbn [length Nat.add]. rewrite (replay_step E _ first acc st st1 st2 item sub)
    by done.
  rewrite IH. f_equal.
  apply (kept_cons (mkPass (context st) item sub)).
Qed.

(** What the passes leave behind: the records handed out are the first
    ones left in the Source step, in order; the progress bar has counted
    them; the pipeline is as it was; and every pass after the first has
    started from an empty Context. *)
Lemma passes_spec (E : Env) (first : nat) (st st' : State)
    (trace : list pass) :
  passes E first st trace st' →
  ∀ d, steps st first = Source d →
  ∃ d', steps st' first = Source d'
        ∧ remaining d = (pass_record <$> trace) ++ remaining d'
        ∧ graph st' = graph st ∧ previous_step st' = previous_step st
        ∧ pbar st' = (fun p => (p.1, p.2 + length trace)) <$> pbar st
        ∧ Forall (fun p => pass_context p = ∅) (tail trace)
        ∧ head (pass_context <$> trace) = (fun _ => context st) <$> head trace
        ∧ (trace ≠ [] → context st' = ∅).
Proof.
  induction 1 as [st|st st1 st2 st3 item sub trace H1 H2 Hrest IH];
    intros d Hd.
  { exists d. repeat split; try done.
    destruct (pbar st) as [[t n]|]; simpl; [|done].
    by rewrite Nat.add_0_r. }
  destruct (remaining d) as [|item' rest] eqn:Hrem.
  { destruct (source_exhausted E st first d Hd Hrem) as (? & Hx & _).
    congruence. }
  destruct (source_next E st first d item' rest Hd Hrem)
    as (o & st1' & d1 & Hx & Ho & Hd1 & Hrem1 & Hg1 & Hp1 & Hb1).
  rewrite H1 in Hx. injection Hx as <- <-.
  destruct Ho as [[= ->]|[e [=]]].
  pose proof (settles_execute_from E first st1) as [Hg2 Hp2 Hb2 Hc2].
  rewrite H2 in *. simpl in *. specialize (Hc2 first eq_refl).
  rewrite Hd1 in Hc2.
  destruct (steps st2 first) as [?|?|?|d2] eqn:Hd2; try done.
  simpl in Hc2. injection Hc2 as Hds Hit.
  destruct (IH d2) as (d' & Hd' & Hrem' & Hg' & Hp' & Hb' & Hctx & _ & Hlast);
    [done|].
  exists d'. split; [done|]. split.
  { simpl. f_equal. etrans; [|exact Hrem']. rewrite <- Hrem1.
    unfold remaining. by rewrite Hds, Hit. }
  split; [simpl in *; congruence|]. split; [simpl in *; congruence|].
  split.
  { rewrite Hb'. simpl. rewrite Hb2, Hb1.
    destruct (pbar st) as [[t n]|]; simpl; [|done].
    do 2 f_equal. lia. }
  split.
  { simpl. destruct trace as [|p trace]; [done|].
    apply Forall_cons. split; [|done].
    inversion Hrest; subst. done. }
  split; [done|]. intros _.
  destruct trace as [|p trace].
  - inversion Hrest; subst. done.
  - by apply Hlast.
Qed.

(** Every run of the loop is a row of completed passes, ended by the
    exhaustion of the Source step or by a pass that raises. *)
Lemma replay_run (E : Env) (first : nat) (items : list record) :
  ∀ st d acc,
    steps st first = Source d → remaining d = items →
    ∃ trace st_k,
      passes E first st trace st_k
      ∧ ((∃ st', on_step first (Step_execute E) st_k = (Ok (RVal VNone), st')
                 ∧ pbar st' = pbar st_k ∧ context st' = context st_k
                 ∧ pass_record <$> trace = items
                 ∧ replay E (S (length items)) first acc st
                   = (Ok (acc ++ kept trace), st'))
         ∨ (∃ e st', pass_raises E first st_k e st'
                     ∧ replay E (S (length items)) first acc st
                       = (Raise e, st'))).
Proof.
  induction items as [|item rest IH]; intros st d acc Hd Hrem.
  { exists [], st. split; [constructor|]. left.
    destruct (source_exhausted E st first d Hd Hrem) as (st' & Hx & Hb & Hc).
    exists st'. repeat split; try done.
    cbn [replay length]. rewrite bind_run, Hx. unfold kept. simpl.
    by rewrite app_nil_r. }
  destruct (source_next E st first d item rest Hd Hrem)
    as (o & st1 & d1 & Hx & Ho & Hd1 & Hrem1 & Hg1 & Hp1 & Hb1).
  destruct Ho as [->|[e ->]]; cycle 1.
  { exists [], st. split; [constructor|]. right. exists e, st1.
    split; [by left|]. cbn [replay length]. by rewrite bind_run, Hx. }
  pose proof (settles_execute_from E first st1) as [Hg2 Hp2 Hb2 Hc2].
  pose proof (finishes_execute_from E first st1) as Hfin.
  destruct (_execute_from E first st1) as [[sub|e|] st2] eqn:Hsub;
    cbn [fst snd] in *; [| |done].
  - specialize (Hc2 first eq_refl). rewrite Hd1 in Hc2.
    destruct (steps st2 first) as [?|?|?|d2] eqn:Hd2; try done.
    simpl in Hc2. injection Hc2 as Hds Hit.
    assert (Hrem2 : remaining d2 = rest).
    { rewrite <- Hrem1. unfold remaining. by rewrite Hds, Hit. }
    destruct (IH (after_pass st2) d2
                (if is_None sub then acc else acc ++ [sub]) Hd2 Hrem2)
      as (trace & st_k & Hpasses & Hend).
    exists (mkPass (context st) item sub :: trace), st_k.
    split; [by econstructor|].
    pose proof (replay_step E (S (length rest)) first acc st st1 st2 item sub
                  Hx Hsub) as Hstep.
    destruct Hend as [(st' & Hx' & Hb' & Hc' & Hrec & Hrun)
                     |(e & st' & Hraise & Hrun)].
    + left. exists st'. split; [done|]. split; [done|]. split; [done|].
      split; [by rewrite fmap_cons, Hrec|].
      change (length (item :: rest)) with (S (length rest)).
      rewrite Hstep, Hrun. f_equal. f_equal.
      apply (kept_cons (mkPass (context st) item sub)).
    + right. exists e, st'. split; [done|].
      change (length (item :: rest)) with (S (length rest)).
      by rewrite Hstep, Hrun.
  - exists [], st. split; [constructor|]. right. exists e, st2.
    split; [right; by eauto|].
    cbn [replay length]. rewrite bind_run, Hx. cbn [ret_is_None].
    by rewrite bind_run, Hsub.
Qed.

(** ** Dataset-replay mode and error propagation *)

Lemma Pipeline_execute_sort (E : Env) (st : State) (ic : option Ctx) :
  Pipeline_execute E ic st
  = match topological_sort (graph st) with
    | Ok order =>
        match head order with
        | Some first =>
            match steps st first with
            | Source d =>
                match len (d_dataset d) with
                | inl total =>
                    (results ← replay E (S (length (remaining d))) first [];
                     mret (OList results)) (replay_start ic total st)
                | inr e => (Raise e, set_context (fun _ => Context_init ic) st)
                end
            | _ =>
                single_pass E order (set_context (fun _ => Context_init ic) st)
            end
        | None =>
            single_pass E order (set_context (fun _ => Context_init ic) st)
        end
    | Raise e => (Raise e, set_context (fun _ => Context_init ic) st)
    | Unfinished => (Unfinished, set_context (fun _ => Context_init ic) st)
    end.
Proof.
  unfold Pipeline_execute. rewrite bind_run. unfold modify at 1.
  rewrite bind_run. unfold gets at 1. cbn [graph set_context].
  rewrite bind_run.
  destruct (topological_sort (graph st)) as [order|e|]; [|done..].
  rewrite bind_run. unfold gets at 1. cbn [steps set_context].
  destruct (head order) as [first|]; [|done]. cbn [fmap option_fmap option_map].
  destruct (steps st first) as [?|?|?|d]; try done.
  rewrite bind_run. by destruct (d_dataset d).
Qed.

Lemma Pipeline_execute_replay (E : Env) (st : State) (ic : option Ctx)
    (first : nat) (order : list nat) (d : DatasetStep) (items : list record) :
  topological_sort (graph st) = Ok (first :: order) →
  steps st first = Source d → d_dataset d = Sequence items →
  Pipeline_execute E ic st
  = (results ← replay E (S (length (remaining d))) first [];
     mret (OList results)) (replay_start ic (length items) st).
Proof.
  intros Hsort Hd Hds. rewrite Pipeline_execute_sort, Hsort. cbn [head].
  by rewrite Hd, Hds.
Qed.

Lemma kept_all (trace : list pass) :
  (∀ p, p ∈ trace → pass_result p ≠ VNone) →
  kept trace = pass_result <$> trace.
Proof.
  intros Hall. unfold kept. induction trace as [|p trace IH]; [done|].
  rewrite fmap_cons, filter_cons, decide_True.
  - f_equal. apply IH. intros q Hq. apply Hall. by right.
  - specialize (Hall p (list_elem_of_here _ _)).
    by destruct (pass_result p).
Qed.

Lemma kept_length (trace : list pass) : length (kept trace) ≤ length trace.
Proof.
  unfold kept. etrans; [apply length_filter|]. by rewrite length_fmap.
Qed.

(** C1, as the code has it.  In dataset-replay mode over a list of [n]
    records, with the cursor of the Source step not yet started, a run
    that ends without error has made exactly [n] passes, one per record
    in source order, and the progress bar has counted [n].  The result
    list holds, in that order, the results of the passes that are not
    [None]: it has at most [n] entries, and exactly [n], one per record,
    when no pass results in [None]. *)
Theorem Pipeline_execute_replay_results (E : Env) (st st' : State)
    (ic : option Ctx) (first : nat) (order : list nat) (d : DatasetStep)
    (items : list record) (out : output) :
  topological_sort (graph st) = Ok (first :: order) →
  steps st first = Source d →
  d_dataset d = Sequence items → _iterator d = None →
  Pipeline_execute E ic st = (Ok out, st') →
  ∃ trace st_k,
    passes E first (replay_start ic (length items) st) trace st_k
    ∧ pass_record <$> trace = items
    ∧ length trace = length items
    ∧ pbar st' = Some (length items, length items)
    ∧ out = OList (kept trace)
    ∧ length (kept trace) ≤ length items
    ∧ ((∀ p, p ∈ trace → pass_result p ≠ VNone) →
       kept trace = pass_result <$> trace
       ∧ length (kept trace) = length items).
Proof.
  intros Hsort Hd Hds Hit Hrun.
  rewrite (Pipeline_execute_replay E st ic first order d items) in Hrun
    by done.
  assert (Hrem : remaining d = items).
  { unfold remaining. by rewrite Hit, Hds. }
  rewrite Hrem in Hrun. rewrite bind_run in Hrun.
  destruct (replay_run E first items (replay_start ic (length items) st) d []
              Hd Hrem) as (trace & st_k & Hpasses & Hend).
  destruct Hend as [(st1 & Hx & Hb & Hc & Hrec & Hreplay)
                   |(e & st1 & _ & Hreplay)];
    rewrite Hreplay in Hrun; [|done].
  injection Hrun as <- <-.
  assert (Hlen : length trace = length items).
  { by rewrite <- Hrec, length_fmap. }
  exists trace, st_k. split; [done|]. split; [done|]. split; [done|].
  split.
  { destruct (passes_spec E first _ _ _ Hpasses d Hd)
      as (d' & _ & _ & _ & _ & Hbar & _).
    rewrite Hb, Hbar, Hlen. reflexivity. }
  split; [done|]. split.
  { rewrite <- Hlen. apply kept_length. }
  intros Hall. rewrite (kept_all trace Hall).
  by rewrite length_fmap.
Qed.

(** C7.  In dataset-replay mode the passes made, whatever the end of the
    run, take the records left in the Source step in their order, one
    each; the first pass starts from the initial Context and every later
    pass from an empty one, so nothing written during a pass is there
    during a later one; after a pass and before the next record is
    fetched the Context is empty.  A run that ends well has taken every
    record; a run that raises has raised in the pass after those. *)
Theorem replay_isolation (E : Env) (st st' : State) (ic : option Ctx)
    (first : nat) (order : list nat) (d : DatasetStep) (items : list record)
    (o : outcome output) :
  topological_sort (graph st) = Ok (first :: order) →
  steps st first = Source d → d_dataset d = Sequence items →
  Pipeline_execute E ic st = (o, st') →
  ∃ trace st_k,
    passes E first (replay_start ic (length items) st) trace st_k
    ∧ (pass_record <$> trace) `prefix_of` remaining d
    ∧ (∀ p, head trace = Some p → pass_context p = Context_init ic)
    ∧ Forall (fun p => pass_context p = ∅) (tail trace)
    ∧ (trace ≠ [] → context st_k = ∅)
    ∧ match o with
      | Ok out => pass_record <$> trace = remaining d
                  ∧ out = OList (kept trace)
      | Raise e => pass_raises E first st_k e st'
      | Unfinished => False
      end.
Proof.
  intros Hsort Hd Hds Hrun.
  rewrite (Pipeline_execute_replay E st ic first order d items) in Hrun
    by done.
  rewrite bind_run in Hrun.
  destruct (replay_run E first (remaining d)
              (replay_start ic (length items) st) d [] Hd eq_refl)
    as (trace & st_k & Hpasses & Hend).
  destruct (passes_spec E first _ _ _ Hpasses d Hd)
    as (d' & _ & Hrec & _ & _ & _ & Hctx & Hhead & Hlast).
  exists trace, st_k. split; [done|]. split; [by eexists|]. split.
  { intros p Hp. destruct trace as [|q trace]; [done|].
    injection Hp as ->. simpl in Hhead. by injection Hhead as ->. }
  split; [done|]. split; [done|].
  destruct Hend as [(st1 & _ & _ & _ & Hall & Hreplay)
                   |(e & st1 & Hraise & Hreplay)];
    rewrite Hreplay in Hrun; injection Hrun as <- <-; done.
Qed.

Lemma for_each_raises {S A} (pre post : list A) (x : A)
    (body : A → M S unit) (s s1 s2 : S) (e : exn) :
  for_each pre body s = (Ok tt, s1) → body x s1 = (Raise e, s2) →
  for_each (pre ++ x :: post) body s = (Raise e, s2).
Proof.
  revert s. induction pre as [|y pre IH]; intros s Hpre Hx; simpl in *.
  - injection Hpre as <-. by rewrite bind_run, Hx.
  - rewrite bind_run in *. destruct (body y s) as [[[]|e'|] s'];
      [by apply IH|done..].
Qed.

(** C8.  An exception raised by a step leaves [execute] as it is.  In
    single-pass mode: when the steps before [s] in topological order
    have run and [s], its inputs wired, raises [e], the run raises [e].
    In dataset-replay mode: when, after any number of completed passes,
    the next pass raises [e] -- in the Source step or in the
    sub-traversal -- the run raises [e], and no result list is returned;
    and a sub-traversal raises [e] when the steps before [s] in
    depth-first order have run and [s] raises [e]. *)
Theorem Pipeline_execute_raises (E : Env) (st : State) (ic : option Ctx)
    (e : exn) (st2 : State) :
  (∀ order pre s post st1 st_w,
     topological_sort (graph st) = Ok order → order = pre ++ s :: post →
     (∀ first d, head order = Some first → steps st first ≠ Source d) →
     for_each pre (_execute_step E)
       (set_context (fun _ => Context_init ic) st) = (Ok tt, st1) →
     wire_inputs E s st1 = (Ok tt, st_w) →
     on_step s (Step_execute E) st_w = (Raise e, st2) →
     Pipeline_execute E ic st = (Raise e, st2))
  ∧ (∀ first order d items trace st_k,
       topological_sort (graph st) = Ok (first :: order) →
       steps st first = Source d → d_dataset d = Sequence items →
       passes E first (replay_start ic (length items) st) trace st_k →
       pass_raises E first st_k e st2 →
       Pipeline_execute E ic st = (Raise e, st2))
  ∧ (∀ first st0 pre s post st1 st_w,
       dfs_preorder_nodes (graph st0) first = pre ++ s :: post →
       s ≠ first →
       for_each pre
         (fun step => if bool_decide (step ≠ first) then _execute_step E step
                      else mret tt) st0 = (Ok tt, st1) →
       wire_inputs E s st1 = (Ok tt, st_w) →
       on_step s (Step_execute E) st_w = (Raise e, st2) →
       _execute_from E first st0 = (Raise e, st2)).
Proof.
  assert (Hstep : ∀ s st1 st_w,
            wire_inputs E s st1 = (Ok tt, st_w) →
            on_step s (Step_execute E) st_w = (Raise e, st2) →
            _execute_step E s st1 = (Raise e, st2)).
  { intros s st1 st_w Hw Hx. unfold _execute_step.
    by rewrite bind_run, Hw, bind_run, Hx. }
  split; [|split].
  - intros order pre s post st1 st_w Hsort -> Hmode Hpre Hw Hx.
    rewrite Pipeline_execute_sort, Hsort.
    assert (Hsingle : single_pass E (pre ++ s :: post)
                        (set_context (fun _ => Context_init ic) st)
                      = (Raise e, st2)).
    { unfold single_pass. rewrite bind_run.
      by rewrite (for_each_raises pre post s _ _ st1 st2 e Hpre
                    (Hstep _ _ _ Hw Hx)). }
    destruct (head (pre ++ s :: post)) as [first|] eqn:Hhead; [|done].
    destruct (steps st first) as [?|?|?|d] eqn:Hd; try done.
    by destruct (Hmode first d).
  - intros first order d items trace st_k Hsort Hd Hds Hpasses Hraise.
    rewrite (Pipeline_execute_replay E st ic first order d items) by done.
    destruct (passes_spec E first _ _ _ Hpasses d Hd)
      as (d' & _ & Hrec & _).
    assert (Hfuel : S (length (remaining d))
                    = length trace
                      + S (length (remaining d'))).
    { rewrite Hrec, length_app, length_fmap. lia. }
    rewrite bind_run, Hfuel, (replay_passes E first _ _ _ Hpasses).
    cbn [replay]. rewrite bind_run.
    destruct Hraise as [Hx|(item & st1 & Hx & Hsub)]; rewrite Hx; [done|].
    cbn [ret_is_None]. by rewrite bind_run, Hsub.
  - intros first st0 pre s post st1 st_w Hdfs Hne Hpre Hw Hx.
    unfold _execute_from. rewrite bind_run. unfold gets at 1.
    rewrite Hdfs, bind_run.
    rewrite (for_each_raises pre post s _ _ st1 st2 e Hpre); [done|].
    rewrite bool_decide_eq_true_2 by done. by eapply Hstep.
Qed.

(** X6.  [execute] always comes to an end, with a result or an exception:
    the bounds on the topological sort and on the replay loop are never
    reached.  Nor is the bound on the depth of the depth-first
    traversal: from a step of the pipeline the traversal lists the steps
    that can be reached from it, each once, and a traversal allowed to
    go deeper lists the same steps in the same order. *)
Theorem Pipeline_execute_finishes (E : Env) (st : State) (ic : option Ctx) :
  graph_wf (graph st) →
  (Pipeline_execute E ic st).1 ≠ Unfinished
  ∧ (∀ start,
       start ∈ nodes (graph st) →
       NoDup (dfs_preorder_nodes (graph st) start)
       ∧ (∀ v, v ∈ dfs_preorder_nodes (graph st) start
               ↔ rtc (edge (graph st)) start v)
       ∧ ∀ fuel, length (nodes (graph st)) < fuel →
                 dfs_preorder_nodes (graph st) start
                 = rev (dfs_visit fuel (graph st) start [])).
Proof.
  intros Hwf. split.
  2: { intros start Hin.
       destruct (dfs_preorder_nodes_reach (graph st) start Hwf Hin)
         as [Hnd Hreach].
       split; [done|]. split; [done|].
       intros fuel Hfuel. by apply dfs_preorder_nodes_fuel. }
  rewrite Pipeline_execute_sort.
  pose proof (topological_sort_spec _ Hwf) as Hsort.
  destruct (topological_sort (graph st)) as [order|e|]; [|done..].
  assert (Hsingle : ∀ s, (single_pass E order s).1 ≠ Unfinished).
  { apply finishes_bind.
    - apply finishes_for_each, finishes_execute_step.
    - intros _. apply finishes_bind; [apply finishes_read_result|].
      intros [v|]; apply finishes_ret. }
  destruct (head order) as [first|]; [|apply Hsingle].
  destruct (steps st first) as [?|?|?|d] eqn:Hd; try apply Hsingle.
  destruct (d_dataset d) as [items|items] eqn:Hds; [|done].
  cbn [len]. rewrite bind_run.
  destruct (replay_run E first (remaining d)
              (replay_start ic (length items) st) d [] Hd eq_refl)
    as (trace & st_k & _ & [(st1 & _ & _ & _ & _ & ->)|(e & st1 & _ & ->)]);
    done.
Qed.

(** ** The theorems at work on the sample pipelines *)

(** A run is known by its outcome and the state it leaves. *)
Lemma run_eq {S A} (run : outcome A * S) (o : outcome A) :
  run.1 = o → run = (o, run.2).
Proof. destruct run. simpl. by intros ->. Qed.

(** The scenario of the spec: two records, upper-cased, give [A] and
    [B]. *)
Example qa_upper_result :
  (Pipeline_execute sample_env None qa_upper).1
  = Ok (OList [VStr "A"; VStr "B"]).
Proof. vm_compute. reflexivity. Qed.

Lemma Pipeline_execute_replay_results_witness :
  ∃ trace st_k,
    passes sample_env 0 (replay_start None (length qa_records) qa_upper)
      trace st_k
    ∧ pass_record <$> trace = qa_records
    ∧ length trace = length qa_records
    ∧ pbar (Pipeline_execute sample_env None qa_upper).2
      = Some (length qa_records, length qa_records)
    ∧ OList [VStr "A"; VStr "B"] = OList (kept trace)
    ∧ length (kept trace) ≤ length qa_records
    ∧ ((∀ p, p ∈ trace → pass_result p ≠ VNone) →
       kept trace = pass_result <$> trace
       ∧ length (kept trace) = length qa_records).
Proof.
  apply (Pipeline_execute_replay_results sample_env qa_upper
           (Pipeline_execute sample_env None qa_upper).2 None 0 [1]
           (qa_source qa_records) qa_records (OList [VStr "A"; VStr "B"])).
  - vm_compute. reflexivity.
  - reflexivity.
  - reflexivity.
  - reflexivity.
  - apply (run_eq (Pipeline_execute sample_env None qa_upper)).
    vm_compute. reflexivity.
Defined.

(** C1 as claimed does not hold.  The first run below, over two
    records, ends without error, yet its result list has one entry: the
    loop drops every result that is [None].  The second run is a second
    call of [execute] after a first one that raised on the first record:
    the cursor of the Source step stands at the second record, so one
    record is processed and one result returned for a dataset of two. *)
Lemma Pipeline_execute_replay_results_counterexample :
  (topological_sort (graph qa_filtering) = Ok [0; 1]
   ∧ steps qa_filtering 0 = Source (qa_source qa_records)
   ∧ length qa_records = 2
   ∧ (Pipeline_execute sample_env None qa_filtering).1
     = Ok (OList [VStr "A"])
   ∧ ¬ (∃ results,
          (Pipeline_execute sample_env None qa_filtering).1
          = Ok (OList results)
          ∧ length results = length qa_records))
  ∧ (topological_sort (graph qa_aborted) = Ok [0; 1]
     ∧ steps qa_aborted 0
       = Source (mkDatasetStep (Some "q") (Some "q") (Sequence number_first)
                   None None (Some [ {[ VStr "q" := VStr "b" ]} ]))
     ∧ length number_first = 2
     ∧ (Pipeline_execute sample_env None qa_aborted).1
       = Ok (OList [VStr "B"])
     ∧ pbar (Pipeline_execute sample_env None qa_aborted).2 = Some (2, 1)).
Proof.
  split.
  - split; [vm_compute; reflexivity|]. split; [reflexivity|].
    split; [reflexivity|]. split; [vm_compute; reflexivity|].
    intros (results & Hrun & Hlen). vm_compute in Hrun.
    injection Hrun as <-. discriminate.
  - repeat split; vm_compute; reflexivity.
Qed.

Lemma replay_isolation_witness :
  ∃ trace st_k,
    passes sample_env 0 (replay_start (Some ada) (length qa_records) qa_upper)
      trace st_k
    ∧ (pass_record <$> trace) `prefix_of` remaining (qa_source qa_records)
    ∧ (∀ p, head trace = Some p → pass_context p = Context_init (Some ada))
    ∧ Forall (fun p => pass_context p = ∅) (tail trace)
    ∧ (trace ≠ [] → context st_k = ∅)
    ∧ (pass_record <$> trace = remaining (qa_source qa_records)
       ∧ OList [VStr "A"; VStr "B"] = OList (kept trace)).
Proof.
  apply (replay_isolation sample_env qa_upper
           (Pipeline_execute sample_env (Some ada) qa_upper).2 (Some ada) 0 [1]
           (qa_source qa_records) qa_records
           (Ok (OList [VStr "A"; VStr "B"]))).
  - vm_compute. reflexivity.
  - reflexivity.
  - reflexivity.
  - apply (run_eq (Pipeline_execute sample_env (Some ada) qa_upper)).
    vm_compute. reflexivity.
Defined.

(** A template step without a value for its placeholder stops a
    single-pass run; a record that cannot be upper-cased stops a replay
    after the first pass, in the sub-traversal; and a sub-traversal
    stops at the step that raises. *)
Lemma Pipeline_execute_raises_witness :
  Pipeline_execute sample_env None bare_pipeline
  = (Raise (KeyError (VStr "name")),
     (on_step 0 (Step_execute sample_env)
        (wire_inputs sample_env 0
           (set_context (fun _ => Context_init None) bare_pipeline)).2).2)
  ∧ (∃ st', Pipeline_execute sample_env None qa_mixed
            = (Raise (Exception "AttributeError: no attribute 'upper'"), st'))
  ∧ (∃ st', _execute_from sample_env 0
              (on_step 0 (Step_execute sample_env)
                 (replay_start None 1 qa_number)).2
            = (Raise (Exception "AttributeError: no attribute 'upper'"), st')).
Proof.
  split; [|split].
  - apply (proj1 (Pipeline_execute_raises sample_env bare_pipeline None _ _)
             [0] [] 0 []
             (set_context (fun _ => Context_init None) bare_pipeline)
             (wire_inputs sample_env 0
                (set_context (fun _ => Context_init None) bare_pipeline)).2).
    + vm_compute. reflexivity.
    + reflexivity.
    + intros first d [= <-]. discriminate.
    + reflexivity.
    + apply (run_eq (wire_inputs sample_env 0 _)). vm_compute. reflexivity.
    + apply (run_eq (on_step 0 (Step_execute sample_env) _)).
      vm_compute. reflexivity.
  - eexists.
    eapply (proj1 (proj2 (Pipeline_execute_raises sample_env qa_mixed None
                            (Exception "AttributeError: no attribute 'upper'")
                            _))
              0 [1] (qa_source mixed_records) mixed_records).
    + vm_compute. reflexivity.
    + reflexivity.
    + reflexivity.
    + eapply (passes_next sample_env 0 _ _ _ _ {[ VStr "q" := VStr "a" ]}
                (VStr "A") []).
      * apply (run_eq (on_step 0 (Step_execute sample_env) _)).
        vm_compute. reflexivity.
      * apply (run_eq (_execute_from sample_env 0 _)).
        vm_compute. reflexivity.
      * apply passes_done.
    + right. eexists {[ VStr "q" := VInt 5 ]}, _. split.
      * apply (run_eq (on_step 0 (Step_execute sample_env) _)).
        vm_compute. reflexivity.
      * apply (run_eq (_execute_from sample_env 0 _)).
        vm_compute. reflexivity.
  - eexists.
    eapply (proj2 (proj2 (Pipeline_execute_raises sample_env qa_number None
                            (Exception "AttributeError: no attribute 'upper'")
                            _))
              0 _ [0] 1 []).
    + vm_compute. reflexivity.
    + discriminate.
    + reflexivity.
    + apply (run_eq (wire_inputs sample_env 1 _)). vm_compute. reflexivity.
    + apply (run_eq (on_step 1 (Step_execute sample_env) _)).
      vm_compute. reflexivity.
Defined.

(** A Source step built without keys does not stay so: wiring its
    successor calls [get_output_key] on it, which draws a random output
    key, and from the second record on the step looks up
    [record[None]]. *)
Example source_output_key_drawn :
  (Pipeline_execute sample_env None target_only_pipeline).1
  = Raise (KeyError VNone)
  ∧ pbar (Pipeline_execute sample_env None target_only_pipeline).2
    = Some (2, 1).
Proof. split; vm_compute; reflexivity. Qed.

(** * Further properties *)

(** ** The order of execution *)

Lemma respects_app (g : DiGraph) (old new : list nat) :
  respects g old →
  (∀ v, v ∈ new → ∀ u, (u, v) ∈ edges g → u ∈ old) →
  respects g (old ++ new).
Proof.
  intros Hold Hnew i v Hi u Hu.
  destruct (decide (i < length old)) as [Hlt|Hge].
  - rewrite lookup_app_l in Hi by done.
    destruct (Hold i v Hi u Hu) as (j & Hj & Hlook).
    exists j. split; [done|]. rewrite lookup_app_l by lia. done.
  - rewrite lookup_app_r in Hi by lia.
    assert (Hv : v ∈ new) by (apply list_elem_of_lookup; eauto).
    pose proof (Hnew v Hv u Hu) as Hex.
    apply list_elem_of_lookup in Hex as [j Hj]. exists j.
    apply lookup_lt_Some in Hj as Hlt. split; [lia|].
    by rewrite lookup_app_l.
Qed.

Lemma kahn_node_respects (g : DiGraph) (done pend zero : list nat) (x : nat)
    (m : gmap nat Z) :
  graph_wf g → kahn_inv g done (x :: pend) m →
  respects g (done ++ x :: pend) →
  ∃ m' new, relax_all (m, zero) (successors g x) = inl (m', zero ++ new)
            ∧ kahn_inv g (done ++ [x]) (pend ++ new) m'
            ∧ respects g ((done ++ [x]) ++ pend ++ new).
Proof.
  intros Hwf Hinv Hord.
  destruct (kahn_node g done pend zero x m Hwf Hinv)
    as (m' & new & Hrun & Hinv').
  exists m', new. split; [done|]. split; [done|].
  replace ((done ++ [x]) ++ pend ++ new) with ((done ++ x :: pend) ++ new)
    by by rewrite <- !app_assoc.
  apply respects_app; [done|]. intros v Hv u Hu.
  assert (Hin : v ∈ (done ++ [x]) ++ pend ++ new).
  { rewrite !elem_of_app. right. by right. }
  apply (kahn_seen _ _ _ _ Hinv') in Hin as [_ Hzero].
  apply (proj1 (pending_preds_zero g (done ++ [x]) v) Hzero) in Hu.
  rewrite elem_of_app in *. destruct Hu as [?|Hx]; [by left|].
  right. apply list_elem_of_singleton in Hx as ->. by left.
Qed.

Lemma kahn_generation_respects (g : DiGraph) (done this zero : list nat)
    (m : gmap nat Z) :
  graph_wf g → kahn_inv g done (this ++ zero) m →
  respects g (done ++ this ++ zero) →
  ∃ m' new, process_generation g (m, zero) this = inl (m', zero ++ new)
            ∧ kahn_inv g (done ++ this) (zero ++ new) m'
            ∧ respects g ((done ++ this) ++ zero ++ new).
Proof.
  intros Hwf. revert done zero m.
  induction this as [|x rest IH]; intros done zero m Hinv Hord.
  { exists m, []. rewrite !app_nil_r in *. done. }
  destruct (kahn_node_respects g done (rest ++ zero) zero x m Hwf Hinv Hord)
    as (m1 & new1 & Hrun1 & Hinv1 & Hord1).
  rewrite <- !app_assoc in Hinv1, Hord1.
  destruct (IH (done ++ [x]) (zero ++ new1) m1) as
    (m2 & new2 & Hrun2 & Hinv2 & Hord2).
  { exact Hinv1. }
  { rewrite <- !app_assoc. rewrite <- !app_assoc in Hord1. exact Hord1. }
  exists m2, (new1 ++ new2). cbn [process_generation].
  rewrite Hrun1, Hrun2. rewrite <- !app_assoc in *. done.
Qed.

(** Without a cycle every node is reached in the end. *)
Lemma kahn_all_done (g : DiGraph) (done : list nat) (m : gmap nat Z) :
  graph_wf g → ¬ has_cycle g → kahn_inv g done [] m →
  ∀ v, v ∈ nodes g → v ∈ done.
Proof.
  intros Hwf Hacyc Hinv v.
  assert (Hsn : sn (flip (edge g)) v).
  { apply tc_finite_sn.
    - intros x Hx. apply Hacyc. exists x.
      clear -Hx. assert (Hflip : ∀ a b, tc (flip (edge g)) a b →
                                        tc (edge g) b a).
      { intros a b H. induction H as [a b H|a b c H _ IH].
        - by apply tc_once.
        - eapply tc_r; [exact IH|exact H]. }
      by apply Hflip.
    - exists (nodes g). intros y Hy.
      induction Hy as [a b H|a b c H _ IH]; [|done].
      by apply (wf_ends g Hwf b a). }
  induction Hsn as [v _ IH]. intros Hv.
  pose proof (kahn_seen _ _ _ _ Hinv v) as Hseen.
  rewrite app_nil_r in Hseen. apply Hseen. split; [done|].
  apply pending_preds_zero. intros u Hu.
  apply (IH u); [done|]. by apply (wf_ends g Hwf u v).
Qed.

Lemma kahn_generations_acyclic (fuel : nat) (g : DiGraph) (m : gmap nat Z)
    (zero yielded : list nat) :
  graph_wf g → ¬ has_cycle g → kahn_inv g yielded zero m →
  respects g (yielded ++ zero) →
  length (nodes g) ≤ length yielded + fuel →
  ∃ order, generations fuel g m zero yielded = Ok order
           ∧ NoDup order ∧ (∀ v, v ∈ order ↔ v ∈ nodes g)
           ∧ respects g order.
Proof.
  intros Hwf Hacyc. revert m zero yielded.
  assert (Hend : ∀ fuel m yielded,
            kahn_inv g yielded [] m → respects g (yielded ++ []) →
            ∃ order, generations fuel g m [] yielded = Ok order
                     ∧ NoDup order ∧ (∀ v, v ∈ order ↔ v ∈ nodes g)
                     ∧ respects g order).
  { intros f m yielded Hinv Hord. exists yielded.
    pose proof (kahn_all_done g yielded m Hwf Hacyc Hinv) as Hall.
    destruct Hinv as [Hcounts Hnd Hseen _]. rewrite app_nil_r in *.
    split.
    - assert (Hm : m = ∅).
      { apply map_eq. intros v. rewrite lookup_empty, (Hcounts v).
        destruct (decide (pending_preds g yielded v = 0)) as [|Hn];
          [done|].
        exfalso. apply Hn. apply pending_preds_zero. intros u Hu.
        apply Hall. by apply (wf_ends g Hwf u v). }
      destruct f; simpl; by rewrite bool_decide_eq_true_2.
    - split; [done|]. split; [|done].
      intros v. split; [|by apply Hall]. intros Hv. by apply Hseen. }
  induction fuel as [|fuel IH]; intros m zero yielded Hinv Hord Hlen.
  - destruct zero as [|x zero]; [by apply Hend|].
    destruct Hinv as [_ Hnd Hseen _].
    assert (length (yielded ++ x :: zero) ≤ length (nodes g)) as Hle.
    { apply submseteq_length, NoDup_submseteq; [done|].
      intros v Hv. by apply Hseen. }
    rewrite length_app in Hle. simpl in Hle. lia.
  - destruct zero as [|x zero]; [by apply Hend|].
    cbn [generations].
    destruct (kahn_generation_respects g yielded (x :: zero) [] m Hwf)
      as (m' & new & Hrun & Hinv' & Hord');
      [by rewrite app_nil_r|by rewrite app_nil_r|].
    rewrite Hrun. simpl app in *. apply IH; [done|done|].
    rewrite length_app. simpl. lia.
Qed.

(** On a graph without a cycle [nx.topological_sort] returns an order
    that lists every node once and puts the source of every edge before
    its target. *)
Lemma topological_sort_acyclic (g : DiGraph) :
  graph_wf g → ¬ has_cycle g →
  ∃ order, topological_sort g = Ok order
           ∧ NoDup order ∧ (∀ v, v ∈ order ↔ v ∈ nodes g)
           ∧ respects g order.
Proof.
  intros Hwf Hacyc.
  apply kahn_generations_acyclic;
    [done|done|by apply kahn_init| |simpl; lia].
  simpl. intros i v Hi u Hu.
  assert (Hv : v ∈ zero_indegree g) by (apply list_elem_of_lookup; eauto).
  apply list_elem_of_filter in Hv as [H0 _].
  apply elem_of_predecessors in Hu. unfold in_degree in H0.
  destruct (predecessors g v); [by apply elem_of_nil in Hu|done].
Qed.

(** ** Pipelines built step after step *)

Lemma chain_edges_snoc (ns : list nat) (n : nat) :
  chain_edges (ns ++ [n])
  = chain_edges ns ++ match last ns with Some p => [(p, n)] | None => [] end.
Proof.
  induction ns as [|a [|b rest] IH]; [done|done|].
  change (chain_edges ((a :: b :: rest) ++ [n]))
    with ((a, b) :: chain_edges ((b :: rest) ++ [n])).
  rewrite IH. done.
Qed.

Lemma chain_edges_lookup (ns : list nat) (u v : nat) :
  (u, v) ∈ chain_edges ns ↔ ∃ i, ns !! i = Some u ∧ ns !! S i = Some v.
Proof.
  induction ns as [|a [|b rest] IH].
  - split; [intros H; by apply elem_of_nil in H|by intros (i & H & _)].
  - split; [intros H; by apply elem_of_nil in H|].
    intros ([|i] & H1 & H2); done.
  - change (chain_edges (a :: b :: rest))
      with ((a, b) :: chain_edges (b :: rest)).
    rewrite elem_of_cons, IH. split.
    + intros [[= -> ->]|(i & H1 & H2)]; [by exists 0|by exists (S i)].
    + intros ([|i] & H1 & H2).
      * left. simpl in *. congruence.
      * right. by exists i.
Qed.

Lemma chain_edges_ends (ns : list nat) (u v : nat) :
  (u, v) ∈ chain_edges ns → u ∈ ns ∧ v ∈ ns.
Proof.
  intros (i & H1 & H2)%chain_edges_lookup.
  split; apply list_elem_of_lookup; eauto.
Qed.

(** [add_step] on a new step lengthens the chain. *)
Lemma Pipeline_add_step_chain (ns : list nat) (n : nat) (st : State) :
  n ∉ ns → graph st = chain_graph ns → previous_step st = last ns →
  graph (Pipeline_add_step n st).2 = chain_graph (ns ++ [n])
  ∧ previous_step (Pipeline_add_step n st).2 = last (ns ++ [n])
  ∧ steps (Pipeline_add_step n st).2 = steps st
  ∧ context (Pipeline_add_step n st).2 = context st.
Proof.
  intros Hn Hg Hp. unfold Pipeline_add_step. unfold_monad. simpl.
  rewrite last_snoc.
  assert (Hnode : add_node n (graph st) = mkDiGraph (ns ++ [n]) (chain_edges ns)).
  { unfold add_node. rewrite Hg. simpl.
    by rewrite bool_decide_eq_false_2. }
  destruct (previous_step st) as [p|] eqn:Hprev; simpl.
  - split; [|done]. rewrite Hnode. unfold add_edge, add_node. simpl.
    assert (Hpin : p ∈ ns).
    { apply list_elem_of_lookup. exists (pred (length ns)).
      by rewrite <- last_lookup. }
    rewrite (bool_decide_eq_true_2 (p ∈ ns ++ [n]))
      by (apply elem_of_app; by left).
    simpl. rewrite (bool_decide_eq_true_2 (n ∈ ns ++ [n]))
      by (apply elem_of_app; right; by left).
    simpl. rewrite bool_decide_eq_false_2.
    + unfold chain_graph. by rewrite chain_edges_snoc, <- Hp.
    + intros He. apply chain_edges_ends in He as [_ ?]. done.
  - split; [|done]. rewrite Hnode. unfold chain_graph.
    by rewrite chain_edges_snoc, <- Hp, app_nil_r.
Qed.

(** Distinct steps added one after the other form a chain whose tail is
    the step added last. *)
Lemma add_steps_chain (ns : list nat) (st : State) :
  NoDup ns → graph st = empty_graph → previous_step st = None →
  graph (for_each ns Pipeline_add_step st).2 = chain_graph ns
  ∧ previous_step (for_each ns Pipeline_add_step st).2 = last ns
  ∧ steps (for_each ns Pipeline_add_step st).2 = steps st
  ∧ context (for_each ns Pipeline_add_step st).2 = context st.
Proof.
  intros Hnd Hg Hp.
  assert (Hgen : ∀ rest pre st0,
            NoDup (pre ++ rest) →
            graph st0 = chain_graph pre → previous_step st0 = last pre →
            graph (for_each rest Pipeline_add_step st0).2
            = chain_graph (pre ++ rest)
            ∧ previous_step (for_each rest Pipeline_add_step st0).2
              = last (pre ++ rest)
            ∧ steps (for_each rest Pipeline_add_step st0).2 = steps st0
            ∧ context (for_each rest Pipeline_add_step st0).2 = context st0).
  { induction rest as [|n rest IH]; intros pre st0 Hnd0 Hg0 Hp0.
    { rewrite app_nil_r. done. }
    simpl. rewrite bind_run.
    assert (Hn : n ∉ pre).
    { apply NoDup_app in Hnd0 as (_ & Hdisj & _). intros Hin.
      apply (Hdisj n Hin). by left. }
    destruct (Pipeline_add_step_chain pre n st0 Hn Hg0 Hp0)
      as (Hg1 & Hp1 & Hs1 & Hc1).
    assert (Hok : (Pipeline_add_step n st0).1 = Ok tt).
    { unfold Pipeline_add_step. unfold_monad. simpl.
      by destruct (previous_step st0). }
    destruct (Pipeline_add_step n st0) as [o st1]. simpl in *. subst o.
    replace (pre ++ n :: rest) with ((pre ++ [n]) ++ rest)
      by by rewrite <- app_assoc.
    destruct (IH (pre ++ [n]) st1) as (? & ? & ? & ?); try done.
    { by rewrite <- app_assoc. }
    repeat split; congruence. }
  apply (Hgen ns [] st); done.
Qed.

Lemma chain_graph_wf (ns : list nat) : NoDup ns → graph_wf (chain_graph ns).
Proof.
  intros Hnd. split; simpl; [done| |apply chain_edges_ends].
  induction ns as [|a [|b rest] IH]; [constructor..|].
  change (chain_edges (a :: b :: rest))
    with ((a, b) :: chain_edges (b :: rest)).
  apply NoDup_cons in Hnd as [Ha Hnd]. apply NoDup_cons. split; [|by apply IH].
  intros He. apply chain_edges_ends in He as [? _]. done.
Qed.

Lemma chain_path (ns : list nat) (u v : nat) :
  NoDup ns → tc (edge (chain_graph ns)) u v →
  ∃ i j, i < j ∧ ns !! i = Some u ∧ ns !! j = Some v.
Proof.
  intros Hnd Hp. induction Hp as [u v He|u v w He _ (i & j & Hij & Hi & Hj)].
  - apply chain_edges_lookup in He as (i & Hi & Hj). exists i, (S i). eauto.
  - apply chain_edges_lookup in He as (k & Hk & Hk').
    rewrite (NoDup_lookup ns i (S k) v Hnd Hi Hk') in *.
    exists k, j. split; [lia|done].
Qed.

Lemma chain_graph_acyclic (ns : list nat) :
  NoDup ns → ¬ has_cycle (chain_graph ns).
Proof.
  intros Hnd [v Hv]. apply chain_path in Hv as (i & j & Hij & Hi & Hj);
    [|done].
  rewrite (NoDup_lookup ns i j v Hnd Hi Hj) in Hij. lia.
Qed.

(** A chain has one order that respects its edges. *)
Lemma chain_order_unique (ns order : list nat) :
  NoDup ns → NoDup order → (∀ v, v ∈ order ↔ v ∈ ns) →
  respects (chain_graph ns) order → order = ns.
Proof.
  intros Hns Hord Hsame Hresp.
  assert (Hlen : length order = length ns).
  { apply Permutation_length, NoDup_Permutation; done. }
  assert (Hlow : ∀ i x j, ns !! i = Some x → order !! j = Some x → i ≤ j).
  { induction i as [|i IH]; intros x j Hi Hj; [lia|].
    destruct (ns !! i) as [y|] eqn:Hy.
    2: { apply lookup_ge_None in Hy. apply lookup_lt_Some in Hi. lia. }
    destruct (Hresp j x Hj y) as (j' & Hlt & Hj').
    { apply chain_edges_lookup. by exists i. }
    specialize (IH y j' eq_refl Hj'). lia. }
  assert (Hhigh : ∀ d i x j, ns !! i = Some x → order !! j = Some x →
                             i + d = length ns - 1 → j + d ≤ length ns - 1).
  { induction d as [|d IH]; intros i x j Hi Hj Hd.
    { apply lookup_lt_Some in Hj. lia. }
    destruct (ns !! S i) as [y|] eqn:Hy.
    2: { apply lookup_ge_None in Hy. lia. }
    assert (Hyin : y ∈ order).
    { apply Hsame. apply list_elem_of_lookup. eauto. }
    apply list_elem_of_lookup in Hyin as [j' Hj'].
    destruct (Hresp j' y Hj' x) as (j'' & Hlt & Hj'').
    { apply chain_edges_lookup. by exists i. }
    rewrite (NoDup_lookup order j'' j x Hord Hj'' Hj) in Hlt.
    assert (j' + d ≤ length ns - 1) by (apply (IH (S i) y); [done..|lia]).
    lia. }
  apply list_eq. intros i.
  destruct (ns !! i) as [x|] eqn:Hi.
  - assert (Hx : x ∈ order).
    { apply Hsame. apply list_elem_of_lookup. eauto. }
    apply list_elem_of_lookup in Hx as [j Hj].
    pose proof (Hlow i x j Hi Hj).
    apply lookup_lt_Some in Hi as Hlt.
    pose proof (Hhigh (length ns - 1 - i) i x j Hi Hj).
    replace i with j by lia. done.
  - apply lookup_ge_None in Hi. apply lookup_ge_None. lia.
Qed.

(** The topological order of a chain is the chain. *)
Lemma topological_sort_chain (ns : list nat) :
  NoDup ns → topological_sort (chain_graph ns) = Ok ns.
Proof.
  intros Hnd.
  destruct (topological_sort_acyclic (chain_graph ns))
    as (order & -> & Hord & Hsame & Hresp);
    [by apply chain_graph_wf|by apply chain_graph_acyclic|].
  f_equal. by apply chain_order_unique.
Qed.

Lemma chain_edges_from_outside (ns : list nat) (x : nat) :
  x ∉ ns → filter (λ e, e.1 = x) (chain_edges ns) = [].
Proof.
  intros Hx. induction ns as [|a [|b rest] IH]; [done..|].
  change (chain_edges (a :: b :: rest))
    with ((a, b) :: chain_edges (b :: rest)).
  rewrite filter_cons_False by (simpl; intros ->; apply Hx; by left).
  apply IH. intros Hin. apply Hx. by right.
Qed.

Lemma chain_edges_to_outside (ns : list nat) (x : nat) :
  x ∉ ns → filter (λ e, e.2 = x) (chain_edges ns) = [].
Proof.
  intros Hx. induction ns as [|a [|b rest] IH]; [done..|].
  change (chain_edges (a :: b :: rest))
    with ((a, b) :: chain_edges (b :: rest)).
  rewrite filter_cons_False
    by (simpl; intros ->; apply Hx; right; by left).
  apply IH. intros Hin. apply Hx. by right.
Qed.

(** In a chain a step has one successor, the step added after it. *)
Lemma chain_successors (pre rest : list nat) (a : nat) :
  NoDup (pre ++ a :: rest) →
  successors (chain_graph (pre ++ a :: rest)) a = option_list (head rest).
Proof.
  unfold successors, chain_graph. simpl.
  induction pre as [|p pre IH]; intros Hnd.
  - destruct rest as [|b rest]; [done|]. simpl app.
    change (chain_edges (a :: b :: rest))
      with ((a, b) :: chain_edges (b :: rest)).
    rewrite filter_cons_True by done.
    rewrite chain_edges_from_outside; [done|].
    by apply NoDup_cons in Hnd as [? _].
  - apply NoDup_cons in Hnd as [Hp Hnd]. specialize (IH Hnd).
    simpl app. destruct (pre ++ a :: rest) as [|q tl] eqn:Heq.
    { by destruct pre. }
    change (chain_edges (p :: q :: tl)) with ((p, q) :: chain_edges (q :: tl)).
    rewrite filter_cons_False; [done|].
    simpl. intros ->. apply Hp. rewrite <- ?Heq.
    apply elem_of_app. right. by left.
Qed.

(** ... and one predecessor, the step added before it. *)
Lemma chain_predecessors (pre rest : list nat) (a : nat) :
  NoDup (pre ++ a :: rest) →
  predecessors (chain_graph (pre ++ a :: rest)) a = option_list (last pre).
Proof.
  unfold predecessors, chain_graph. simpl.
  induction pre as [|p pre IH]; intros Hnd.
  - simpl app. apply NoDup_cons in Hnd as [Ha Hnd].
    destruct rest as [|b rest]; [done|].
    change (chain_edges (a :: b :: rest))
      with ((a, b) :: chain_edges (b :: rest)).
    rewrite filter_cons_False
      by (simpl; intros ->; apply Ha; by left).
    assert (Hout : a ∉ b :: rest) by done.
    by rewrite (chain_edges_to_outside _ _ Hout).
  - apply NoDup_cons in Hnd as [Hp Hnd]. specialize (IH Hnd).
    simpl app. destruct pre as [|q pre].
    + simpl app in *.
      change (chain_edges (p :: a :: rest))
        with ((p, a) :: chain_edges (a :: rest)).
      rewrite filter_cons_True by done.
      rewrite fmap_cons, IH. done.
    + simpl app in *.
      change (chain_edges (p :: q :: (pre ++ a :: rest)))
        with ((p, q) :: chain_edges (q :: (pre ++ a :: rest))).
      rewrite filter_cons_False.
      * rewrite IH. done.
      * simpl. intros ->. apply NoDup_cons in Hnd as [Hq _]. apply Hq.
        apply elem_of_app. right. by left.
Qed.

Lemma dfs_visit_chain (rest pre seen : list nat) (a fuel : nat) :
  NoDup (pre ++ a :: rest) → (∀ x, x ∈ seen → x ∈ pre) →
  length rest < fuel →
  dfs_visit fuel (chain_graph (pre ++ a :: rest)) a seen
  = rev (a :: rest) ++ seen.
Proof.
  revert pre seen a fuel.
  induction rest as [|b rest IH]; intros pre seen a fuel Hnd Hseen Hfuel.
  - destruct fuel as [|fuel]; [simpl in Hfuel; lia|]. simpl dfs_visit.
    rewrite bool_decide_eq_false_2.
    + by rewrite chain_successors.
    + intros Hin. apply NoDup_app in Hnd as (_ & Hdisj & _).
      apply (Hdisj a (Hseen a Hin)). by left.
  - destruct fuel as [|fuel]; [simpl in Hfuel; lia|]. simpl dfs_visit.
    rewrite bool_decide_eq_false_2.
    + rewrite chain_successors by done. simpl.
      replace (pre ++ a :: b :: rest) with ((pre ++ [a]) ++ b :: rest) in *
        by by rewrite <- app_assoc.
      rewrite IH; [|done| |simpl in Hfuel; lia].
      * simpl. by rewrite <- !app_assoc.
      * intros x [->|Hx]%elem_of_cons; apply elem_of_app;
          [right; by left|left; auto].
    + intros Hin. apply NoDup_app in Hnd as (_ & Hdisj & _).
      apply (Hdisj a (Hseen a Hin)). by left.
Qed.

(** Walking a chain depth first from one of its steps visits that step
    and the steps added after it, in the order they were added. *)
Lemma dfs_preorder_nodes_chain (pre rest : list nat) (a : nat) :
  NoDup (pre ++ a :: rest) →
  dfs_preorder_nodes (chain_graph (pre ++ a :: rest)) a = a :: rest.
Proof.
  intros Hnd. unfold dfs_preorder_nodes.
  rewrite dfs_visit_chain; [|done|by intros x ?%elem_of_nil|].
  - rewrite app_nil_r. apply rev_involutive.
  - simpl. rewrite length_app. simpl. lia.
Qed.

(** ** Running a chain *)

Lemma for_each_ext {S A} (xs : list A) (f g : A → M S unit) (s : S) :
  (∀ x, x ∈ xs → ∀ s', f x s' = g x s') →
  for_each xs f s = for_each xs g s.
Proof.
  revert s. induction xs as [|x xs IH]; intros s Hfg; [done|].
  simpl. rewrite !bind_run, (Hfg x) by by left.
  destruct (g x s) as [[| |] s1]; try done.
  apply IH. intros y Hy. apply Hfg. by right.
Qed.

Lemma execute_from_chain (E : Env) (st : State) (pre rest : list nat)
    (a : nat) :
  NoDup (pre ++ a :: rest) → graph st = chain_graph (pre ++ a :: rest) →
  _execute_from E a st
  = (for_each rest (_execute_step E) ;;
     r ← read_result E;
     mret (default VNone r)) st.
Proof.
  intros Hnd Hg. unfold _execute_from.
  rewrite bind_run. unfold gets at 1. rewrite Hg.
  rewrite dfs_preorder_nodes_chain by done.
  rewrite !bind_run. cbn [for_each]. rewrite bind_run.
  rewrite bool_decide_eq_false_2 by (intros Hne; by apply Hne).
  unfold mret at 1, M_ret at 1.
  rewrite (for_each_ext rest _ (_execute_step E)); [done|].
  intros x Hx s'. rewrite bool_decide_eq_true_2; [done|].
  intros ->. apply NoDup_app in Hnd as (_ & _ & Hnd).
  by apply NoDup_cons in Hnd as [? _].
Qed.

Lemma Pipeline_execute_chain (E : Env) (st : State) (ic : option Ctx)
    (ns : list nat) :
  NoDup ns → graph st = chain_graph ns →
  (∀ first d, head ns = Some first → steps st first ≠ Source d) →
  Pipeline_execute E ic st
  = single_pass E ns (set_context (fun _ => Context_init ic) st).
Proof.
  intros Hnd Hg Hfirst. rewrite Pipeline_execute_sort, Hg.
  rewrite topological_sort_chain by done.
  destruct (head ns) as [first|] eqn:Hhead; [|done].
  destruct (steps st first) as [| | |d] eqn:Hs; try done.
  by destruct (Hfirst first d).
Qed.

(** ** Keys and single steps *)

Lemma get_output_key_frame {T} `{StepLike T} (E : Env) (s : T) (c : Ctx)
    (r n : nat) :
  get_output_key E (mkFrame s c r n)
  = (Ok (key_in E (output_key s) r),
     mkFrame (keyed_out E r s) c (drawn (output_key s) r) n).
Proof.
  rewrite get_output_key_run. unfold keyed_out, drawn.
  by destruct (truthy (output_key s)).
Qed.

Lemma get_input_key_frame {T} `{StepLike T} (E : Env) (s : T) (c : Ctx)
    (r n : nat) :
  get_input_key E (mkFrame s c r n)
  = (Ok (key_in E (input_key s) r),
     mkFrame (keyed_in E r s) c (drawn (input_key s) r) n).
Proof.
  rewrite get_input_key_run. unfold keyed_in, drawn.
  by destruct (truthy (input_key s)).
Qed.

Lemma key_in_truthy (E : Env) (k : option string) (r : nat) :
  draws_keys E → truthy (Some (key_in E k r)) = true.
Proof.
  intros HE. unfold key_in. destruct k as [[|a s]|]; try done;
    specialize (HE r); by destruct (generate_random_string E r).
Qed.

Lemma key_in_set (E : Env) (k : option string) (r : nat) :
  truthy k = true → k = Some (key_in E k r).
Proof. by destruct k as [[|a s]|]. Qed.

Lemma key_in_stable (E : Env) (key : string) (r : nat) :
  truthy (Some key) = true → key_in E (Some key) r = key.
Proof. by destruct key. Qed.

Lemma Step_input_key_set (k : option string) (s : Step) :
  input_key (set_input_key k s) = k.
Proof. by destruct s. Qed.

Lemma Step_output_key_kept (k : option string) (s : Step) :
  output_key (set_input_key k s) = output_key s.
Proof. by destruct s. Qed.

Lemma Step_input_key_kept (k : option string) (s : Step) :
  input_key (set_output_key k s) = input_key s.
Proof. by destruct s. Qed.

Lemma keyed_out_output (E : Env) (r : nat) (s : Step) :
  output_key (keyed_out E r s) = Some (key_in E (output_key s) r).
Proof.
  unfold keyed_out. destruct (truthy (output_key s)) eqn:Ht.
  - by apply key_in_set.
  - rewrite Step_output_key_set. by destruct (output_key s) as [[|a k]|].
Qed.

Lemma keyed_in_input (E : Env) (r : nat) (s : Step) :
  input_key (keyed_in E r s) = Some (key_in E (input_key s) r).
Proof.
  unfold keyed_in. destruct (truthy (input_key s)) eqn:Ht.
  - by apply key_in_set.
  - rewrite Step_input_key_set. by destruct (input_key s) as [[|a k]|].
Qed.

Lemma keyed_out_input (E : Env) (r : nat) (s : Step) :
  input_key (keyed_out E r s) = input_key s.
Proof.
  unfold keyed_out. destruct (truthy (output_key s)); [done|].
  apply Step_input_key_kept.
Qed.

Lemma keyed_in_output (E : Env) (r : nat) (s : Step) :
  output_key (keyed_in E r s) = output_key s.
Proof.
  unfold keyed_in. destruct (truthy (input_key s)); [done|].
  apply Step_output_key_kept.
Qed.

Lemma keyed_out_set (E : Env) (r : nat) (s : Step) :
  truthy (output_key s) = true → keyed_out E r s = s.
Proof. unfold keyed_out. by intros ->. Qed.

Lemma keyed_in_set (E : Env) (r : nat) (s : Step) :
  truthy (input_key s) = true → keyed_in E r s = s.
Proof. unfold keyed_in. by intros ->. Qed.

(** X7.  [get_output_key] and [get_input_key] hand out the key the step was
    given when it is a non-empty string, and draw one random string
    otherwise, also for a key given as the empty string.  Either way the
    key is the attribute of the step from then on: asking again returns
    it and changes nothing, and the other key and the Context are left
    alone. *)
Theorem Step_keys_stable (E : Env) (fr : Frame Step) :
  draws_keys E →
  (∃ key fr1,
     get_output_key E fr = (Ok key, fr1)
     ∧ (truthy (output_key (self fr)) = true →
        output_key (self fr) = Some key ∧ fr1 = fr)
     ∧ (truthy (output_key (self fr)) = false →
        key = generate_random_string E (rnd fr) ∧ rnd fr1 = S (rnd fr))
     ∧ output_key (self fr1) = Some key
     ∧ input_key (self fr1) = input_key (self fr)
     ∧ ctx fr1 = ctx fr ∧ calls fr1 = calls fr
     ∧ get_output_key E fr1 = (Ok key, fr1))
  ∧ (∃ key fr1,
       get_input_key E fr = (Ok key, fr1)
       ∧ (truthy (input_key (self fr)) = true →
          input_key (self fr) = Some key ∧ fr1 = fr)
       ∧ (truthy (input_key (self fr)) = false →
          key = generate_random_string E (rnd fr) ∧ rnd fr1 = S (rnd fr))
       ∧ input_key (self fr1) = Some key
       ∧ output_key (self fr1) = output_key (self fr)
       ∧ ctx fr1 = ctx fr ∧ calls fr1 = calls fr
       ∧ get_input_key E fr1 = (Ok key, fr1)).
Proof.
  intros HE. destruct fr as [s c r n]. cbn [self ctx rnd calls]. split.
  - rewrite get_output_key_frame. eexists _, _. split; [reflexivity|].
    cbn [self ctx rnd calls].
    pose proof (key_in_truthy E (output_key s) r HE) as Hkey.
    split_and!.
    + intros Ht. split; [by apply key_in_set|].
      unfold drawn. by rewrite keyed_out_set, Ht.
    + intros Hf. unfold drawn. rewrite Hf. split; [|done].
      by destruct (output_key s) as [[|a k]|].
    + apply keyed_out_output.
    + apply keyed_out_input.
    + done.
    + done.
    + rewrite get_output_key_frame, keyed_out_output.
      rewrite key_in_stable by done. unfold drawn. rewrite Hkey.
      by rewrite keyed_out_set by by rewrite keyed_out_output.
  - rewrite get_input_key_frame. eexists _, _. split; [reflexivity|].
    cbn [self ctx rnd calls].
    pose proof (key_in_truthy E (input_key s) r HE) as Hkey.
    split_and!.
    + intros Ht. split; [by apply key_in_set|].
      unfold drawn. by rewrite keyed_in_set, Ht.
    + intros Hf. unfold drawn. rewrite Hf. split; [|done].
      by destruct (input_key s) as [[|a k]|].
    + apply keyed_in_input.
    + apply keyed_in_output.
    + done.
    + done.
    + rewrite get_input_key_frame, keyed_in_input.
      rewrite key_in_stable by done. unfold drawn. rewrite Hkey.
      by rewrite keyed_in_set by by rewrite keyed_in_input.
Qed.
Lemma PromptStep_execute_run (E : Env) (p : PromptStep) (c : Ctx) (r n : nat) :
  PromptStep_execute E (mkFrame p c r n)
  = match format (template p) (c ∪ variables p) with
    | inl text =>
        (Ok text,
         mkFrame (keyed_out E r p)
           (Context_add (key_in E (output_key p) r) (VStr text) c)
           (drawn (output_key p) r) n)
    | inr e => (Raise e, mkFrame p c r n)
    end.
Proof.
  unfold PromptStep_execute. rewrite bind_run. unfold gets at 1.
  rewrite bind_run. unfold gets at 1. cbn [self ctx]. rewrite bind_run.
  destruct (format (template p) (c ∪ variables p)) as [text|e]; [|done].
  unfold lift, mret at 1, M_ret at 1. rewrite bind_run.
  rewrite get_output_key_frame. done.
Qed.

Lemma ApplyStep_execute_run (E : Env) (s : ApplyStep) (c : Ctx) (r n : nat) :
  ApplyStep_execute E (mkFrame s c r n)
  = match func s (Context_get (key_in E (input_key s) r) c) with
    | inl v =>
        (Ok v,
         mkFrame (keyed_out E (drawn (input_key s) r) (keyed_in E r s))
           (Context_add
              (key_in E (output_key s) (drawn (input_key s) r)) v c)
           (drawn (output_key s) (drawn (input_key s) r)) n)
    | inr e =>
        (Raise e, mkFrame (keyed_in E r s) c (drawn (input_key s) r) n)
    end.
Proof.
  unfold ApplyStep_execute. rewrite bind_run, get_input_key_frame.
  rewrite bind_run. unfold ctx_get at 1, gets at 1. cbn [ctx].
  rewrite bind_run. unfold gets at 1. cbn [self]. rewrite bind_run.
  assert (Hf : func (keyed_in E r s) = func s).
  { unfold keyed_in. by destruct (truthy (input_key s)). }
  assert (Ho : output_key (keyed_in E r s) = output_key s).
  { unfold keyed_in. by destruct (truthy (input_key s)). }
  rewrite Hf.
  destruct (func s (Context_get (key_in E (input_key s) r) c)) as [v|e];
    [|done].
  unfold lift, mret at 1, M_ret at 1. rewrite bind_run.
  rewrite get_output_key_frame, Ho. done.
Qed.

(** X8.  An [ApplyStep] reads the value under its input key, [None] when the
    Context has none, and hands it to its function.  When the function
    returns, the Context changes at the output key alone, which holds
    the result; when it raises, the exception leaves [execute] and the
    Context is as it was.  The model capability is not called. *)
Theorem ApplyStep_execute_spec (E : Env) (s : ApplyStep) (c : Ctx)
    (r n : nat) :
  let input_value := Context_get (key_in E (input_key s) r) c in
  let key := key_in E (output_key s) (drawn (input_key s) r) in
  (∀ v, func s input_value = inl v →
        ∃ fr, ApplyStep_execute E (mkFrame s c r n) = (Ok v, fr)
              ∧ ctx fr = Context_add key v c
              ∧ Context_get key (ctx fr) = v
              ∧ (∀ k, k ≠ key → Context_get k (ctx fr) = Context_get k c)
              ∧ output_key (self fr) = Some key
              ∧ func (self fr) = func s ∧ calls fr = n)
  ∧ (∀ e, func s input_value = inr e →
          ∃ fr, ApplyStep_execute E (mkFrame s c r n) = (Raise e, fr)
                ∧ ctx fr = c ∧ output_key (self fr) = output_key s
                ∧ calls fr = n).
Proof.
  intros input_value key. subst input_value key.
  rewrite ApplyStep_execute_run. split.
  - intros v ->. eexists. split; [reflexivity|]. cbn [self ctx calls].
    split_and!; try done.
    + apply Context_get_add.
    + intros k Hk. unfold Context_get, Context_add.
      by rewrite lookup_insert_ne.
    + destruct s as [[[|a ik]|] [[|b ok]|] f]; done.
    + destruct s as [[[|a ik]|] [[|b ok]|] f]; done.
  - intros e ->. eexists. split; [reflexivity|]. cbn [self ctx calls].
    split_and!; try done.
    destruct s as [[[|a ik]|] [[|b ok]|] f]; done.
Qed.

Lemma ModelStep_execute_run (E : Env) (s : ModelStep) (c : Ctx) (r n : nat) :
  ModelStep_execute E (mkFrame s c r n)
  = match prompt_step s with
    | Some p =>
        match format (template p) (c ∪ variables p) with
        | inr e => (Raise e, mkFrame s c r n)
        | inl text =>
            let s1 :=
              mkModelStep (m_input_key s) (m_output_key s) (provider s)
                (model_name s) (client s) (Some (keyed_out E r p)) in
            let c1 := Context_add (key_in E (output_key p) r) (VStr text) c in
            let r1 := drawn (output_key p) r in
            match call_model E n (provider s) (model_name s) (client s)
                    (VStr text) with
            | inr e => (Raise e, mkFrame s1 c1 r1 (S n))
            | inl v =>
                (Ok v,
                 mkFrame (keyed_out E r1 s1)
                   (Context_add (key_in E (output_key s) r1) v c1)
                   (drawn (output_key s) r1) (S n))
            end
        end
    | None =>
        let s1 := keyed_in E r s in
        let r1 := drawn (input_key s) r in
        match call_model E n (provider s) (model_name s) (client s)
                (Context_get (key_in E (input_key s) r) c) with
        | inr e => (Raise e, mkFrame s1 c r1 (S n))
        | inl v =>
            (Ok v,
             mkFrame (keyed_out E r1 s1)
               (Context_add (key_in E (output_key s) r1) v c)
               (drawn (output_key s) r1) (S n))
        end
    end.
Proof.
  unfold ModelStep_execute. rewrite bind_run. unfold gets at 1.
  cbn [self]. rewrite bind_run.
  destruct (prompt_step s) as [p|] eqn:Hp.
  - rewrite bind_run. unfold within. cbn [ctx rnd calls self].
    rewrite PromptStep_execute_run.
    destruct (format (template p) (c ∪ variables p)) as [text|e].
    + cbn [self ctx rnd calls]. unfold mret at 1, M_ret at 1.
      rewrite bind_run. unfold invoke_model at 1. cbn [self ctx rnd calls].
      destruct (call_model E n (provider s) (model_name s) (client s)
                  (VStr text)) as [v|e]; [|done].
      unfold lift, mret at 1, M_ret at 1. rewrite bind_run.
      rewrite get_output_key_frame. done.
    + cbn [self ctx rnd calls]. destruct s; simpl in *. by subst.
  - rewrite bind_run, get_input_key_frame.
    unfold ctx_get at 1, gets at 1. cbn [ctx]. rewrite bind_run.
    unfold invoke_model at 1. cbn [self ctx rnd calls].
    destruct (call_model E n (provider s) (model_name s) (client s)
                (Context_get (key_in E (input_key s) r) c)) as [v|e]; [|done].
    unfold lift, mret at 1, M_ret at 1. rewrite bind_run.
    rewrite get_output_key_frame.
    assert (Ho : output_key (keyed_in E r s) = output_key s).
    { unfold keyed_in. by destruct (truthy (input_key s)). }
    by rewrite Ho.
Qed.

(** X9.  A [ModelStep] with an inline prompt formats the prompt first.  A
    placeholder without a value raises [KeyError] before the model is
    called, and nothing is written.  Otherwise the model is called once,
    with the formatted text; the text is also left in the Context, under
    the output key of the inner [PromptStep], even when the model call
    fails.  The input key of the step plays no part. *)
Theorem ModelStep_execute_prompted (E : Env) (s : ModelStep)
    (p : PromptStep) (c : Ctx) (r n : nat) :
  prompt_step s = Some p →
  (∀ e, format (template p) (c ∪ variables p) = inr e →
        ModelStep_execute E (mkFrame s c r n) = (Raise e, mkFrame s c r n))
  ∧ (∀ text, format (template p) (c ∪ variables p) = inl text →
       let c1 := Context_add (key_in E (output_key p) r) (VStr text) c in
       let key := key_in E (output_key s) (drawn (output_key p) r) in
       let answer := call_model E n (provider s) (model_name s) (client s)
                       (VStr text) in
       (∀ e, answer = inr e →
             ∃ fr, ModelStep_execute E (mkFrame s c r n) = (Raise e, fr)
                   ∧ ctx fr = c1 ∧ calls fr = S n)
       ∧ (∀ v, answer = inl v →
               ∃ fr, ModelStep_execute E (mkFrame s c r n) = (Ok v, fr)
                     ∧ ctx fr = Context_add key v c1
                     ∧ calls fr = S n
                     ∧ input_key (self fr) = input_key s)).
Proof.
  intros Hp. rewrite ModelStep_execute_run, Hp. split.
  - by intros e ->.
  - intros text -> c1 key answer. subst c1 key answer. split.
    + intros e ->. eexists. by split.
    + intros v ->. eexists. split; [reflexivity|]. cbn [self ctx calls].
      split_and!; try done.
      unfold keyed_out. cbn [output_key ModelStep_like m_output_key].
      by destruct (truthy (m_output_key s)).
Qed.

(** X10.  A [ModelStep] without a prompt sends the model the value under its
    input key, [None] when the Context has none.  The model is called
    once; its answer is written under the output key and returned, and a
    failure of the call leaves the Context as it was. *)
Theorem ModelStep_execute_input (E : Env) (s : ModelStep) (c : Ctx)
    (r n : nat) :
  prompt_step s = None →
  let input_text := Context_get (key_in E (input_key s) r) c in
  let key := key_in E (output_key s) (drawn (input_key s) r) in
  let answer := call_model E n (provider s) (model_name s) (client s)
                  input_text in
  (∀ e, answer = inr e →
        ∃ fr, ModelStep_execute E (mkFrame s c r n) = (Raise e, fr)
              ∧ ctx fr = c ∧ calls fr = S n)
  ∧ (∀ v, answer = inl v →
          ∃ fr, ModelStep_execute E (mkFrame s c r n) = (Ok v, fr)
                ∧ ctx fr = Context_add key v c
                ∧ output_key (self fr) = Some key
                ∧ calls fr = S n).
Proof.
  intros Hp input_text key answer. subst input_text key answer.
  rewrite ModelStep_execute_run, Hp. split.
  - intros e ->. eexists. by split.
  - intros v ->. eexists. split; [reflexivity|]. cbn [self ctx calls].
    split_and!; try done.
    destruct s as [[[|a ik]|] [[|b ok]|] pr mn cl ps]; done.
Qed.

Lemma extract_variables_elem (t : list piece) (name : string) :
  Field name ∈ t → keyword_name name = true →
  name ∈ _extract_variables t.
Proof.
  intros Hin Hkw. unfold _extract_variables. apply list_elem_of_omap.
  exists (Field name). split; [done|].
  unfold keyword_name in Hkw. apply andb_true_iff in Hkw as [Hw Hd].
  destruct name as [|a name]; [done|]. by rewrite Hw.
Qed.

Lemma default_variables_lookup (t : list piece) (name : string)
    (ik ok : option string) :
  name ∈ _extract_variables t →
  variables (PromptStep_init t None ik ok) !! name = Some VNone.
Proof.
  intros Hin. unfold PromptStep_init. cbn [variables].
  destruct (list_to_map ((λ var, (var, VNone)) <$> _extract_variables t)
              !! name) as [v|] eqn:Hv.
  - apply elem_of_list_to_map_2 in Hv.
    apply list_elem_of_fmap in Hv as (x & [= -> ->] & _). done.
  - apply not_elem_of_list_to_map_2 in Hv. destruct Hv.
    rewrite <- list_fmap_compose. apply list_elem_of_fmap. by exists name.
Qed.

(** X11.  A [PromptStep] made without [variables] gives every placeholder of
    its template the default [None]: the step does not fail, a
    placeholder takes its value from the Context, and one the Context
    does not hold is rendered as the text [None]. *)
Theorem PromptStep_default_variables (E : Env) (t : list piece)
    (ik ok : option string) (c : Ctx) (r n : nat) :
  (∀ name, Field name ∈ t → keyword_name name = true) →
  let s := PromptStep_init t None ik ok in
  let text := substitute c (variables s) t in
  (∀ name, Field name ∈ t →
           resolve c (variables s) name = Some (Context_get name c))
  ∧ ∃ fr, PromptStep_execute E (mkFrame s c r n) = (Ok text, fr)
          ∧ ctx fr = Context_add (key_in E ok r) (VStr text) c.
Proof.
  intros Hkw s text.
  assert (Hres : ∀ name, Field name ∈ t →
                   resolve c (variables s) name = Some (Context_get name c)).
  { intros name Hin. unfold resolve, Context_get.
    destruct (c !! name) as [v|]; [done|].
    apply default_variables_lookup, extract_variables_elem; auto. }
  split; [done|].
  rewrite PromptStep_execute_run.
  change (template s) with t.
  rewrite format_resolved.
  2: { intros name Hin. rewrite Hres by done. split; [|eauto].
       specialize (Hkw name Hin). unfold keyword_name in Hkw.
       apply andb_true_iff in Hkw as [_ Hkw]. by apply negb_true_iff in Hkw. }
  eexists. split; [reflexivity|]. done.
Qed.

Lemma store_target_unset (s : DatasetStep) (item : record)
    (fr : Frame DatasetStep) :
  truthy (target s) = false → store_target s item fr = (Ok tt, fr).
Proof. unfold store_target. by destruct (target s) as [[|a t]|]. Qed.

Lemma DatasetStep_execute_keys (s : DatasetStep) (item : record)
    (rest : list record) (c : Ctx) (r n : nat) (ki : string) :
  truthy (target s) = false → input_key s = Some ki → ki ≠ EmptyString →
  remaining s = item :: rest →
  (∀ v, item !! VStr ki = Some v →
        DatasetStep_execute (mkFrame s c r n)
        = (Ok (RRecord item),
           mkFrame (advanced s rest)
             match output_key s with
             | Some (String a ko) =>
                 Context_add (String a ko) v (Context_add ki v c)
             | _ => Context_add ki v c
             end r n))
  ∧ (item !! VStr ki = None →
     DatasetStep_execute (mkFrame s c r n)
     = (Raise (KeyError (VStr ki)), mkFrame (advanced s rest) c r n)).
Proof.
  intros Ht Hki Hne Hrem.
  rewrite (DatasetStep_execute_next s item rest c r n Hrem).
  rewrite bind_run, store_target_unset by done.
  rewrite bind_run. unfold store_keys.
  change (input_key (advanced s rest)) with (input_key s).
  change (output_key (advanced s rest)) with (output_key s).
  rewrite Hki. destruct ki as [|a ki]; [done|]. cbn [key_value].
  unfold getitem. split.
  - intros v Hv. rewrite Hv. unfold_monad. cbn.
    destruct (d_output_key s) as [[|b ko]|]; by rewrite ?Hv.
  - intros Hv. rewrite Hv. done.
Qed.

(** X12.  A Source step with an input key and no target copies the field of
    the record named by the input key into the Context, under the input
    key and, when one is set, under the output key as well; the record is
    returned.  A record without that field raises [KeyError] and leaves
    the Context as it was.  In both cases the record is used up. *)
Theorem DatasetStep_keys_spec (s : DatasetStep) (item : record)
    (rest : list record) (c : Ctx) (r n : nat) (ki : string) :
  truthy (target s) = false → input_key s = Some ki → ki ≠ EmptyString →
  remaining s = item :: rest →
  (∀ v, item !! VStr ki = Some v →
        ∃ fr, DatasetStep_execute (mkFrame s c r n) = (Ok (RRecord item), fr)
              ∧ self fr = advanced s rest
              ∧ Context_get ki (ctx fr) = v
              ∧ (∀ ko, output_key s = Some ko → ko ≠ EmptyString →
                       Context_get ko (ctx fr) = v)
              ∧ (∀ k, k ≠ ki → output_key s ≠ Some k →
                      Context_get k (ctx fr) = Context_get k c))
  ∧ (item !! VStr ki = None →
     DatasetStep_execute (mkFrame s c r n)
     = (Raise (KeyError (VStr ki)), mkFrame (advanced s rest) c r n)).
Proof.
  intros Ht Hki Hne Hrem.
  destruct (DatasetStep_execute_keys s item rest c r n ki Ht Hki Hne Hrem)
    as [Hsome Hnone].
  split; [|done]. intros v Hv. rewrite (Hsome v Hv).
  eexists. split; [reflexivity|]. cbn [self ctx]. split; [done|].
  unfold Context_get, Context_add.
  destruct (output_key s) as [[|a ko]|] eqn:Hko.
  - rewrite lookup_insert_eq. split_and!; [done|by intros ko [= <-]|].
    intros k Hk _. by rewrite lookup_insert_ne.
  - split_and!.
    + destruct (decide (String a ko = ki)) as [->|Hd].
      * by rewrite lookup_insert_eq.
      * by rewrite lookup_insert_ne, lookup_insert_eq.
    + intros ko' [= <-] _. by rewrite lookup_insert_eq.
    + intros k Hk Hk'. rewrite !lookup_insert_ne; congruence.
  - rewrite lookup_insert_eq. split_and!; [done|done|].
    intros k Hk _. by rewrite lookup_insert_ne.
Qed.

Lemma DatasetStep_execute_self (s : DatasetStep) (item : record)
    (rest : list record) (c : Ctx) (r n : nat) :
  remaining s = item :: rest →
  self (DatasetStep_execute (mkFrame s c r n)).2 = advanced s rest
  ∧ ((DatasetStep_execute (mkFrame s c r n)).1 = Ok (RRecord item)
     ∨ ∃ e, (DatasetStep_execute (mkFrame s c r n)).1 = Raise e).
Proof.
  intros Hrem.
  rewrite (DatasetStep_execute_next s item rest c r n Hrem).
  rewrite bind_run.
  destruct (store_target_self (advanced s rest) item
              (mkFrame (advanced s rest) c r n)) as [Hs1 Hu1].
  destruct (store_target (advanced s rest) item
              (mkFrame (advanced s rest) c r n)) as [[[]| |] fr1];
    cbn [fst snd self] in *; [|eauto|done].
  rewrite bind_run.
  destruct (store_keys_self (advanced s rest) item fr1) as [Hs2 Hu2].
  destruct (store_keys (advanced s rest) item fr1) as [[[]| |] fr2];
    cbn [fst snd self] in *; [|split; [congruence|eauto]|done].
  unfold mret, M_ret. cbn [fst snd]. split; [congruence|by left].
Qed.

(** X13.  The cursor of a Source step.  A call with a record left uses that
    record up, whether storing it succeeds or raises.  A call with none
    left returns [None], leaves the Context alone and drops the iterator:
    over a list the next call starts again at the first record, over a
    generator there is nothing left for it. *)
Theorem DatasetStep_cursor (s : DatasetStep) (c : Ctx) (r n : nat) :
  (∀ item rest,
     remaining s = item :: rest →
     ((DatasetStep_execute (mkFrame s c r n)).1 = Ok (RRecord item)
      ∨ ∃ e, (DatasetStep_execute (mkFrame s c r n)).1 = Raise e)
     ∧ remaining (self (DatasetStep_execute (mkFrame s c r n)).2) = rest
     ∧ (one_shot s →
        one_shot (self (DatasetStep_execute (mkFrame s c r n)).2)))
  ∧ (remaining s = [] →
     ∃ s', DatasetStep_execute (mkFrame s c r n)
           = (Ok (RVal VNone), mkFrame s' c r n)
           ∧ _iterator s' = None
           ∧ (∀ items, d_dataset s = Sequence items → remaining s' = items)
           ∧ (∀ items, d_dataset s = Generator items → one_shot s →
                       remaining s' = [])).
Proof.
  split.
  - intros item rest Hrem.
    destruct (DatasetStep_execute_self s item rest c r n Hrem) as [-> Ho].
    split; [done|]. split; [done|].
    intros _. unfold one_shot, advanced. cbn [d_dataset _iterator].
    by destruct (d_dataset s).
  - intros Hrem. rewrite DatasetStep_execute_exhausted by done.
    eexists. split; [reflexivity|]. cbn [_iterator]. split; [done|].
    unfold remaining, one_shot in *. cbn [_iterator d_dataset]. split.
    + by intros items ->.
    + intros items Hd Hone. rewrite Hd in *. cbn [dataset_items].
      destruct (_iterator s) as [it|]; [congruence|done].
Qed.

(** ** Chains of unary steps *)

Lemma Step_execute_unary (E : Env) (s : Step) (c : Ctx) (r n : nat) :
  unary s = true →
  Step_execute E (mkFrame s c r n)
  = match step_apply E s n (Context_get (key_in E (input_key s) r) c) with
    | (inl w, n') =>
        (Ok (RVal w),
         mkFrame (keyed_out E (drawn (input_key s) r) (keyed_in E r s))
           (Context_add (key_in E (output_key s) (drawn (input_key s) r)) w c)
           (drawn (output_key s) (drawn (input_key s) r)) n')
    | (inr e, n') =>
        (Raise e, mkFrame (keyed_in E r s) c (drawn (input_key s) r) n')
    end.
Proof.
  intros Hu. unfold Step_execute. rewrite bind_run. unfold gets at 1.
  cbn [self]. destruct s as [p|m|a|d]; try done.
  - cbn [unary] in Hu. destruct (prompt_step m) as [p|] eqn:Hp; [done|].
    rewrite bind_run. unfold within. cbn [self ctx rnd calls].
    rewrite ModelStep_execute_run, Hp. cbn [step_apply].
    change (input_key (Model m)) with (input_key m).
    change (output_key (Model m)) with (output_key m).
    destruct (call_model E n (provider m) (model_name m) (client m)
                (Context_get (key_in E (input_key m) r) c)) as [w|e].
    + cbn [self ctx rnd calls]. unfold mret, M_ret. f_equal. f_equal.
      unfold keyed_out, keyed_in.
      change (input_key (Model m)) with (input_key m).
      destruct (truthy (input_key m));
        [change (output_key (Model m)) with (output_key m)
        |change (output_key (set_input_key _ (Model m)))
           with (output_key m);
         change (output_key (set_input_key
                               (Some (generate_random_string E r)) m))
           with (output_key m)];
        by destruct (truthy (output_key m)).
    + cbn [self ctx rnd calls]. f_equal. f_equal.
      unfold keyed_in. change (input_key (Model m)) with (input_key m).
      by destruct (truthy (input_key m)).
  - rewrite bind_run. unfold within. cbn [self ctx rnd calls].
    rewrite ApplyStep_execute_run. cbn [step_apply].
    change (input_key (Apply a)) with (input_key a).
    change (output_key (Apply a)) with (output_key a).
    destruct (func a (Context_get (key_in E (input_key a) r) c)) as [w|e].
    + cbn [self ctx rnd calls]. unfold mret, M_ret. f_equal. f_equal.
      unfold keyed_out, keyed_in.
      change (input_key (Apply a)) with (input_key a).
      destruct (truthy (input_key a));
        [change (output_key (Apply a)) with (output_key a)
        |change (output_key (set_input_key _ (Apply a)))
           with (output_key a);
         change (output_key (set_input_key
                               (Some (generate_random_string E r)) a))
           with (output_key a)];
        by destruct (truthy (output_key a)).
    + cbn [self ctx rnd calls]. f_equal. f_equal.
      unfold keyed_in. change (input_key (Apply a)) with (input_key a).
      by destruct (truthy (input_key a)).
Qed.

Lemma keyed_in_work (E : Env) (r : nat) (s : Step) :
  unary (keyed_in E r s) = unary s
  ∧ ∀ k w, step_apply E (keyed_in E r s) k w = step_apply E s k w.
Proof.
  unfold keyed_in. destruct (truthy (input_key s)); [done|].
  by destruct s.
Qed.

Lemma keyed_out_work (E : Env) (r : nat) (s : Step) :
  unary (keyed_out E r s) = unary s
  ∧ ∀ k w, step_apply E (keyed_out E r s) k w = step_apply E s k w.
Proof.
  unfold keyed_out. destruct (truthy (output_key s)); [done|].
  by destruct s.
Qed.

Lemma on_step_output_key (E : Env) (st : State) (p : nat) (ko : string) :
  output_key (steps st p) = Some ko → truthy (Some ko) = true →
  on_step p (get_output_key E) st
  = (Ok ko,
     mkState (<[p := steps st p]> (steps st)) (allocated st) (graph st)
       (context st) (previous_step st) (pbar st) (rnd_used st)
       (calls_made st)).
Proof.
  intros Hk Ht. unfold on_step. rewrite get_output_key_frame.
  cbn [self ctx rnd calls]. rewrite Hk, key_in_stable by done.
  unfold drawn. rewrite Ht, keyed_out_set by by rewrite Hk. done.
Qed.

Lemma on_step_input_key (E : Env) (st : State) (x : nat) :
  on_step x (get_input_key E) st
  = (Ok (key_in E (input_key (steps st x)) (rnd_used st)),
     mkState (<[x := keyed_in E (rnd_used st) (steps st x)]> (steps st))
       (allocated st) (graph st) (context st) (previous_step st) (pbar st)
       (drawn (input_key (steps st x)) (rnd_used st)) (calls_made st)).
Proof. unfold on_step. by rewrite get_input_key_frame. Qed.

(** A unary step whose one predecessor has left [v] under its output
    key is handed [v]. *)
Lemma execute_step_run (E : Env) (st0 st1 : State) (p x : nat) (v : value)
    (n : nat) :
  draws_keys E → chain_inv E st0 st1 p v n → p ≠ x →
  predecessors (graph st0) x = [p] → unary (steps st0 x) = true →
  let sx := steps st1 x in
  let r := rnd_used st1 in
  let r1 := drawn (input_key sx) r in
  let ki := key_in E (input_key sx) r in
  let store := <[x := keyed_in E r sx]> (<[p := steps st1 p]> (steps st1)) in
  _execute_step E x st1
  = match step_apply E (steps st0 x) n v with
    | (inl w, n') =>
        (Ok tt,
         mkState
           (<[x := keyed_out E (drawn (Some ki) r1)
                     (keyed_in E r1 (keyed_in E r sx))]> store)
           (allocated st1) (graph st1)
           (Context_add
              (key_in E (output_key (keyed_in E r sx)) (drawn (Some ki) r1))
              w (Context_add ki v (context st1)))
           (previous_step st1) (pbar st1)
           (drawn (output_key (keyed_in E r sx)) (drawn (Some ki) r1)) n')
    | (inr e, n') =>
        (Raise e,
         mkState (<[x := keyed_in E r1 (keyed_in E r sx)]> store)
           (allocated st1) (graph st1) (Context_add ki v (context st1))
           (previous_step st1) (pbar st1) (drawn (Some ki) r1) n')
    end.
Proof.
  intros HE [Hg Hprev (ko & Hko & Hkt & Hv) Hwork Hcalls] Hpx Hpred Hux.
  intros sx r r1 ki store.
  rewrite <- Hg in Hpred.
  unfold _execute_step, wire_inputs.
  rewrite !bind_run. unfold gets at 1. rewrite Hpred.
  cbn [for_each]. rewrite !bind_run.
  rewrite (on_step_output_key E st1 p ko Hko Hkt).
  cbv beta iota. rewrite bind_run. unfold gets at 1.
  cbv beta iota. cbn [context]. rewrite Hv.
  rewrite bind_run, on_step_input_key. cbn [steps rnd_used].
  rewrite fn_lookup_insert_ne by done.
  unfold modify at 1. unfold mret at 1, M_ret at 1.
  rewrite bind_run. unfold on_step at 1. unfold set_context.
  cbn [steps allocated graph context previous_step pbar rnd_used calls_made].
  rewrite fn_lookup_insert.
  destruct (Hwork x) as [Hu Hap].
  rewrite Step_execute_unary
    by (rewrite (proj1 (keyed_in_work E _ _)); congruence).
  rewrite keyed_in_input.
  pose proof (key_in_truthy E (input_key sx) r HE) as Hkin.
  fold sx r. rewrite (key_in_stable E _ _ Hkin).
  rewrite Context_get_add.
  rewrite (proj2 (keyed_in_work E r sx)). unfold sx at 1.
  rewrite Hap, Hcalls.
  by destruct (step_apply E (steps st0 x) n v) as [[w|e] n'].
Qed.

Lemma execute_step_next (E : Env) (st0 st1 : State) (p x : nat) (v : value)
    (n : nat) :
  draws_keys E → chain_inv E st0 st1 p v n → p ≠ x →
  predecessors (graph st0) x = [p] → unary (steps st0 x) = true →
  ∃ st2,
    (∀ m, m ≠ x → steps st2 m = steps st1 m)
    ∧ pbar st2 = pbar st1
    ∧ match step_apply E (steps st0 x) n v with
      | (inl w, n') =>
          _execute_step E x st1 = (Ok tt, st2) ∧ chain_inv E st0 st2 x w n'
      | (inr e, _) => _execute_step E x st1 = (Raise e, st2)
      end.
Proof.
  intros HE Hinv Hpx Hpred Hux.
  rewrite (execute_step_run E st0 st1 p x v n HE Hinv Hpx Hpred Hux).
  destruct Hinv as [Hg Hprev (ko & Hko & Hkt & Hv) Hwork Hcalls].
  assert (Hstore : ∀ s m, m ≠ x →
            <[x := s]> (<[p := steps st1 p]> (steps st1)) m = steps st1 m).
  { intros s m Hm. rewrite fn_lookup_insert_ne by done.
    destruct (decide (m = p)) as [->|Hmp].
    - by rewrite fn_lookup_insert.
    - by rewrite fn_lookup_insert_ne. }
  destruct (step_apply E (steps st0 x) n v) as [[w|e] n'].
  - eexists. split_and!; [| |reflexivity|].
    + intros m Hm. cbn [steps]. rewrite fn_lookup_insert_ne by done.
      by apply Hstore.
    + done.
    + split; cbn [graph previous_step steps context calls_made]; try done.
      * rewrite fn_lookup_insert. eexists. split; [apply keyed_out_output|].
        split; [by apply key_in_truthy|].
        rewrite keyed_in_output. apply Context_get_add.
      * intros m. destruct (decide (m = x)) as [->|Hm].
        -- rewrite fn_lookup_insert.
           destruct (Hwork x) as [<- Hap].
           split.
           ++ by rewrite (proj1 (keyed_out_work E _ _)),
                !(proj1 (keyed_in_work E _ _)).
           ++ intros k w'.
              by rewrite (proj2 (keyed_out_work E _ _)),
                !(proj2 (keyed_in_work E _ _)).
        -- rewrite fn_lookup_insert_ne, Hstore by done. apply Hwork.
  - eexists. split_and!; [| |reflexivity].
    + intros m Hm. cbn [steps]. rewrite fn_lookup_insert_ne by done.
      by apply Hstore.
    + done.
Qed.

Lemma execute_step_first (E : Env) (st : State) (x : nat) :
  draws_keys E →
  predecessors (graph st) x = [] → unary (steps st x) = true →
  ∃ st2,
    (∀ m, m ≠ x → steps st2 m = steps st m)
    ∧ pbar st2 = pbar st
    ∧ match step_apply E (steps st x) (calls_made st)
              (Context_get (key_in E (input_key (steps st x)) (rnd_used st))
                 (context st)) with
      | (inl w, n') =>
          _execute_step E x st = (Ok tt, st2) ∧ chain_inv E st st2 x w n'
      | (inr e, _) => _execute_step E x st = (Raise e, st2)
      end.
Proof.
  intros HE Hpred Hux.
  assert (Hrun : _execute_step E x st
                 = (on_step x (Step_execute E) ≫= λ _, mret tt) st).
  { unfold _execute_step, wire_inputs.
    rewrite !bind_run. unfold gets at 1. by rewrite Hpred. }
  rewrite Hrun, bind_run. unfold on_step. rewrite Step_execute_unary by done.
  clear Hrun.
  destruct (step_apply E (steps st x) (calls_made st)
              (Context_get (key_in E (input_key (steps st x)) (rnd_used st))
                 (context st))) as [[w|e] n'].
  - eexists. split_and!; [| |reflexivity|].
    + intros m Hm. cbn [steps]. by rewrite fn_lookup_insert_ne.
    + done.
    + split; cbn [graph previous_step steps context calls_made self ctx
                    rnd calls]; try done.
      * rewrite fn_lookup_insert. eexists. split; [apply keyed_out_output|].
        split; [by apply key_in_truthy|].
        rewrite keyed_in_output. apply Context_get_add.
      * intros m. destruct (decide (m = x)) as [->|Hm].
        -- rewrite fn_lookup_insert. split.
           ++ by rewrite (proj1 (keyed_out_work E _ _)),
                !(proj1 (keyed_in_work E _ _)).
           ++ intros k w'.
              by rewrite (proj2 (keyed_out_work E _ _)),
                !(proj2 (keyed_in_work E _ _)).
        -- by rewrite fn_lookup_insert_ne.
  - eexists. split_and!; [| |reflexivity].
    + intros m Hm. cbn [steps]. by rewrite fn_lookup_insert_ne.
    + done.
Qed.

Lemma last_cons_default {A} (x p : A) (l : list A) :
  default p (last (x :: l)) = default x (last l).
Proof. rewrite last_cons. by destruct (last l). Qed.

(** The steps of a chain after [p], run one after the other, apply
    [run_steps] to the value [p] left. *)
Lemma run_chain (E : Env) (st0 : State) (rest : list nat) :
  draws_keys E →
  ∀ (done_ : list nat) (p : nat) (st1 : State) (v : value) (n : nat),
    NoDup (done_ ++ rest) → last done_ = Some p →
    graph st0 = chain_graph (done_ ++ rest) →
    chain_inv E st0 st1 p v n →
    (∀ x, x ∈ rest → unary (steps st0 x) = true) →
    ∃ st2,
      (∀ m, m ∉ rest → steps st2 m = steps st1 m)
      ∧ pbar st2 = pbar st1
      ∧ match run_steps E (steps st0 <$> rest) n v with
        | (inl w, n') =>
            for_each rest (_execute_step E) st1 = (Ok tt, st2)
            ∧ chain_inv E st0 st2 (default p (last rest)) w n'
        | (inr e, _) => for_each rest (_execute_step E) st1 = (Raise e, st2)
        end.
Proof.
  intros HE. induction rest as [|x rest IH];
    intros done_ p st1 v n Hnd Hlast Hg Hinv Hun.
  { exists st1. by split_and!. }
  assert (Hp : p ∈ done_).
  { apply list_elem_of_lookup. exists (pred (length done_)).
    by rewrite <- last_lookup. }
  assert (Hpx : p ≠ x).
  { intros ->. apply NoDup_app in Hnd as (_ & Hdisj & _).
    apply (Hdisj x Hp). by left. }
  assert (Hpred : predecessors (graph st0) x = [p]).
  { rewrite Hg, chain_predecessors, Hlast by done. done. }
  destruct (execute_step_next E st0 st1 p x v n HE Hinv Hpx Hpred)
    as (st2 & Hsteps & Hpbar & Hrun); [apply Hun; by left|].
  cbn [fmap list_fmap run_steps]. cbn [for_each]. rewrite bind_run.
  destruct (step_apply E (steps st0 x) n v) as [[w|e] n'].
  - destruct Hrun as [-> Hinv2].
    destruct (IH (done_ ++ [x]) x st2 w n') as (st3 & Hsteps3 & Hpbar3 & Hrun3).
    + by rewrite <- app_assoc.
    + apply last_snoc.
    + by rewrite <- app_assoc.
    + done.
    + intros y Hy. apply Hun. by right.
    + exists st3. split_and!.
      * intros m Hm. rewrite Hsteps3, Hsteps; [done| |].
        -- intros ->. apply Hm. by left.
        -- intros Hin. apply Hm. by right.
      * congruence.
      * rewrite last_cons_default.
        by destruct (run_steps E (steps st0 <$> rest) n' w) as [[w'|e] n''].
  - rewrite Hrun. exists st2. split_and!; [|done..].
    intros m Hm. apply Hsteps. intros ->. apply Hm. by left.
Qed.

Lemma read_result_chain (E : Env) (st0 st1 : State) (p : nat) (v : value)
    (n : nat) :
  chain_inv E st0 st1 p v n → previous_step st0 = Some p →
  ∃ st2, read_result E st1 = (Ok (Some v), st2)
         ∧ (∀ m, steps st2 m = steps st1 m)
         ∧ pbar st2 = pbar st1 ∧ graph st2 = graph st1
         ∧ previous_step st2 = previous_step st1
         ∧ calls_made st2 = calls_made st1.
Proof.
  intros [Hg Hprev (ko & Hko & Hkt & Hv) Hwork Hcalls] Hp.
  unfold read_result. rewrite bind_run. unfold gets at 1.
  rewrite Hprev, Hp, bind_run.
  rewrite (on_step_output_key E st1 p ko Hko Hkt).
  rewrite bind_run. unfold gets at 1. cbn [context]. rewrite Hv.
  eexists. split; [reflexivity|]. cbn [steps pbar graph previous_step
                                        calls_made].
  split_and!; try done; try congruence.
  intros m. destruct (decide (m = p)) as [->|Hm].
  - by rewrite fn_lookup_insert.
  - by rewrite fn_lookup_insert_ne.
Qed.

Lemma single_pass_unary (E : Env) (st : State) (first : nat)
    (rest : list nat) :
  draws_keys E → NoDup (first :: rest) →
  graph st = chain_graph (first :: rest) →
  previous_step st = last (first :: rest) →
  (∀ x, x ∈ first :: rest → unary (steps st x) = true) →
  (single_pass E (first :: rest) st).1
  = match (run_steps E (steps st <$> first :: rest) (calls_made st)
             (Context_get
                (key_in E (input_key (steps st first)) (rnd_used st))
                (context st))).1 with
    | inl w => Ok (OValue w)
    | inr e => Raise e
    end.
Proof.
  intros HE Hnd Hg Hprev Hun.
  assert (Hpred : predecessors (graph st) first = []).
  { rewrite Hg. by apply (chain_predecessors [] rest first). }
  destruct (execute_step_first E st first HE Hpred)
    as (st1 & _ & _ & Hrun); [apply Hun; by left|].
  unfold single_pass. rewrite bind_run. cbn [for_each]. rewrite bind_run.
  cbn [fmap list_fmap run_steps].
  destruct (step_apply E (steps st first) (calls_made st)
              (Context_get
                 (key_in E (input_key (steps st first)) (rnd_used st))
                 (context st))) as [[w|e] n'].
  2: { by rewrite Hrun. }
  destruct Hrun as [-> Hinv].
  destruct (run_chain E st rest HE [first] first st1 w n')
    as (st2 & _ & _ & Hrest); try done.
  { intros x Hx. apply Hun. by right. }
  change (list_fmap nat Step (steps st) rest) with (steps st <$> rest).
  destruct (run_steps E (steps st <$> rest) n' w) as [[w'|e] n''].
  2: { by rewrite Hrest. }
  destruct Hrest as [-> Hinv2]. cbv beta iota. rewrite bind_run.
  destruct (read_result_chain E st st2 (default first (last rest)) w' n'')
    as (st3 & -> & _); [done| |done].
  rewrite Hprev, last_cons. by destruct (last rest).
Qed.

(** X14.  A pipeline whose steps are [ApplyStep]s and [ModelStep]s without a
    prompt, added one after the other, computes the composition of its
    steps: the first step is handed the value the initial context holds
    under its input key, every later step the result of the step before
    it, and [execute] returns the result of the last.  The first step
    that raises ends the run with its exception. *)
Theorem Pipeline_execute_unary_chain (E : Env) (st : State)
    (ic : option Ctx) (first : nat) (rest : list nat) :
  draws_keys E → NoDup (first :: rest) →
  graph st = chain_graph (first :: rest) →
  previous_step st = last (first :: rest) →
  (∀ x, x ∈ first :: rest → unary (steps st x) = true) →
  (Pipeline_execute E ic st).1
  = match (run_steps E (steps st <$> first :: rest) (calls_made st)
             (Context_get
                (key_in E (input_key (steps st first)) (rnd_used st))
                (Context_init ic))).1 with
    | inl w => Ok (OValue w)
    | inr e => Raise e
    end.
Proof.
  intros HE Hnd Hg Hprev Hun.
  rewrite (Pipeline_execute_chain E st ic (first :: rest) Hnd Hg).
  - by apply (single_pass_unary E
                (set_context (fun _ => Context_init ic) st) first rest).
  - intros f d [= <-] Hs.
    specialize (Hun first (list_elem_of_here _ _)). by rewrite Hs in Hun.
Qed.

(** ** Replay over a chain of unary steps *)

Lemma source_keys_run (E : Env) (st : State) (first : nat) (d : DatasetStep)
    (item : record) (rest : list record) (ki : string) :
  steps st first = Source d → truthy (target d) = false →
  input_key d = Some ki → ki ≠ EmptyString → remaining d = item :: rest →
  on_step first (Step_execute E) st
  = match item !! VStr ki with
    | Some v =>
        (Ok (RRecord item),
         mkState (<[first := Source (advanced d rest)]> (steps st))
           (allocated st) (graph st)
           match output_key d with
           | Some (String a ko) =>
               Context_add (String a ko) v (Context_add ki v (context st))
           | _ => Context_add ki v (context st)
           end (previous_step st) (pbar st) (rnd_used st) (calls_made st))
    | None =>
        (Raise (KeyError (VStr ki)),
         mkState (<[first := Source (advanced d rest)]> (steps st))
           (allocated st) (graph st) (context st) (previous_step st)
           (pbar st) (rnd_used st) (calls_made st))
    end.
Proof.
  intros Hs Ht Hki Hne Hrem. rewrite (Step_execute_source E st first d Hs).
  destruct (DatasetStep_execute_keys d item rest (context st) (rnd_used st)
              (calls_made st) ki Ht Hki Hne Hrem) as [Hsome Hnone].
  destruct (item !! VStr ki) as [v|].
  - by rewrite (Hsome v eq_refl).
  - by rewrite (Hnone eq_refl).
Qed.

Lemma replay_unary (E : Env) (st0 : State) (first : nat) (rest : list nat)
    (ki ko : string) :
  draws_keys E → NoDup (first :: rest) →
  graph st0 = chain_graph (first :: rest) →
  previous_step st0 = last (first :: rest) →
  (∀ x, x ∈ rest → unary (steps st0 x) = true) →
  ki ≠ EmptyString → truthy (Some ko) = true →
  ∀ (items : list record) (st1 : State) (d1 : DatasetStep) (acc : list value),
    pass_inv E st0 st1 → steps st1 first = Source d1 →
    remaining d1 = items → truthy (target d1) = false →
    input_key d1 = Some ki → output_key d1 = Some ko →
    (replay E (S (length items)) first acc st1).1
    = match replay_results E (steps st0 <$> rest) ki items (calls_made st1)
      with
      | inl ws => Ok (acc ++ ws)
      | inr e => Raise e
      end.
Proof.
  intros HE Hnd Hg Hprev Hun Hki Hko.
  induction items as [|item items IH];
    intros st1 d1 acc Hinv Hs Hrem Ht Hik Hok.
  { cbn [length replay replay_results]. rewrite bind_run.
    destruct (source_exhausted E st1 first d1 Hs Hrem) as (st' & -> & _).
    cbn [ret_is_None]. unfold mret, M_ret. cbn [fst]. by rewrite app_nil_r. }
  cbn [length replay_results]. unfold getitem.
  pose proof (source_keys_run E st1 first d1 item items ki Hs Ht Hik Hki Hrem)
    as Hsrc.
  destruct (item !! VStr ki) as [v|] eqn:Hv.
  2: { cbn [replay]. rewrite bind_run, Hsrc. done. }
  rewrite Hok in Hsrc. destruct ko as [|a ko]; [done|].
  set (st1a := mkState (<[first := Source (advanced d1 items)]> (steps st1))
                 (allocated st1) (graph st1)
                 (Context_add (String a ko) v
                    (Context_add ki v (context st1)))
                 (previous_step st1) (pbar st1) (rnd_used st1)
                 (calls_made st1)) in Hsrc.
  destruct Hinv as [Hg1 Hprev1 Hwork1].
  assert (Hinv1 : chain_inv E st0 st1a first v (calls_made st1)).
  { unfold st1a.
    split; cbn [graph previous_step steps context calls_made]; try done.
    - rewrite fn_lookup_insert. exists (String a ko).
      split; [by rewrite <- Hok|]. split; [done|apply Context_get_add].
    - intros m. destruct (decide (m = first)) as [->|Hm].
      + rewrite fn_lookup_insert. destruct (Hwork1 first) as [Hu Hap].
        rewrite Hs in Hu, Hap. split; [done|]. intros k w. by rewrite <- Hap.
      + rewrite fn_lookup_insert_ne by done. apply Hwork1. }
  assert (Hfirst : first ∉ rest) by by apply NoDup_cons in Hnd as [? _].
  destruct (run_chain E st0 rest HE [first] first st1a v (calls_made st1))
    as (st2 & Hsteps2 & _ & Hrest); try done.
  assert (Hfrom : _execute_from E first st1a
                  = (for_each rest (_execute_step E) ;;
                     r ← read_result E;
                     mret (default VNone r)) st1a).
  { apply (execute_from_chain E st1a [] rest first); [done|].
    unfold st1a. cbn [graph]. by rewrite Hg1, Hg. }
  destruct (run_steps E (steps st0 <$> rest) (calls_made st1) v)
    as [[w|e] n'] eqn:Hrs.
  2: { cbn [replay]. rewrite bind_run, Hsrc. cbn [ret_is_None].
       rewrite bind_run, Hfrom, bind_run, Hrest. done. }
  destruct Hrest as [Hrest Hinv2].
  destruct (read_result_chain E st0 st2 (default first (last rest)) w n')
    as (st3 & Hread & Hsteps3 & _ & Hg3 & Hprev3 & Hcalls3); [done| |].
  { rewrite Hprev, last_cons. by destruct (last rest). }
  assert (Hsub : _execute_from E first st1a = (Ok w, st3)).
  { rewrite Hfrom, bind_run, Hrest, bind_run, Hread. done. }
  rewrite (replay_step E (S (length items)) first acc st1 st1a st3 item w
             Hsrc Hsub).
  destruct Hinv2 as [Hg2 Hprev2 _ Hwork2 Hcalls2].
  rewrite (IH (after_pass st3) (advanced d1 items)).
  - cbn [calls_made after_pass set_pbar set_context]. rewrite Hcalls3, Hcalls2.
    destruct (replay_results E (steps st0 <$> rest) ki items n') as [ws|e];
      [|done].
    f_equal. destruct (is_None w); [done|]. by rewrite <- app_assoc.
  - split; cbn [after_pass set_pbar set_context graph previous_step steps].
    + congruence.
    + congruence.
    + intros m. rewrite Hsteps3. apply Hwork2.
  - cbn [after_pass set_pbar set_context steps].
    rewrite Hsteps3, Hsteps2 by done. unfold st1a. cbn [steps].
    apply fn_lookup_insert.
  - unfold remaining, advanced. done.
  - done.
  - done.
  - done.
Qed.

(** X15.  Dataset-replay mode over a Source step followed by [ApplyStep]s and
    [ModelStep]s without a prompt maps the chain over the dataset: for
    every record still to come, the field named by the input key of the
    Source step is put through the steps in the order they were added;
    [execute] returns the results in the order of the records, without
    those that are [None].  A record without the field, or a step that
    raises, ends the run with that exception. *)
Theorem Pipeline_execute_unary_replay (E : Env) (st : State)
    (ic : option Ctx) (first : nat) (rest : list nat) (d : DatasetStep)
    (items : list record) (ki ko : string) :
  draws_keys E → NoDup (first :: rest) →
  graph st = chain_graph (first :: rest) →
  previous_step st = last (first :: rest) →
  steps st first = Source d → d_dataset d = Sequence items →
  truthy (target d) = false →
  input_key d = Some ki → ki ≠ EmptyString →
  output_key d = Some ko → ko ≠ EmptyString →
  (∀ x, x ∈ rest → unary (steps st x) = true) →
  (Pipeline_execute E ic st).1
  = match replay_results E (steps st <$> rest) ki (remaining d)
            (calls_made st) with
    | inl ws => Ok (OList ws)
    | inr e => Raise e
    end.
Proof.
  intros HE Hnd Hg Hprev Hs Hd Ht Hki Hkne Hko Hkone Hun.
  rewrite (Pipeline_execute_replay E st ic first rest d items);
    [|by rewrite Hg, topological_sort_chain|done|done].
  rewrite bind_run.
  pose proof (replay_unary E st first rest ki ko HE Hnd Hg Hprev Hun Hkne)
    as Hrep.
  specialize (Hrep ltac:(by destruct ko) (remaining d)
                (replay_start ic (length items) st) d []).
  destruct (replay E (S (length (remaining d))) first []
              (replay_start ic (length items) st)) as [o st'].
  cbn [fst] in Hrep. rewrite Hrep; try done.
  change (calls_made (replay_start ic (length items) st))
    with (calls_made st).
  by destruct (replay_results E (steps st <$> rest) ki (remaining d)
                 (calls_made st)).
Qed.

(** ** PipelineBuilder *)

Lemma builder_run_made (c : builder_call) :
  builder_run c = Builder_add_step (made c).
Proof. by destruct c. Qed.

Lemma Pipeline_add_step_ok (n : nat) (st : State) :
  (Pipeline_add_step n st).1 = Ok tt
  ∧ allocated (Pipeline_add_step n st).2 = allocated st.
Proof.
  unfold Pipeline_add_step. unfold_monad. simpl.
  by destruct (previous_step st).
Qed.

Lemma Builder_add_step_chain (s : Step) (st : State) (a k : nat) :
  graph st = chain_graph (seq a k) → previous_step st = last (seq a k) →
  allocated st = a + k →
  ∃ st', Builder_add_step s st = (Ok tt, st')
         ∧ graph st' = chain_graph (seq a (S k))
         ∧ previous_step st' = last (seq a (S k))
         ∧ allocated st' = a + S k
         ∧ steps st' = <[a + k := s]> (steps st)
         ∧ context st' = context st.
Proof.
  intros Hg Hp Ha. unfold Builder_add_step. rewrite bind_run.
  unfold new_step at 1. rewrite Ha.
  set (st1 := mkState (<[a + k := s]> (steps st)) (S (a + k)) (graph st)
                (context st) (previous_step st) (pbar st) (rnd_used st)
                (calls_made st)).
  destruct (Pipeline_add_step_chain (seq a k) (a + k) st1)
    as (Hg' & Hp' & Hs' & Hc'); [|done|done|].
  { rewrite elem_of_seq. lia. }
  destruct (Pipeline_add_step_ok (a + k) st1) as [Hok Hal].
  destruct (Pipeline_add_step (a + k) st1) as [o st'].
  cbn [fst snd] in *. subst o.
  exists st'. rewrite seq_S. split_and!; try done.
  rewrite Hal. unfold st1. cbn [allocated]. lia.
Qed.

Lemma build_chain (calls : list builder_call) :
  ∀ (st : State) (a k : nat),
    graph st = chain_graph (seq a k) → previous_step st = last (seq a k) →
    allocated st = a + k →
    ∃ st', build calls st = (Ok tt, st')
           ∧ graph st' = chain_graph (seq a (k + length calls))
           ∧ previous_step st' = last (seq a (k + length calls))
           ∧ allocated st' = a + (k + length calls)
           ∧ (∀ i c, calls !! i = Some c → steps st' (a + k + i) = made c)
           ∧ (∀ m, m < a + k → steps st' m = steps st m)
           ∧ context st' = context st.
Proof.
  unfold build. induction calls as [|c calls IH]; intros st a k Hg Hp Ha.
  { exists st. rewrite Nat.add_0_r. by split_and!. }
  cbn [for_each length]. rewrite bind_run, builder_run_made.
  destruct (Builder_add_step_chain (made c) st a k Hg Hp Ha)
    as (st1 & -> & Hg1 & Hp1 & Ha1 & Hs1 & Hc1).
  destruct (IH st1 a (S k) Hg1 Hp1 Ha1)
    as (st2 & -> & Hg2 & Hp2 & Ha2 & Hs2 & Hold2 & Hc2).
  exists st2. replace (k + S (length calls)) with (S k + length calls) by lia.
  split_and!; try done; try congruence.
  - intros [|i] c' Hc'.
    + injection Hc' as <-. rewrite Hold2 by lia. rewrite Hs1.
      rewrite Nat.add_0_r. apply fn_lookup_insert.
    + replace (a + k + S i) with (a + S k + i) by lia. by apply Hs2.
  - intros m Hm. rewrite Hold2 by lia. rewrite Hs1.
    apply fn_lookup_insert_ne. lia.
Qed.

Lemma seq_chain_predecessors (a n v : nat) :
  predecessors (chain_graph (seq a n)) v
  = if bool_decide (a < v < a + n) then [pred v] else [].
Proof.
  destruct (decide (a ≤ v < a + n)) as [Hin|Hout].
  - assert (Hsplit : seq a n
                     = seq a (v - a) ++ v :: seq (S v) (n - S (v - a))).
    { replace n with ((v - a) + S (n - S (v - a))) at 1 by lia.
      rewrite seq_app. cbn [seq]. by replace (a + (v - a)) with v by lia. }
    rewrite Hsplit, chain_predecessors by (rewrite <- Hsplit; apply NoDup_seq).
    destruct (v - a) as [|j] eqn:Hj.
    + rewrite bool_decide_eq_false_2 by lia. done.
    + rewrite bool_decide_eq_true_2 by lia.
      rewrite seq_S, last_snoc. replace (a + j) with (Init.Nat.pred v) by lia. done.
  - rewrite bool_decide_eq_false_2 by lia.
    unfold predecessors, chain_graph. cbn [edges].
    rewrite chain_edges_to_outside; [done|]. rewrite elem_of_seq. lia.
Qed.

(** X4.  The pipeline a [PipelineBuilder] builds is the chain of the steps
    its calls made, in the order of the calls: every step is linked to
    the one made before it, the step made last is the tail whose output
    [execute] reads, there is no cycle, and the order in which the steps
    run is the order of the calls. *)
Theorem PipelineBuilder_builds_chain (store : nat → Step) (a : nat)
    (calls : list builder_call) :
  ∃ st, build calls (Pipeline_init store a) = (Ok tt, st)
        ∧ graph st = chain_graph (seq a (length calls))
        ∧ previous_step st = last (seq a (length calls))
        ∧ (∀ i c, calls !! i = Some c → steps st (a + i) = made c)
        ∧ (∀ v, predecessors (graph st) v
                = if bool_decide (a < v < a + length calls)
                  then [pred v] else [])
        ∧ ¬ has_cycle (graph st)
        ∧ topological_sort (graph st) = Ok (seq a (length calls)).
Proof.
  destruct (build_chain calls (Pipeline_init store a) a 0)
    as (st & Hrun & Hg & Hp & _ & Hs & _); [done|done|simpl; lia|].
  cbn [Nat.add] in *. exists st. split_and!; try done.
  - intros i c Hc. rewrite <- (Hs i c Hc). f_equal. lia.
  - intros v. rewrite Hg. apply seq_chain_predecessors.
  - rewrite Hg. apply chain_graph_acyclic, NoDup_seq.
  - rewrite Hg. apply topological_sort_chain, NoDup_seq.
Qed.

(** ** Steps added twice *)

Lemma not_NoDup_repeat (ns : list nat) :
  ¬ NoDup ns → ∃ pre x mid post, ns = pre ++ x :: mid ++ x :: post.
Proof.
  induction ns as [|x l IH]; intros Hnd.
  { destruct Hnd. constructor. }
  destruct (decide (x ∈ l)) as [Hin|Hout].
  - apply list_elem_of_split in Hin as (mid & post & ->).
    by exists [], x, mid, post.
  - destruct IH as (pre & y & mid & post & ->).
    { intros Hl. apply Hnd. by constructor. }
    by exists (x :: pre), y, mid, post.
Qed.

Lemma chain_edges_within (pre l post : list nat) (e : nat * nat) :
  e ∈ chain_edges l → e ∈ chain_edges (pre ++ l ++ post).
Proof.
  destruct e as [u v]. rewrite !chain_edges_lookup.
  intros (i & Hi & Hj). exists (length pre + i).
  rewrite (lookup_app_r pre _ (length pre + i)) by lia.
  rewrite (lookup_app_r pre _ (S (length pre + i))) by lia.
  replace (length pre + i - length pre) with i by lia.
  replace (S (length pre + i) - length pre) with (S i) by lia.
  split; apply lookup_app_l_Some; done.
Qed.

Lemma tc_mono {A} (R R' : relation A) (x y : A) :
  (∀ u v, R u v → R' u v) → tc R x y → tc R' x y.
Proof.
  intros Hsub Hp. induction Hp as [u v He|u v w He _ IH].
  - apply tc_once. auto.
  - eapply tc_l; eauto.
Qed.

Lemma chain_edges_path (mid : list nat) (x y : nat) :
  tc (λ u v, (u, v) ∈ chain_edges (x :: mid ++ [y])) x y.
Proof.
  revert x. induction mid as [|m mid IH]; intros x.
  { apply tc_once. cbn. by left. }
  apply tc_l with m.
  { cbn [app]. change (chain_edges (x :: m :: mid ++ [y]))
      with ((x, m) :: chain_edges (m :: mid ++ [y])). by left. }
  apply (tc_mono _ (λ u v, (u, v) ∈ chain_edges (x :: (m :: mid) ++ [y]))
           _ _) with (2 := IH m).
  intros u v He. apply (chain_edges_within [x] _ []) in He.
  by rewrite app_nil_r in He.
Qed.

Lemma Pipeline_add_step_edges (n : nat) (st : State) :
  (∀ e, e ∈ edges (graph st) → e ∈ edges (graph (Pipeline_add_step n st).2))
  ∧ (∀ p, previous_step st = Some p →
          (p, n) ∈ edges (graph (Pipeline_add_step n st).2))
  ∧ previous_step (Pipeline_add_step n st).2 = Some n.
Proof.
  unfold Pipeline_add_step. unfold_monad. simpl.
  assert (Hnode : ∀ m g, edges (add_node m g) = edges g).
  { intros m g. unfold add_node. by destruct (bool_decide (m ∈ nodes g)). }
  assert (Hedge : ∀ u v g e, e ∈ edges g → e ∈ edges (add_edge u v g)).
  { intros u v g e He. unfold add_edge. cbv zeta.
    destruct (bool_decide _); cbn [edges]; rewrite ?elem_of_app, !Hnode;
      auto. }
  assert (Hnew : ∀ u v g, (u, v) ∈ edges (add_edge u v g)).
  { intros u v g. unfold add_edge. cbv zeta.
    destruct (bool_decide _) eqn:Hd; cbn [edges].
    - by apply bool_decide_eq_true in Hd.
    - apply elem_of_app. right. by left. }
  destruct (previous_step st) as [p|]; simpl; split_and!; try done.
  - intros e He. apply Hedge. by rewrite Hnode.
  - intros p' [= <-]. apply Hnew.
  - intros e He. by rewrite Hnode.
Qed.

Lemma add_steps_edges (ns : list nat) :
  ∀ st,
    (for_each ns Pipeline_add_step st).1 = Ok tt
    ∧ (∀ e, e ∈ edges (graph st) →
            e ∈ edges (graph (for_each ns Pipeline_add_step st).2))
    ∧ (∀ e, e ∈ chain_edges (option_list (previous_step st) ++ ns) →
            e ∈ edges (graph (for_each ns Pipeline_add_step st).2))
    ∧ (graph_wf (graph st) →
       graph_wf (graph (for_each ns Pipeline_add_step st).2)).
Proof.
  induction ns as [|n ns IH]; intros st.
  { cbn [for_each]. split_and!; try done.
    intros e He. rewrite app_nil_r in He.
    destruct (previous_step st); by apply elem_of_nil in He. }
  cbn [for_each]. rewrite bind_run.
  destruct (Pipeline_add_step_ok n st) as [Hok _].
  destruct (Pipeline_add_step_edges n st) as (Hold & Hnew & Hprev).
  pose proof (Pipeline_add_step_wf n st) as Hwf.
  destruct (Pipeline_add_step n st) as [o st1]. cbn [fst snd] in *. subst o.
  destruct (IH st1) as (Hok1 & Hold1 & Hnew1 & Hwf1).
  rewrite Hprev in Hnew1. cbn [option_list app] in Hnew1.
  split_and!; auto.
  intros e He. destruct (previous_step st) as [p|]; cbn [option_list app] in He.
  - change (chain_edges (p :: n :: ns))
      with ((p, n) :: chain_edges (n :: ns)) in He.
    apply elem_of_cons in He as [->|He]; auto.
  - auto.
Qed.

(** X3.  A step added a second time closes a cycle: the graph of a pipeline
    has a cycle whenever [add_step] was called twice with one step, and
    [execute] then raises [NetworkXUnfeasible] before any step runs. *)
Theorem Pipeline_add_step_repeated (E : Env) (store : nat → Step) (a : nat)
    (ns : list nat) (ic : option Ctx) :
  ¬ NoDup ns →
  has_cycle (graph (for_each ns Pipeline_add_step (Pipeline_init store a)).2)
  ∧ Pipeline_execute E ic
      (for_each ns Pipeline_add_step (Pipeline_init store a)).2
    = (Raise NetworkXUnfeasible,
       set_context (fun _ => Context_init ic)
         (for_each ns Pipeline_add_step (Pipeline_init store a)).2).
Proof.
  intros Hnd.
  destruct (add_steps_edges ns (Pipeline_init store a))
    as (_ & _ & Hedges & Hwf).
  cbn [Pipeline_init previous_step option_list app] in Hedges.
  assert (Hcyc : has_cycle
            (graph (for_each ns Pipeline_add_step (Pipeline_init store a)).2)).
  { destruct (not_NoDup_repeat ns Hnd) as (pre & x & mid & post & ->).
    exists x. apply (tc_mono _ _ _ _) with (2 := chain_edges_path mid x x).
    intros u v He. apply Hedges.
    apply (chain_edges_within pre _ post) in He.
    cbn [app] in He. by rewrite <- app_assoc in He. }
  split; [done|].
  rewrite Pipeline_execute_sort, topological_sort_cycle; [done| |done].
  apply Hwf, empty_graph_wf.
Qed.

(** X2.  Steps that are all different, added one after the other, form a
    chain: each step has the one added before it as its only
    predecessor, the graph has no cycle, and the order in which
    [execute] runs the steps is the order in which they were added. *)
Theorem Pipeline_add_step_distinct (store : nat → Step) (a : nat)
    (ns : list nat) :
  NoDup ns →
  graph (for_each ns Pipeline_add_step (Pipeline_init store a)).2
  = chain_graph ns
  ∧ previous_step (for_each ns Pipeline_add_step (Pipeline_init store a)).2
    = last ns
  ∧ ¬ has_cycle
        (graph (for_each ns Pipeline_add_step (Pipeline_init store a)).2)
  ∧ topological_sort
      (graph (for_each ns Pipeline_add_step (Pipeline_init store a)).2)
    = Ok ns
  ∧ (∀ pre x post, ns = pre ++ x :: post →
       predecessors
         (graph (for_each ns Pipeline_add_step (Pipeline_init store a)).2) x
       = option_list (last pre))
  ∧ ((∀ first d, head ns = Some first → store first ≠ Source d) →
     ∀ E ic,
       Pipeline_execute E ic
         (for_each ns Pipeline_add_step (Pipeline_init store a)).2
       = (for_each ns (_execute_step E) ;;
          r ← read_result E;
          match r with
          | Some v => mret (OValue v)
          | None => mret (OList [])
          end)
           (set_context (fun _ => Context_init ic)
              (for_each ns Pipeline_add_step (Pipeline_init store a)).2)).
Proof.
  intros Hnd.
  destruct (add_steps_chain ns (Pipeline_init store a) Hnd)
    as (Hg & Hp & Hs & _); [done..|].
  split_and!; try done.
  - rewrite Hg. by apply chain_graph_acyclic.
  - rewrite Hg. by apply topological_sort_chain.
  - intros pre x post ->. rewrite Hg. by apply chain_predecessors.
  - intros Hfirst E ic.
    rewrite (Pipeline_execute_chain E _ ic ns Hnd Hg); [done|].
    rewrite Hs. exact Hfirst.
Qed.

(** X1.  Without a cycle the steps run in an order that holds every step
    once and every step after its predecessors; in single-pass mode
    [execute] calls [_execute_step] on them one by one in that order and
    reads the result last. *)
Theorem Pipeline_execute_acyclic (E : Env) (st : State) (ic : option Ctx) :
  graph_wf (graph st) → ¬ has_cycle (graph st) →
  ∃ order,
    topological_sort (graph st) = Ok order
    ∧ NoDup order ∧ (∀ v, v ∈ order ↔ v ∈ nodes (graph st))
    ∧ respects (graph st) order
    ∧ ((∀ first d, head order = Some first → steps st first ≠ Source d) →
       Pipeline_execute E ic st
       = (for_each order (_execute_step E) ;;
          r ← read_result E;
          match r with
          | Some v => mret (OValue v)
          | None => mret (OList [])
          end) (set_context (fun _ => Context_init ic) st)).
Proof.
  intros Hwf Hacyc.
  destruct (topological_sort_acyclic (graph st) Hwf Hacyc)
    as (order & Hsort & Hnd & Hall & Hresp).
  exists order. split_and!; try done.
  intros Hfirst. rewrite Pipeline_execute_sort, Hsort.
  destruct (head order) as [first|] eqn:Hhead; [|done].
  destruct (steps st first) as [| | |d] eqn:Hs; try done.
  by destruct (Hfirst first d).
Qed.

(** X5.  In a chain the sub-traversal that dataset-replay mode starts at a
    step runs the steps added after it, in the order they were added,
    and none of those added before it; its result is the value under the
    output key of the step added last. *)
Theorem execute_from_suffix (E : Env) (st : State) (pre rest : list nat)
    (a : nat) :
  NoDup (pre ++ a :: rest) → graph st = chain_graph (pre ++ a :: rest) →
  dfs_preorder_nodes (graph st) a = a :: rest
  ∧ successors (graph st) a = option_list (head rest)
  ∧ _execute_from E a st
    = (for_each rest (_execute_step E) ;;
       r ← read_result E;
       mret (default VNone r)) st.
Proof.
  intros Hnd Hg. split_and!.
  - rewrite Hg. by apply dfs_preorder_nodes_chain.
  - rewrite Hg. by apply chain_successors.
  - by apply (execute_from_chain E st pre rest a).
Qed.

(** ** Services *)

Lemma string_get_lt (s : string) (k : nat) :
  k < String.length s → ∃ a, String.get k s = Some a.
Proof.
  revert k. induction s as [|b s IH]; intros k Hk; [simpl in Hk; lia|].
  destruct k as [|k]; [by exists b|]. apply IH. simpl in Hk. lia.
Qed.

Lemma string_forall_get (P : ascii → bool) (s : string) (k : nat) (a : ascii) :
  string_forall P s = true → String.get k s = Some a → P a = true.
Proof.
  revert k. induction s as [|b s IH]; intros k Hall Hget; [done|].
  cbn [string_forall] in Hall. apply andb_true_iff in Hall as [Hb Hs].
  destruct k as [|k]; [by injection Hget as <-|]. by apply (IH k).
Qed.

Lemma secrets_choice_letters (draw : nat) :
  ∃ a, secrets_choice draw ascii_letters = inl a ∧ is_letter a = true.
Proof.
  unfold secrets_choice.
  destruct (string_get_lt ascii_letters
              (draw mod String.length ascii_letters)) as [a Ha].
  { apply Nat.mod_upper_bound. done. }
  rewrite Ha. exists a. split; [done|].
  by apply (string_forall_get is_letter ascii_letters _ a eq_refl Ha).
Qed.

Lemma join_choices_letters (draws : nat → nat) (length start : nat) :
  ∃ s, join_choices draws start length ascii_letters = inl s
       ∧ String.length s = length ∧ string_forall is_letter s = true.
Proof.
  revert start. induction length as [|length IH]; intros start.
  { by exists EmptyString. }
  cbn [join_choices].
  destruct (secrets_choice_letters (draws start)) as (a & -> & Ha).
  destruct (IH (S start)) as (s & -> & Hlen & Hall).
  exists (String a s). cbn [String.length string_forall].
  by rewrite Hlen, Ha, Hall.
Qed.

(** X16.  [generate_random_string] never fails and returns a string of
    exactly [length] letters of the English alphabet.  With the default
    length of 10 the string is not empty, so a key the engine draws is
    never taken for an unset key. *)
Theorem generate_random_string_letters (draws : nat → nat)
    (start length : nat)
    (model : nat → option string → option string → option string →
             value → result value) :
  (∃ s, helpers_generate_random_string draws start length = inl s
        ∧ String.length s = length ∧ string_forall is_letter s = true)
  ∧ draws_keys (helpers_env draws model).
Proof.
  split; [apply join_choices_letters|].
  intros n. cbn [helpers_env generate_random_string].
  unfold helpers_generate_random_string.
  destruct (join_choices_letters draws 10 (10 * n)) as (s & -> & Hlen & _).
  by destruct s.
Qed.

Lemma classify_None (providers : list Provider) (names : parser_names) :
  classify providers names VNone
  = mkNames (l_provider_name names) (l_client_name names)
      (l_model_name names) VNone.
Proof.
  unfold classify.
  assert (H1 : existsb (λ provider, bool_decide (VNone = VStr (name provider)))
                 providers = false) by by induction providers.
  assert (H2 : existsb (λ provider, in_dict VNone (mappings provider))
                 providers = false) by by induction providers.
  assert (H3 : existsb (λ provider, in_dict VNone (clients provider))
                 providers = false) by by induction providers.
  by rewrite H1, H2, H3.
Qed.

Lemma classify_unrecognised (providers : list Provider)
    (names : parser_names) (arg : value) :
  recognised providers arg = false →
  classify providers names arg
  = mkNames (l_provider_name names) (l_client_name names)
      (l_model_name names) arg.
Proof.
  unfold recognised, classify. intros H.
  apply orb_false_iff in H as [H H3]. apply orb_false_iff in H as [H1 H2].
  by rewrite H1, H2, H3.
Qed.

Lemma matches_None (prompt : value) (provider : Provider) :
  matches (mkNames VNone VNone VNone prompt) provider = false.
Proof. done. Qed.

Lemma select_last (names : parser_names) (providers : list Provider)
    (current : option Provider) :
  foldl (λ current provider,
           if matches names provider then Some provider else current)
    current providers
  = match last (filter (λ provider, matches names provider = true) providers)
    with
    | Some provider => Some provider
    | None => current
    end.
Proof.
  revert current. induction providers as [|p providers IH]; intros current.
  { done. }
  cbn [foldl]. rewrite IH. destruct (matches names p) eqn:Hm.
  - rewrite filter_cons_True by done. rewrite last_cons.
    by destruct (last (filter _ providers)).
  - rewrite filter_cons_False by by rewrite Hm. done.
Qed.

(** X17.  A [ModelStep] that names no provider, no model and no client, and
    whose input is not itself the name of one, has its input sent as
    the prompt to the default provider, with the default model and the
    default client of that provider.  Without a default provider the
    call raises [ValueError]. *)
Theorem CallerFacade_call_model_defaults (providers : list Provider)
    (default_provider : value) (api : nat → parsed_args → result value)
    (input_text : value) :
  recognised providers input_text = false →
  CallerFacade_call_model providers default_provider api None None None
    input_text
  = match get_default_provider providers default_provider with
    | Some p =>
        api (model_caller p)
          (mkParsed (name p) (default_model p) (default_client p) input_text)
    | None => inr (ValueError "Could not determine provider.")
    end.
Proof.
  intros Hrec. unfold CallerFacade_call_model, intelligent_parser.
  cbn [key_value foldl]. rewrite !classify_None.
  cbn [l_provider_name l_client_name l_model_name l_prompt].
  rewrite classify_unrecognised by done.
  cbn [l_provider_name l_client_name l_model_name l_prompt].
  rewrite select_last.
  assert (Hnone : filter (λ provider,
                     matches (mkNames VNone VNone VNone input_text) provider
                     = true) providers = []).
  { clear Hrec. induction providers as [|p ps IH]; [done|].
    by rewrite filter_cons_False by by rewrite matches_None. }
  rewrite Hnone. cbn [last].
  by destruct (get_default_provider providers default_provider).
Qed.

Lemma classify_provider_name (providers : list Provider)
    (names : parser_names) (s : string) :
  (∃ q, q ∈ providers ∧ name q = s) →
  classify providers names (VStr s)
  = mkNames (VStr s) (l_client_name names) (l_model_name names)
      (l_prompt names).
Proof.
  intros (q & Hq & Hs). unfold classify.
  assert (H : existsb (λ provider, bool_decide (VStr s = VStr (name provider)))
                providers = true).
  { apply existsb_exists. exists q. split.
    - by apply list_elem_of_In.
    - apply bool_decide_eq_true. by rewrite Hs. }
  by rewrite H.
Qed.

(** X18.  An input that happens to be the name of a provider is not sent as
    the prompt: it is read as the choice of that provider, and the
    prompt the model receives is [None]. *)
Theorem CallerFacade_call_model_shadowed (providers : list Provider)
    (default_provider : value) (api : nat → parsed_args → result value)
    (s : string) :
  (∃ q, q ∈ providers ∧ name q = s) →
  ∃ q, q ∈ providers ∧ name q = s
       ∧ CallerFacade_call_model providers default_provider api None None
           None (VStr s)
         = api (model_caller q)
             (mkParsed s (default_model q) (default_client q) VNone).
Proof.
  intros Hs. unfold CallerFacade_call_model, intelligent_parser.
  cbn [key_value foldl]. rewrite !classify_None.
  cbn [l_provider_name l_client_name l_model_name l_prompt].
  rewrite classify_provider_name by done.
  cbn [l_provider_name l_client_name l_model_name l_prompt].
  rewrite select_last.
  destruct Hs as (q0 & Hq0 & Hs0).
  destruct (last (filter (λ provider,
                     matches (mkNames (VStr s) VNone VNone VNone) provider
                     = true) providers)) as [q|] eqn:Hlast.
  - assert (Hq : q ∈ filter (λ provider,
                     matches (mkNames (VStr s) VNone VNone VNone) provider
                     = true) providers).
    { apply list_elem_of_lookup. eexists. by rewrite <- last_lookup. }
    apply list_elem_of_filter in Hq as [Hm Hq].
    unfold matches in Hm. cbn in Hm. rewrite !orb_false_r in Hm.
    apply bool_decide_eq_true in Hm. injection Hm as Hm.
    exists q. split; [done|]. split; [done|]. cbn. by rewrite <- Hm.
  - apply last_None in Hlast.
    assert (Hin : q0 ∈ filter (λ provider,
                     matches (mkNames (VStr s) VNone VNone VNone) provider
                     = true) providers).
    { apply list_elem_of_filter. split; [|done].
      unfold matches. cbn. rewrite !orb_false_r.
      apply bool_decide_eq_true. by rewrite Hs0. }
    rewrite Hlast in Hin. by apply elem_of_nil in Hin.
Qed.

(** X19.  The provider [intelligent_parser] settles on is the last one, in
    the order of the providers, that bears the provider name given, or
    knows the friendly model name given, or holds the client given; the
    default provider when there is none.  A provider named in the call
    is therefore dropped for a later one that knows the model name, and
    a model name the provider settled on does not know raises
    [KeyError]. *)
Theorem intelligent_parser_selects (providers : list Provider)
    (default_provider : value) (args : list value) :
  let names := names_of providers args in
  let chosen :=
    match last (filter (λ p, matches names p = true) providers) with
    | Some p => Some p
    | None => get_default_provider providers default_provider
    end in
  (chosen = None →
   intelligent_parser providers default_provider args
   = inr (ValueError "Could not determine provider."))
  ∧ (∀ q, chosen = Some q →
       (∀ alias, l_model_name names = VStr alias → alias ≠ EmptyString →
                 mappings q !! alias = None →
                 intelligent_parser providers default_provider args
                 = inr (KeyError (VStr alias)))
       ∧ (∀ caller kwargs,
            intelligent_parser providers default_provider args
            = inl (caller, kwargs) →
            caller = model_caller q
            ∧ arg_provider_name kwargs = name q
            ∧ arg_prompt kwargs = l_prompt names
            ∧ (∀ alias, l_model_name names = VStr alias →
                        alias ≠ EmptyString →
                        mappings q !! alias = Some (arg_model_name kwargs))
            ∧ (value_truthy (l_model_name names) = false →
               arg_model_name kwargs = default_model q))).
Proof.
  intros names chosen. unfold intelligent_parser.
  fold (names_of providers args). fold names.
  rewrite select_last. fold chosen.
  split; [by intros ->|].
  intros q ->. split.
  - intros alias Ha Hne Hnone. rewrite Ha. cbn [value_truthy].
    rewrite bool_decide_eq_false_2 by done. cbn [negb dict_getitem].
    by rewrite Hnone.
  - intros caller kwargs Hrun.
    destruct (if value_truthy (l_model_name names)
              then dict_getitem (mappings q) (l_model_name names)
              else inl (default_model q)) as [model|e] eqn:Hmodel; [|done].
    destruct (if value_truthy (l_client_name names)
              then dict_getitem (clients q) (l_client_name names)
              else inl (default_client q)) as [cl|e] eqn:Hclient; [|done].
    injection Hrun as <- <-. cbn [arg_provider_name arg_prompt arg_model_name].
    split_and!; try done.
    + intros alias Ha Hne. rewrite Ha in Hmodel. cbn [value_truthy] in Hmodel.
      rewrite bool_decide_eq_false_2 in Hmodel by done.
      cbn [negb dict_getitem] in Hmodel.
      destruct (mappings q !! alias); congruence.
    + intros Hf. rewrite Hf in Hmodel. congruence.
Qed.

(** *** ConfigurationManager *)

Lemma set_mappings_same (provider : string) (m : gmap string string)
    (cfg : Config) :
  provider_configs cfg !! provider = Some m → set_mappings provider m cfg = cfg.
Proof.
  intros Hm. destruct cfg as [ps pc]. unfold set_mappings. cbn in *.
  by rewrite insert_id.
Qed.

Lemma set_mappings_twice (provider : string) (m m' : gmap string string)
    (cfg : Config) :
  set_mappings provider m' (set_mappings provider m cfg)
  = set_mappings provider m' cfg.
Proof. unfold set_mappings. cbn. by rewrite insert_insert_eq. Qed.

Lemma delete_all (provider : string) (keys : list string) :
  ∀ (cfg : Config) (m : gmap string string),
    provider_configs cfg !! provider = Some m →
    NoDup keys → (∀ k, k ∈ keys → is_Some (m !! k)) →
    for_each keys (delete_mapping provider) cfg
    = (Ok tt, set_mappings provider (foldl (λ m k, delete k m) m keys) cfg).
Proof.
  induction keys as [|k keys IH]; intros cfg m Hm Hnd Hall.
  { cbn. by rewrite set_mappings_same. }
  cbn [for_each foldl]. rewrite bind_run. unfold delete_mapping at 1.
  rewrite bind_run. unfold gets at 1. rewrite Hm.
  rewrite bool_decide_eq_true_2 by (apply Hall; by left).
  unfold modify at 1. apply NoDup_cons in Hnd as [Hk Hnd].
  rewrite (IH _ (delete k m)); [by rewrite set_mappings_twice| |done|].
  - unfold set_mappings. cbn. by rewrite lookup_insert_eq.
  - intros k' Hk'. rewrite lookup_delete_ne by (intros ->; done).
    apply Hall. by right.
Qed.

Lemma foldl_delete_lookup (keys : list string) (m : gmap string string)
    (k : string) :
  foldl (λ m k, delete k m) m keys !! k
  = if bool_decide (k ∈ keys) then None else m !! k.
Proof.
  revert m. induction keys as [|k' keys IH]; intros m; [done|].
  cbn [foldl]. rewrite IH.
  destruct (decide (k = k')) as [->|Hne].
  - rewrite lookup_delete_eq, (bool_decide_eq_true_2 (k' ∈ k' :: keys))
      by by left.
    by destruct (bool_decide (k' ∈ keys)).
  - rewrite lookup_delete_ne by done.
    destruct (decide (k ∈ keys)) as [Hin|Hout].
    + by rewrite !bool_decide_eq_true_2 by (try right; done).
    + rewrite !bool_decide_eq_false_2; [done| |done].
      by intros [->|?]%elem_of_cons.
Qed.

Lemma foldl_insert_lookup (d : list (string * string))
    (m : gmap string string) :
  NoDup d.*1 →
  (∀ k v, (k, v) ∈ d → foldl (λ m kv, <[kv.1 := kv.2]> m) m d !! k = Some v)
  ∧ (∀ k, k ∉ d.*1 → foldl (λ m kv, <[kv.1 := kv.2]> m) m d !! k = m !! k).
Proof.
  revert m. induction d as [|[k0 v0] d IH]; intros m Hnd.
  { split; [by intros k v H%elem_of_nil|done]. }
  cbn [fmap list_fmap fst] in Hnd. apply NoDup_cons in Hnd as [Hk0 Hnd].
  destruct (IH (<[k0 := v0]> m) Hnd) as [Hin Hout]. cbn [foldl fst snd].
  split.
  - intros k v [[= -> ->]|Hkv]%elem_of_cons.
    + rewrite Hout by done. apply lookup_insert_eq.
    + by apply Hin.
  - intros k Hk. rewrite Hout.
    + apply lookup_insert_ne. intros ->. apply Hk. by left.
    + intros Hin'. apply Hk. by right.
Qed.

(** X20.  [change_mapping] checks the operation after lower-casing it and
    then dispatches on it as it was written: an operation such as
    [Edit] or [DELETE] is accepted, and the call returns without having
    changed anything. *)
Theorem change_mapping_unmatched_operation (listing provider operation : string)
    (mappings_dict : option (list (string * string)))
    (kwargs : list (string * string)) (cfg : Config) :
  provider ∈ main_providers cfg → default kwargs mappings_dict ≠ [] →
  lower operation ∈ valid_operations → operation ∉ valid_operations →
  change_mapping listing provider operation mappings_dict kwargs cfg
  = (Ok tt, cfg).
Proof.
  intros Hp Hd Hlow Hop. unfold change_mapping.
  rewrite bind_run. unfold gets at 1.
  rewrite bool_decide_eq_true_2 by done.
  destruct (default kwargs mappings_dict) as [|kv d]; [done|].
  rewrite (bool_decide_eq_true_2 _ Hlow).
  rewrite bool_decide_eq_false_2.
  - rewrite bool_decide_eq_false_2; [done|].
    intros ->. apply Hop. right. right. by left.
  - intros [-> | ->]; apply Hop; [by left|right; by left].
Qed.

(** X21.  After [add] or [edit] every friendly name of the dictionary given
    maps to its model name, and the other friendly names and the other
    providers are as before.  [add] overwrites a name that exists, and
    [edit] adds one that does not: the two do the same. *)
Theorem change_mapping_update (listing provider operation : string)
    (d : list (string * string)) (kwargs : list (string * string))
    (cfg : Config) (m : gmap string string) :
  provider ∈ main_providers cfg → operation = "edit" ∨ operation = "add" →
  provider_configs cfg !! provider = Some m → d ≠ [] → NoDup d.*1 →
  ∃ cfg' m',
    change_mapping listing provider operation (Some d) kwargs cfg
    = (Ok tt, cfg')
    ∧ change_mapping listing provider "add" (Some d) kwargs cfg = (Ok tt, cfg')
    ∧ provider_configs cfg' !! provider = Some m'
    ∧ (∀ k v, (k, v) ∈ d → m' !! k = Some v)
    ∧ (∀ k, k ∉ d.*1 → m' !! k = m !! k)
    ∧ (∀ p, p ≠ provider →
            provider_configs cfg' !! p = provider_configs cfg !! p)
    ∧ main_providers cfg' = main_providers cfg.
Proof.
  intros Hp Hop Hm Hd Hnd.
  assert (Hrun : ∀ op, op = "edit" ∨ op = "add" →
            change_mapping listing provider op (Some d) kwargs cfg
            = (Ok tt,
               set_mappings provider
                 (foldl (λ m kv, <[kv.1 := kv.2]> m) m d) cfg)).
  { intros op Hop'. unfold change_mapping.
    rewrite bind_run. unfold gets at 1.
    rewrite bool_decide_eq_true_2 by done. cbn [default].
    destruct d as [|kv d']; [done|].
    assert (Hlow : lower op = op) by by destruct Hop' as [-> | ->].
    rewrite Hlow. rewrite bool_decide_eq_true_2
      by (destruct Hop' as [-> | ->]; [by left|right; by left]).
    rewrite (bool_decide_eq_true_2 _ Hop'). unfold id. cbv beta iota.
    rewrite bind_run. unfold gets at 1. by rewrite Hm. }
  destruct (foldl_insert_lookup d m Hnd) as [Hin Hout].
  eexists _, _. split; [by apply Hrun|]. split; [apply Hrun; by right|].
  unfold set_mappings. cbn [provider_configs main_providers].
  split_and!; try done.
  - apply lookup_insert_eq.
  - intros p Hne. by apply lookup_insert_ne.
Qed.

(** X22.  [delete] removes the friendly names one by one.  When all of them
    exist they are all gone afterwards.  When one does not exist the
    call raises [KeyError], and the names listed before it have already
    been removed. *)
Theorem change_mapping_delete (listing provider : string)
    (kwargs : list (string * string)) (cfg : Config)
    (m : gmap string string) :
  provider ∈ main_providers cfg → provider_configs cfg !! provider = Some m →
  (∀ d, d ≠ [] → NoDup d.*1 → (∀ k, k ∈ d.*1 → is_Some (m !! k)) →
        ∃ cfg' m',
          change_mapping listing provider "delete" (Some d) kwargs cfg
          = (Ok tt, cfg')
          ∧ provider_configs cfg' !! provider = Some m'
          ∧ ∀ k, m' !! k = if bool_decide (k ∈ d.*1) then None else m !! k)
  ∧ (∀ pre k v post,
       NoDup pre.*1 → (∀ k', k' ∈ pre.*1 → is_Some (m !! k')) →
       k ∉ pre.*1 → m !! k = None →
       ∃ cfg' m',
         change_mapping listing provider "delete"
           (Some (pre ++ (k, v) :: post)) kwargs cfg
         = (Raise (KeyError (VStr ("Friendly name " +:+ k +:+ " not found."))),
            cfg')
         ∧ provider_configs cfg' !! provider = Some m'
         ∧ ∀ k', m' !! k' = if bool_decide (k' ∈ pre.*1) then None
                            else m !! k').
Proof.
  intros Hp Hm.
  assert (Hrun : ∀ d, d ≠ [] →
            change_mapping listing provider "delete" (Some d) kwargs cfg
            = for_each d.*1 (delete_mapping provider) cfg).
  { intros d Hd. unfold change_mapping.
    rewrite bind_run. unfold gets at 1.
    rewrite bool_decide_eq_true_2 by done. cbn [default].
    destruct d as [|kv d']; [done|]. unfold id. done. }
  split.
  - intros d Hd Hnd Hall. rewrite Hrun by done.
    rewrite (delete_all provider d.*1 cfg m Hm Hnd Hall).
    eexists _, _. split; [reflexivity|].
    unfold set_mappings. cbn [provider_configs].
    split; [apply lookup_insert_eq|]. intros k. apply foldl_delete_lookup.
  - intros pre k v post Hnd Hall Hk Hnone.
    rewrite Hrun by by destruct pre.
    pose proof (delete_all provider pre.*1 cfg m Hm Hnd Hall) as Hpre.
    set (m1 := foldl (λ m k, delete k m) m pre.*1) in *.
    assert (Hfail : delete_mapping provider k (set_mappings provider m1 cfg)
                    = (Raise (KeyError
                                (VStr ("Friendly name " +:+ k
                                       +:+ " not found."))),
                       set_mappings provider m1 cfg)).
    { unfold delete_mapping. rewrite bind_run. unfold gets at 1.
      unfold set_mappings at 1. cbn [provider_configs].
      rewrite lookup_insert_eq. rewrite bool_decide_eq_false_2; [done|].
      unfold m1. rewrite foldl_delete_lookup, bool_decide_eq_false_2 by done.
      rewrite Hnone. by intros [? ?]. }
    rewrite fmap_app, fmap_cons. cbn [fst].
    rewrite (for_each_raises pre.*1 post.*1 k (delete_mapping provider) cfg
               _ _ _ Hpre Hfail).
    eexists _, _. split; [reflexivity|].
    unfold set_mappings. cbn [provider_configs].
    split; [apply lookup_insert_eq|]. intros k'. apply foldl_delete_lookup.
Qed.

(** ** The further properties on samples *)

Lemma sample_env_draws_keys : draws_keys sample_env.
Proof. intros n. done. Qed.

Lemma Pipeline_execute_acyclic_witness :
  ∃ order,
    topological_sort (graph shout_pipeline) = Ok order
    ∧ NoDup order ∧ (∀ v, v ∈ order ↔ v ∈ nodes (graph shout_pipeline))
    ∧ respects (graph shout_pipeline) order
    ∧ ((∀ first d, head order = Some first →
                   steps shout_pipeline first ≠ Source d) →
       Pipeline_execute sample_env (Some hi_text) shout_pipeline
       = (for_each order (_execute_step sample_env) ;;
          r ← read_result sample_env;
          match r with
          | Some v => mret (OValue v)
          | None => mret (OList [])
          end)
           (set_context (fun _ => Context_init (Some hi_text))
              shout_pipeline)).
Proof.
  apply (Pipeline_execute_acyclic sample_env shout_pipeline (Some hi_text)).
  - apply (chain_graph_wf [0; 1; 2]). compute_done.
  - apply (chain_graph_acyclic [0; 1; 2]). compute_done.
Defined.

Lemma Pipeline_add_step_distinct_witness :
  topological_sort
    (graph (for_each [0; 1] Pipeline_add_step (Pipeline_init empty_store 0)).2)
  = Ok [0; 1]
  ∧ Pipeline_execute sample_env (Some hi_text)
      (for_each [0; 1] Pipeline_add_step (Pipeline_init empty_store 0)).2
    = (for_each [0; 1] (_execute_step sample_env) ;;
       r ← read_result sample_env;
       match r with
       | Some v => mret (OValue v)
       | None => mret (OList [])
       end)
        (set_context (fun _ => Context_init (Some hi_text))
           (for_each [0; 1] Pipeline_add_step (Pipeline_init empty_store 0)).2).
Proof.
  assert (Hnd : NoDup [0; 1]) by compute_done.
  pose proof (Pipeline_add_step_distinct empty_store 0 [0; 1] Hnd)
    as (_ & _ & _ & Hsort & _ & Hrun).
  split; [exact Hsort|]. apply Hrun. intros first d _. discriminate.
Defined.

Lemma Pipeline_add_step_repeated_witness :
  has_cycle
    (graph (for_each [0; 1; 0] Pipeline_add_step
              (Pipeline_init empty_store 0)).2)
  ∧ Pipeline_execute sample_env None
      (for_each [0; 1; 0] Pipeline_add_step (Pipeline_init empty_store 0)).2
    = (Raise NetworkXUnfeasible,
       set_context (fun _ => Context_init None)
         (for_each [0; 1; 0] Pipeline_add_step
            (Pipeline_init empty_store 0)).2).
Proof.
  apply (Pipeline_add_step_repeated sample_env empty_store 0 [0; 1; 0] None).
  compute_done.
Defined.

Lemma execute_from_suffix_witness :
  dfs_preorder_nodes (graph qa_upper) 0 = [0; 1].
Proof.
  assert (Hnd : NoDup ([] ++ 0 :: [1])) by compute_done.
  assert (Hg : graph qa_upper = chain_graph ([] ++ 0 :: [1])) by reflexivity.
  exact (proj1 (execute_from_suffix sample_env qa_upper [] [1] 0 Hnd Hg)).
Defined.

Lemma PipelineBuilder_builds_chain_witness :
  ∃ st, build qa_calls (Pipeline_init empty_store 0) = (Ok tt, st)
        ∧ topological_sort (graph st) = Ok [0; 1].
Proof.
  destruct (PipelineBuilder_builds_chain empty_store 0 qa_calls)
    as (st & Hrun & _ & _ & _ & _ & _ & Hsort).
  exists st. split; [exact Hrun|exact Hsort].
Defined.

Lemma Pipeline_execute_finishes_witness :
  (Pipeline_execute sample_env None qa_upper).1 ≠ Unfinished
  ∧ dfs_preorder_nodes (graph qa_upper) 0
    = rev (dfs_visit 7 (graph qa_upper) 0 []).
Proof.
  assert (Hwf : graph_wf (graph qa_upper)).
  { apply (chain_graph_wf [0; 1]). compute_done. }
  destruct (Pipeline_execute_finishes sample_env qa_upper None Hwf)
    as [Hend Hdfs].
  split; [exact Hend|].
  assert (Hin : 0 ∈ nodes (graph qa_upper)) by compute_done.
  apply (proj2 (proj2 (Hdfs 0 Hin))). simpl. lia.
Defined.

Lemma Step_keys_stable_witness :
  ∃ key fr1,
    get_output_key sample_env (mkFrame identity_step ∅ 0 0) = (Ok key, fr1)
    ∧ key = generate_random_string sample_env 0
    ∧ get_output_key sample_env fr1 = (Ok key, fr1).
Proof.
  destruct (Step_keys_stable sample_env (mkFrame identity_step ∅ 0 0))
    as [(key & fr1 & Hrun & _ & Hnew & _ & _ & _ & _ & Hagain) _].
  { intros n. done. }
  exists key, fr1. split; [exact Hrun|]. split; [|exact Hagain].
  exact (proj1 (Hnew eq_refl)).
Defined.

Lemma ApplyStep_execute_spec_witness :
  ∃ fr, ApplyStep_execute sample_env (mkFrame shout hi_text 0 0)
        = (Ok (VStr "HI"), fr)
        ∧ Context_get "out" (ctx fr) = VStr "HI".
Proof.
  destruct (proj1 (ApplyStep_execute_spec sample_env shout hi_text 0 0)
              (VStr "HI") eq_refl) as (fr & Hrun & _ & Hout & _).
  exists fr. split; [exact Hrun|exact Hout].
Defined.

Lemma ModelStep_execute_prompted_witness :
  ∃ fr, ModelStep_execute sample_env (mkFrame ask_model ada 0 0)
        = (Ok (VStr "Hello Ada"), fr)
        ∧ calls fr = 1.
Proof.
  destruct (proj2 (ModelStep_execute_prompted sample_env ask_model
                     (PromptStep_init hello None None None) ada 0 0 eq_refl)
              "Hello Ada" eq_refl) as [_ Hok].
  destruct (Hok (VStr "Hello Ada") eq_refl) as (fr & Hrun & _ & Hcalls & _).
  exists fr. split; [exact Hrun|exact Hcalls].
Defined.

Lemma ModelStep_execute_input_witness :
  ∃ fr, ModelStep_execute sample_env (mkFrame relay_model hi_text 0 0)
        = (Ok (VStr "hi"), fr)
        ∧ ctx fr = Context_add "answer" (VStr "hi") hi_text.
Proof.
  destruct (proj2 (ModelStep_execute_input sample_env relay_model hi_text 0 0
                     eq_refl) (VStr "hi") eq_refl)
    as (fr & Hrun & Hctx & _).
  exists fr. split; [exact Hrun|exact Hctx].
Defined.

Lemma PromptStep_default_variables_witness :
  ∃ fr, PromptStep_execute sample_env
          (mkFrame (PromptStep_init hello None None (Some "greeting")) ∅ 0 0)
        = (Ok "Hello None", fr).
Proof.
  assert (Hkw : ∀ name, Field name ∈ hello → keyword_name name = true).
  { intros name Hin. apply elem_of_cons in Hin as [Heq|Hin]; [done|].
    apply elem_of_cons in Hin as [Heq|Hin]; [|by apply elem_of_nil in Hin].
    injection Heq as ->. reflexivity. }
  destruct (proj2 (PromptStep_default_variables sample_env hello None
                     (Some "greeting") ∅ 0 0 Hkw)) as (fr & Hrun & _).
  exists fr. exact Hrun.
Defined.

Lemma DatasetStep_keys_spec_witness :
  ∃ fr, DatasetStep_execute (mkFrame (qa_source qa_records) ∅ 0 0)
        = (Ok (RRecord {[ VStr "q" := VStr "a" ]}), fr)
        ∧ Context_get "q" (ctx fr) = VStr "a".
Proof.
  assert (Hne : "q" ≠ EmptyString) by done.
  destruct (proj1 (DatasetStep_keys_spec (qa_source qa_records)
                     {[ VStr "q" := VStr "a" ]} [ {[ VStr "q" := VStr "b" ]} ]
                     ∅ 0 0 "q" eq_refl eq_refl Hne eq_refl)
              (VStr "a") eq_refl) as (fr & Hrun & _ & Hq & _).
  exists fr. split; [exact Hrun|exact Hq].
Defined.

Lemma DatasetStep_cursor_witness :
  remaining (self (DatasetStep_execute
                     (mkFrame (qa_source qa_records) ∅ 0 0)).2)
  = [ {[ VStr "q" := VStr "b" ]} ].
Proof.
  exact (proj1 (proj2
           (proj1 (DatasetStep_cursor (qa_source qa_records) ∅ 0 0)
              {[ VStr "q" := VStr "a" ]} [ {[ VStr "q" := VStr "b" ]} ]
              eq_refl))).
Defined.

Lemma Pipeline_execute_unary_chain_witness :
  (Pipeline_execute sample_env (Some hi_text) shout_pipeline).1
  = Ok (OValue (VStr "HI")).
Proof.
  assert (Hnd : NoDup (0 :: [1; 2])) by compute_done.
  assert (Hun : ∀ x, x ∈ 0 :: [1; 2] → unary (steps shout_pipeline x) = true).
  { intros x Hx. apply elem_of_cons in Hx as [->|Hx]; [reflexivity|].
    apply elem_of_cons in Hx as [->|Hx]; [reflexivity|].
    apply elem_of_cons in Hx as [->|Hx]; [reflexivity|].
    by apply elem_of_nil in Hx. }
  exact (Pipeline_execute_unary_chain sample_env shout_pipeline
           (Some hi_text) 0 [1; 2] sample_env_draws_keys Hnd eq_refl eq_refl
           Hun).
Defined.

Lemma Pipeline_execute_unary_replay_witness :
  (Pipeline_execute sample_env None qa_upper).1
  = Ok (OList [VStr "A"; VStr "B"]).
Proof.
  assert (Hnd : NoDup (0 :: [1])) by compute_done.
  assert (Hq : "q" ≠ EmptyString) by done.
  assert (Hun : ∀ x, x ∈ [1] → unary (steps qa_upper x) = true).
  { intros x Hx. apply elem_of_cons in Hx as [->|Hx]; [reflexivity|].
    by apply elem_of_nil in Hx. }
  exact (Pipeline_execute_unary_replay sample_env qa_upper None 0 [1]
           (qa_source qa_records) qa_records "q" "q" sample_env_draws_keys
           Hnd eq_refl eq_refl eq_refl eq_refl eq_refl eq_refl Hq eq_refl Hq
           Hun).
Defined.

Lemma CallerFacade_call_model_defaults_witness :
  CallerFacade_call_model [openai_provider; anthropic_provider]
    (VStr "anthropic") echo_api None None None (VStr "hi")
  = inl (VStr "hi").
Proof.
  exact (CallerFacade_call_model_defaults
           [openai_provider; anthropic_provider] (VStr "anthropic") echo_api
           (VStr "hi") eq_refl).
Defined.

Lemma CallerFacade_call_model_shadowed_witness :
  ∃ q, q ∈ [openai_provider; anthropic_provider] ∧ name q = "anthropic"
       ∧ CallerFacade_call_model [openai_provider; anthropic_provider]
           (VStr "openai") echo_api None None None (VStr "anthropic")
         = inl VNone.
Proof.
  apply (CallerFacade_call_model_shadowed
           [openai_provider; anthropic_provider] (VStr "openai") echo_api
           "anthropic").
  exists anthropic_provider. split; [|reflexivity]. right. left.
Defined.

Lemma intelligent_parser_selects_witness :
  intelligent_parser [anthropic_provider; openai_provider] (VStr "openai")
    [VStr "openai"; VStr "claude"; VNone; VStr "hi"]
  = inr (KeyError (VStr "claude")).
Proof.
  assert (Hne : "claude" ≠ EmptyString) by done.
  exact (proj1 (proj2 (intelligent_parser_selects
                         [anthropic_provider; openai_provider] (VStr "openai")
                         [VStr "openai"; VStr "claude"; VNone; VStr "hi"])
                  openai_provider eq_refl) "claude" eq_refl Hne eq_refl).
Defined.

Lemma change_mapping_unmatched_operation_witness :
  change_mapping "openai" "openai" "Edit" (Some [("gpt", "gpt-5")]) []
    sample_config
  = (Ok tt, sample_config).
Proof.
  apply (change_mapping_unmatched_operation "openai" "openai" "Edit"
           (Some [("gpt", "gpt-5")]) [] sample_config).
  - compute_done.
  - done.
  - compute_done.
  - compute_done.
Defined.

Lemma change_mapping_update_witness :
  ∃ cfg' m',
    change_mapping "openai" "openai" "edit" (Some [("gpt", "gpt-5")]) []
      sample_config = (Ok tt, cfg')
    ∧ provider_configs cfg' !! "openai" = Some m'
    ∧ m' !! "gpt" = Some "gpt-5".
Proof.
  assert (Hp : "openai" ∈ main_providers sample_config) by compute_done.
  assert (Hd : [("gpt", "gpt-5")] ≠ ([] : list (string * string))) by done.
  assert (Hnd : NoDup [("gpt", "gpt-5")].*1) by compute_done.
  destruct (change_mapping_update "openai" "openai" "edit" [("gpt", "gpt-5")]
              [] sample_config
              (<[ "gpt" := "gpt-4o" ]> {[ "mini" := "gpt-4o-mini" ]})
              Hp (or_introl eq_refl) eq_refl Hd Hnd)
    as (cfg' & m' & Hrun & _ & Hm & Hin & _).
  exists cfg', m'. split; [exact Hrun|]. split; [exact Hm|].
  apply Hin. left.
Defined.

Lemma change_mapping_delete_witness :
  ∃ cfg' m',
    change_mapping "openai" "openai" "delete"
      (Some ([("gpt", "x")] ++ ("turbo", "y") :: [("mini", "z")])) []
      sample_config
    = (Raise (KeyError (VStr "Friendly name turbo not found.")), cfg')
    ∧ provider_configs cfg' !! "openai" = Some m'
    ∧ m' !! "gpt" = None.
Proof.
  assert (Hp : "openai" ∈ main_providers sample_config) by compute_done.
  assert (Hnd : NoDup [("gpt", "x")].*1) by compute_done.
  assert (Hall : ∀ k', k' ∈ [("gpt", "x")].*1 →
            is_Some ((<[ "gpt" := "gpt-4o" ]> {[ "mini" := "gpt-4o-mini" ]}
                      : gmap string string) !! k')).
  { intros k' Hk. apply elem_of_cons in Hk as [->|Hk]; [by eexists|].
    by apply elem_of_nil in Hk. }
  assert (Hk : "turbo" ∉ [("gpt", "x")].*1) by compute_done.
  destruct (proj2 (change_mapping_delete "openai" "openai" [] sample_config
                     (<[ "gpt" := "gpt-4o" ]> {[ "mini" := "gpt-4o-mini" ]})
                     Hp eq_refl)
              [("gpt", "x")] "turbo" "y" [("mini", "z")] Hnd Hall Hk eq_refl)
    as (cfg' & m' & Hrun & Hm & Hlook).
  exists cfg', m'. split; [exact Hrun|]. split; [exact Hm|].
  exact (Hlook "gpt").
Defined.
